(** * prompt-explorer: the scan pipeline, embedded and verified

    A shallow embedding of the extraction and heuristic-analysis core of the
    repository:

    - [src/lib/secretsScan.ts]          ([scanTextForSecrets]),
    - [src/lib/promptKeywordScan.ts]    ([scanTextForPromptKeywords]),
    - [src/lib/extract/pythonExtractor.ts] ([ensurePythonScript],
      [extractPythonPrompts] and the Python [PromptVisitor] it writes out),
    - [src/lib/analyzePrompts.ts]       ([flattenFileTree],
      [analyzePromptContext]),
    - [src/app/api/scan/route.ts]       ([listAllFiles], [buildFileTree] and
      the scanning part of [POST]; further down [bodySchema], [getClientIp]
      and the entry of [POST]),
    - [src/lib/rateLimit.ts]            ([checkRateLimit]),
    - [src/lib/auth.ts]                 ([requireJwtFromRequest]),
    - [src/lib/github.ts]               (the name [cloneOrPullRepo] gives the
      clone).

    Conventions.  A JavaScript string is a sequence of UTF-16 code units and
    is modelled as [list N]; literals are written [str "..."].  Line numbers,
    indices and lengths are [nat]; budgets that the caller supplies as
    JavaScript numbers are [Z].  Regular expressions are kept as syntax trees
    that mirror the literals of the source and are run by a backtracking
    matcher with the priority order of ECMAScript.  Paths are strings, put
    together by [join] of node:path (POSIX), which normalizes them; the
    directory that a path names is a tree of entries. *)

From Stdlib Require Import List ZArith NArith QArith Qcanon Lia Bool Ascii String.
From stdpp Require Import base tactics option list gmap sets strings pretty.

Set Default Proof Using "Type".
Local Open Scope nat_scope.

(* ===================================================================== *)
(** ** Strings as code units *)
(* ===================================================================== *)

Module Js.

Definition str (s : string) : list N :=
  map N_of_ascii (list_ascii_of_string s).

Definition in_range (lo hi c : N) : bool := (lo <=? c)%N && (c <=? hi)%N.

Definition is_digit (c : N) : bool := in_range 48 57 c.
Definition is_upper (c : N) : bool := in_range 65 90 c.
Definition is_lower (c : N) : bool := in_range 97 122 c.
Definition is_alnum (c : N) : bool := is_digit c || is_upper c || is_lower c.

(** [\w]: [A-Za-z0-9_]. *)
Definition is_word (c : N) : bool := is_alnum c || (c =? 95)%N.

(** [\s] and the characters removed by [String.prototype.trim]: the
    ECMAScript WhiteSpace and LineTerminator code units. *)
Definition is_space (c : N) : bool :=
  in_range 9 13 c || (c =? 32)%N || (c =? 160)%N || (c =? 5760)%N
  || in_range 8192 8202 c || (c =? 8232)%N || (c =? 8233)%N
  || (c =? 8239)%N || (c =? 8287)%N || (c =? 12288)%N || (c =? 65279)%N.

(** Line terminators, which [.] does not match. *)
Definition is_line_terminator (c : N) : bool :=
  (c =? 10)%N || (c =? 13)%N || (c =? 8232)%N || (c =? 8233)%N.

(** Canonicalize of the [i] flag (no [u] flag).  Every character written in
    the patterns of this program is ASCII, and a code unit above 127 never
    canonicalizes to an ASCII one, so upper-casing the ASCII letters is
    exact for them. *)
Definition canon (c : N) : N := if is_lower c then (c - 32)%N else c.

Definition char_eq (ignore_case : bool) (a b : N) : bool :=
  if ignore_case then (canon a =? canon b)%N else (a =? b)%N.

(** [String.prototype.toLowerCase], on the ASCII letters.  The program only
    lower-cases a path to look for the substring [prisma]; no other code
    unit lower-cases to a string that contains one of its letters followed
    by the next one. *)
Definition toLowerCase (s : list N) : list N :=
  map (fun c => if is_upper c then (c + 32)%N else c) s.

Fixpoint starts_with (p s : list N) : bool :=
  match p, s with
  | [], _ => true
  | a :: p', b :: s' => (a =? b)%N && starts_with p' s'
  | _ :: _, [] => false
  end.

(** [String.prototype.includes]. *)
Fixpoint includes (s p : list N) : bool :=
  starts_with p s || match s with [] => false | _ :: s' => includes s' p end.

(** [String.prototype.indexOf] and [lastIndexOf] of a single character;
    [None] stands for [-1]. *)
Fixpoint indexOf (s : list N) (c : N) : option nat :=
  match s with
  | [] => None
  | a :: s' => if (a =? c)%N then Some 0 else S <$> indexOf s' c
  end.

Fixpoint lastIndexOf (s : list N) (c : N) : option nat :=
  match s with
  | [] => None
  | a :: s' =>
      match lastIndexOf s' c with
      | Some i => Some (S i)
      | None => if (a =? c)%N then Some 0 else None
      end
  end.

(** [s.slice(i, j)] for indices within [0 .. length]. *)
Definition slice (s : list N) (i j : nat) : list N := take (j - i) (drop i s).

(** [text.split(/\r?\n/)]: always at least one piece. *)
Fixpoint split_lines_go (cur : list N) (s : list N) : list (list N) :=
  match s with
  | [] => [rev cur]
  | 13%N :: 10%N :: s' => rev cur :: split_lines_go [] s'
  | 10%N :: s' => rev cur :: split_lines_go [] s'
  | c :: s' => split_lines_go (c :: cur) s'
  end.

Definition split_lines (s : list N) : list (list N) := split_lines_go [] s.

(** [value.replace(/\s+/g, " ")]: every maximal run of white space becomes
    one space.  [in_run] tells that the previous character was white. *)
Fixpoint collapse_ws (in_run : bool) (s : list N) : list N :=
  match s with
  | [] => []
  | c :: s' =>
      if is_space c
      then (if in_run then collapse_ws true s' else 32%N :: collapse_ws true s')
      else c :: collapse_ws false s'
  end.

(** The state of [collapse_ws] after going through [a]. *)
Fixpoint in_run_after (b : bool) (a : list N) : bool :=
  match a with [] => b | c :: a' => in_run_after (is_space c) a' end.

Fixpoint trim_start (s : list N) : list N :=
  match s with
  | c :: s' => if is_space c then trim_start s' else s
  | [] => []
  end.

(** [String.prototype.trim]. *)
Definition trim (s : list N) : list N := rev (trim_start (rev (trim_start s))).

(** [Array.prototype.join]. *)
Fixpoint join (sep : list N) (parts : list (list N)) : list N :=
  match parts with
  | [] => []
  | [p] => p
  | p :: ps => p ++ sep ++ join sep ps
  end.

(** White space only, and its contrary: some character that is not white
    space. *)
Definition all_space (l : list N) : Prop := Forall (fun c => is_space c = true) l.
Definition has_ink (l : list N) : Prop := Exists (fun c => is_space c = false) l.

(** A string without a colon (code unit 58). *)
Definition colon_free (l : list N) : Prop := Forall (fun c => c <> 58%N) l.

(** Template-literal conversion of a line number: its decimal digits. *)
Definition number_toString (n : nat) : list N := str (pretty n).

End Js.

(* ===================================================================== *)
(** ** Regular expressions *)
(* ===================================================================== *)

Module Regex.
Import Js.

(** The constructs that occur in the patterns of the program. *)
Inductive regex : Type :=
  | Eps
  | Lit (c : N)
  | CharSet (p : N -> bool)
  | Cat (r1 r2 : regex)
  | Or (r1 r2 : regex)
  | Quant (min : nat) (max : option nat) (greedy : bool) (r : regex)
  | WordBoundary
  | Group (n : nat) (r : regex)
  | Backref (n : nat).

(** A matcher state: the input already passed (most recent first), the input
    still ahead, and the captures made so far. *)
Record mstate : Type := MState {
  before : list N;
  after : list N;
  captures : list (nat * list N)
}.

Definition capture (x : mstate) (n : nat) : option (list N) :=
  snd <$> find (fun p => fst p =? n) (captures x).

Definition step (x : mstate) (a : N) (rest : list N) : mstate :=
  MState (a :: before x) rest (captures x).

(** Text consumed between state [x] and a later state [y]. *)
Definition consumed (x y : mstate) : list N :=
  rev (take (length (before y) - length (before x)) (before y)).

Definition is_word_at (s : list N) : bool :=
  match s with a :: _ => is_word a | [] => false end.

Fixpoint match_literal (ic : bool) (w : list N) (x : mstate) : option mstate :=
  match w with
  | [] => Some x
  | c :: w' =>
      match after x with
      | a :: rest => if char_eq ic a c then match_literal ic w' (step x a rest) else None
      | [] => None
      end
  end.

(** The quantifier [r{mn,mx}] (greedy or lazy) over a matcher [m] for [r],
    after RepeatMatcher of the language definition: an iteration that
    consumes nothing once the minimum is reached is rejected.  [fuel] bounds
    the iterations; [mn] plus the length of the input ahead is enough, as
    every iteration lowers one of the two. *)
Fixpoint rep (m : mstate -> list mstate) (greedy : bool)
    (fuel mn : nat) (mx : option nat) (x : mstate) {struct fuel} : list mstate :=
  match fuel with
  | 0 => []
  | S fuel' =>
      match mx with
      | Some 0 => [x]
      | _ =>
          let more :=
            flat_map
              (fun y =>
                 if (mn =? 0) && (length (after y) =? length (after x))
                 then []
                 else rep m greedy fuel' (pred mn) (pred <$> mx) y)
              (m x) in
          if negb (mn =? 0) then more
          else if greedy then more ++ [x]
          else x :: more
      end
  end.

(** All the ways [r] can match at [x], as the states reached, in the order
    in which a backtracking matcher tries them: the first one that lets the
    rest of the pattern succeed is the one taken. *)
Fixpoint rmatches (ic : bool) (r : regex) (x : mstate) {struct r} : list mstate :=
  match r with
  | Eps => [x]
  | Lit c =>
      match after x with
      | a :: rest => if char_eq ic a c then [step x a rest] else []
      | [] => []
      end
  | CharSet p =>
      match after x with
      | a :: rest => if p a then [step x a rest] else []
      | [] => []
      end
  | Cat r1 r2 => flat_map (rmatches ic r2) (rmatches ic r1 x)
  | Or r1 r2 => rmatches ic r1 x ++ rmatches ic r2 x
  | Quant mn mx greedy r' =>
      rep (rmatches ic r') greedy (S (mn + length (after x))) mn mx x
  | WordBoundary =>
      if xorb (is_word_at (before x)) (is_word_at (after x)) then [x] else []
  | Group n r' =>
      map (fun y => MState (before y) (after y) ((n, consumed x y) :: captures y))
          (rmatches ic r' x)
  | Backref n =>
      match capture x n with
      | None => [x]
      | Some w => match match_literal ic w x with Some y => [y] | None => [] end
      end
  end.

(** The matcher placed at index [k] of [s], and the text the pattern takes
    when tried there (no match: [None]). *)
Definition at_pos (s : list N) (k : nat) : mstate :=
  MState (rev (take k s)) (drop k s) [].

Definition match_at (ic : bool) (r : regex) (s : list N) (k : nat)
  : option (list N) :=
  consumed (at_pos s k) <$> head (rmatches ic r (at_pos s k)).

(** The result of one successful [exec]: [m.index], [m[0]] and the groups. *)
Record rmatch : Type := RMatch {
  m_index : nat;
  m_text : list N;
  m_groups : list (nat * list N)
}.

Definition m_group (m : rmatch) (n : nat) : option (list N) :=
  snd <$> find (fun p => fst p =? n) (m_groups m).

(** [regex.exec(s)] with [lastIndex] at the position of [aft]: the leftmost
    start at or after it where the pattern matches; the end state is
    returned too, its [before] being the new [lastIndex]. *)
Fixpoint exec_from (ic : bool) (r : regex) (bef aft : list N)
  : option (rmatch * mstate) :=
  let x := MState bef aft [] in
  match rmatches ic r x with
  | y :: _ => Some (RMatch (length bef) (consumed x y) (captures y), y)
  | [] =>
      match aft with
      | [] => None
      | a :: aft' => exec_from ic r (a :: bef) aft'
      end
  end.

(** [regex.test(s)] of a pattern without the [g] flag. *)
Definition test (ic : bool) (r : regex) (s : list N) : bool :=
  match exec_from ic r [] s with Some _ => true | None => false end.

(** The loop [while ((m = regex.exec(s))) { ... }] of a pattern with the [g]
    flag, started with [lastIndex = 0].  A match that does not move
    [lastIndex] would be found again for ever, and the loop of the source
    would not return: that is [None]. *)
Fixpoint exec_loop (fuel : nat) (ic : bool) (r : regex) (bef aft : list N)
  : option (list rmatch) :=
  match fuel with
  | 0 => None
  | S fuel' =>
      match exec_from ic r bef aft with
      | None => Some []
      | Some (m, y) =>
          if length (after y) <? length aft
          then cons m <$> exec_loop fuel' ic r (before y) (after y)
          else None
      end
  end.

Definition exec_all_opt (ic : bool) (r : regex) (s : list N) : option (list rmatch) :=
  exec_loop (S (length s)) ic r [] s.

(** The list of matches the loop goes through (for the patterns of this
    program the loop always returns, see [exec_all_opt_nonempty]). *)
Definition exec_all (ic : bool) (r : regex) (s : list N) : list rmatch :=
  default [] (exec_all_opt ic r s).

(** *** Pattern syntax *)

Fixpoint lit (w : list N) : regex :=
  match w with
  | [] => Eps
  | [c] => Lit c
  | c :: w' => Cat (Lit c) (lit w')
  end.

Definition word (s : string) : regex := lit (str s).
Definition star (r : regex) : regex := Quant 0 None true r.
Definition plus (r : regex) : regex := Quant 1 None true r.
Definition opt (r : regex) : regex := Quant 0 (Some 1) true r.
Definition lazy_star (r : regex) : regex := Quant 0 None false r.
Definition seq (rs : list regex) : regex := foldr Cat Eps rs.

(** The classes [\s], [[\s\S]], [.] and the class of the two quote
    characters (code units 34 and 39). *)
Definition ws : regex := CharSet is_space.
Definition any : regex := CharSet (fun _ => true).
Definition dot : regex := CharSet (fun c => negb (is_line_terminator c)).
Definition quote : regex := CharSet (fun c => (c =? 34)%N || (c =? 39)%N).

(** A pattern all of whose matches consume at least one character. *)
Fixpoint nonempty (r : regex) : bool :=
  match r with
  | Lit _ | CharSet _ => true
  | Cat r1 r2 => nonempty r1 || nonempty r2
  | Or r1 r2 => nonempty r1 && nonempty r2
  | Quant mn mx _ r' =>
      negb (mn =? 0) && match mx with Some k => mn <=? k | None => true end
      && nonempty r'
  | Group _ r' => nonempty r'
  | Eps | WordBoundary | Backref _ => false
  end.

(** A pattern all of whose matches consume a character that is not white
    space: it has a literal such character on every path. *)
Fixpoint needs_ink (r : regex) : bool :=
  match r with
  | Lit c => negb (is_space c)
  | Cat r1 r2 => needs_ink r1 || needs_ink r2
  | Or r1 r2 => needs_ink r1 && needs_ink r2
  | Quant mn mx _ r' =>
      negb (mn =? 0) && match mx with Some k => mn <=? k | None => true end
      && needs_ink r'
  | Group _ r' => needs_ink r'
  | Eps | CharSet _ | WordBoundary | Backref _ => false
  end.

(** [y] is reached from [x] by consuming a piece of the input ahead. *)
Definition extends (x y : mstate) : Prop :=
  exists w, after x = w ++ after y /\ before y = rev w ++ before x.

End Regex.

(* ===================================================================== *)
(** ** src/lib/secretsScan.ts *)
(* ===================================================================== *)

Module SecretsScan.
Import Js Regex.

Record SecretFinding : Type := {
  sf_match : list N;
  sf_filePath : list N;
  sf_line : nat
}.

Record pattern : Type := { p_name : string; p_ignore_case : bool; p_regex : regex }.

(** [/sk-[A-Za-z0-9]{20,}/g] *)
Definition openai_key : regex :=
  seq [word "sk-"; Quant 20 None true (CharSet is_alnum)].

(** [/Bearer\s+[A-Za-z0-9\-_\.]+/g] *)
Definition bearer_token : regex :=
  seq [word "Bearer"; plus ws;
       plus (CharSet (fun c => is_alnum c || (c =? 45)%N || (c =? 95)%N || (c =? 46)%N))].

(** The class [[\w.-]]. *)
Definition host_char : regex :=
  CharSet (fun c => is_word c || (c =? 46)%N || (c =? 45)%N).

(** The class of everything but white space and the two quote characters. *)
Definition url_tail_char : regex :=
  CharSet (fun c => negb (is_space c || (c =? 34)%N || (c =? 39)%N)).

(** The [url_private] pattern, with the flags [gi]:
    [https?:\/\/[\w.-]+\.[\w.-]+\/.+\/(?:token|key|secret)] followed by any
    number of [url_tail_char]. *)
Definition url_private : regex :=
  seq [word "http"; opt (Lit 115); word "://"; plus host_char; Lit 46;
       plus host_char; Lit 47; plus dot; Lit 47;
       Or (word "token") (Or (word "key") (word "secret"));
       star url_tail_char].

Definition patterns : list pattern :=
  [ {| p_name := "openai_key"; p_ignore_case := false; p_regex := openai_key |};
    {| p_name := "bearer_token"; p_ignore_case := false; p_regex := bearer_token |};
    {| p_name := "url_private"; p_ignore_case := true; p_regex := url_private |} ].

(** The findings of one line: for each pattern in turn, all the matches of
    its [exec] loop. *)
Definition scan_line (filePath : list N) (i : nat) (lineText : list N)
  : list SecretFinding :=
  flat_map
    (fun p =>
       map (fun m => {| sf_match := m_text m; sf_filePath := filePath; sf_line := i + 1 |})
           (exec_all (p_ignore_case p) (p_regex p) lineText))
    patterns.

Definition scanTextForSecrets (text filePath : list N) : list SecretFinding :=
  concat (imap (scan_line filePath) (split_lines text)).

End SecretsScan.

(* ===================================================================== *)
(** ** src/lib/promptKeywordScan.ts *)
(* ===================================================================== *)

Module PromptKeywordScan.
Import Js Regex.

Record PromptKeywordHit : Type := {
  filePath : list N;
  line : nat;
  matchLabel : list N;
  snippet : list N
}.

Definition normalizeWhitespace (value : list N) : list N :=
  trim (collapse_ws false value).

(** A pattern used with [test] and the flag [i], between word boundaries
    where the source writes them. *)
Definition has (r : regex) (l : list N) : bool := test true r l.
Definition bounded (r : regex) : regex := seq [WordBoundary; r; WordBoundary].

Record keywordMatcher : Type := { km_label : list N; km_test : list N -> bool }.

Definition keywordMatchers : list keywordMatcher :=
  [ {| km_label := str "role_system";
       km_test := fun l => has (bounded (word "role")) l && has (bounded (word "system")) l |};
    {| km_label := str "system_prompt_identifier";
       km_test := fun l =>
         has (seq [WordBoundary; word "system";
                   opt (CharSet (fun c => (c =? 95)%N || (c =? 45)%N));
                   word "prompt"; WordBoundary]) l |};
    {| km_label := str "system_message_identifier";
       km_test := fun l =>
         has (Or (seq [WordBoundary; word "system"; star ws; word "message"; WordBoundary])
                 (bounded (word "systemMessage"))) l |};
    {| km_label := str "messages_role_system_inline";
       km_test := fun l =>
         has (seq [WordBoundary; word "message"; opt (Lit 115); WordBoundary]) l
         && has (bounded (word "role")) l && has (bounded (word "system")) l |};
    {| km_label := str "system_directive_you_are";
       km_test := fun l =>
         has (bounded (word "you are")) l
         && has (bounded (Group 1 (Or (word "system") (word "assistant")))) l |};
    {| km_label := str "generic_prompt_with_system";
       km_test := fun l => has (bounded (word "prompt")) l && has (bounded (word "system")) l |};
    {| km_label := str "common_identifier_variants";
       km_test := fun l =>
         has (Group 1 (Or (word "initialSystemPrompt")
                      (Or (word "baseSystemPrompt")
                      (Or (word "systemInstructions") (word "systemSpec"))))) l |} ].

Record blockPattern : Type := {
  bp_label : list N;
  bp_ignore_case : bool;
  bp_regex : regex;
  bp_groupIndex : nat
}.

(** Pieces shared by the six block patterns. *)
Definition backtick : regex := Lit 96.
Definition sp : regex := star ws.
Definition lazy_any : regex := lazy_star any.
Definition role_is_system (sep : N) : regex :=
  seq [word "role"; sp; Lit sep; sp; quote; word "system"; quote].
Definition template_body (n : nat) : regex := seq [backtick; Group n lazy_any; backtick].
Definition triple_body : regex :=
  seq [Group 1 (Quant 3 (Some 3) true quote); Group 2 lazy_any; Backref 1].

Definition blockPatterns : list blockPattern :=
  [ (* /\bsystem\s*:\s*`([\s\S]*?)`/g *)
    {| bp_label := str "js_ts_system_template_literal"; bp_ignore_case := false;
       bp_regex := seq [WordBoundary; word "system"; sp; Lit 58; sp; template_body 1];
       bp_groupIndex := 1 |};
    (* role : 'system' ... content : `...`, flags gi *)
    {| bp_label := str "js_ts_role_system_then_content_template"; bp_ignore_case := true;
       bp_regex := seq [role_is_system 58; lazy_any; word "content"; sp; Lit 58; sp;
                        template_body 1];
       bp_groupIndex := 1 |};
    (* content : `...` ... role : 'system', flags gi *)
    {| bp_label := str "js_ts_content_template_then_role_system"; bp_ignore_case := true;
       bp_regex := seq [word "content"; sp; Lit 58; sp; template_body 1; lazy_any;
                        role_is_system 58];
       bp_groupIndex := 1 |};
    (* \bsystem\s*[:=]\s* and a triple-quoted body closed by \1, flag g *)
    {| bp_label := str "py_system_triple_quoted"; bp_ignore_case := false;
       bp_regex := seq [WordBoundary; word "system"; sp;
                        CharSet (fun c => (c =? 58)%N || (c =? 61)%N); sp; triple_body];
       bp_groupIndex := 2 |};
    (* role = 'system' ... content = triple-quoted body, flags gi *)
    {| bp_label := str "py_role_system_triple_content"; bp_ignore_case := true;
       bp_regex := seq [role_is_system 61; lazy_any; word "content"; sp; Lit 61; sp;
                        triple_body];
       bp_groupIndex := 2 |};
    (* content = triple-quoted body ... role = 'system', flags gi *)
    {| bp_label := str "py_content_triple_then_role_system"; bp_ignore_case := true;
       bp_regex := seq [word "content"; sp; Lit 61; sp; triple_body; lazy_any;
                        role_is_system 61];
       bp_groupIndex := 2 |} ].

(** [lineNumberAtIndex]: one more than the line feeds before [idx]. *)
Definition lineNumberAtIndex (text : list N) (idx : nat) : nat :=
  if idx <=? 0 then 1
  else foldl (fun count c => if (c =? 10)%N then count + 1 else count) 1 (take idx text).

(** The key of the [seen] set: label, line and the first 50 characters of
    the snippet, joined by colons. *)
Definition seen_key (label : list N) (line : nat) (content : list N) : list N :=
  label ++ [58%N] ++ number_toString line ++ [58%N] ++ slice content 0 50.

(** The state of the scan: the [seen] set and the [hits] pushed so far. *)
Definition scan_state : Type := gset (list N) * list PromptKeywordHit.

(** What one match of a block pattern becomes. *)
Definition block_hit (text filePath : list N) (bp : blockPattern) (m : rmatch)
  : PromptKeywordHit :=
  {| filePath := filePath;
     line := lineNumberAtIndex text (m_index m);
     matchLabel := bp_label bp;
     snippet := default [] (m_group m (bp_groupIndex bp)) |}.

(** The body of both loops from the key on: skip when seen, else record. *)
Definition emit (h : PromptKeywordHit) (st : scan_state) : option scan_state :=
  let key := seen_key (matchLabel h) (line h) (snippet h) in
  if decide (key ∈ st.1) then None else Some ({[key]} ∪ st.1, st.2 ++ [h]).

Definition block_step (text filePath : list N) (bp : blockPattern)
    (st : scan_state) (m : rmatch) : scan_state :=
  default st (emit (block_hit text filePath bp m) st).

Definition block_loop (text filePath : list N) (st : scan_state) : scan_state :=
  foldl
    (fun st bp =>
       foldl (block_step text filePath bp) st
             (exec_all (bp_ignore_case bp) (bp_regex bp) text))
    st blockPatterns.

(** The three-line context of line [i]. *)
Definition context_snippet (lines : list (list N)) (i : nat) (rawLine : list N) : list N :=
  let contextPrev := if 0 <? i then default [] (lines !! (i - 1)) else [] in
  let contextNext := if i + 1 <? length lines then default [] (lines !! (i + 1)) else [] in
  normalizeWhitespace
    (join (str (String " " (String (ascii_of_nat 10) " ")))
          (filter (fun s => s <> []) [contextPrev; rawLine; contextNext])).

Definition line_hit (lines : list (list N)) (filePath : list N) (i : nat)
    (rawLine : list N) (km : keywordMatcher) : PromptKeywordHit :=
  {| filePath := filePath; line := i + 1; matchLabel := km_label km;
     snippet := context_snippet lines i rawLine |}.

(** The inner loop over the matchers for one line: a matcher whose key was
    seen is passed over ([continue]); the first one recorded ends the loop
    ([break]). *)
Fixpoint try_matchers (kms : list keywordMatcher) (lines : list (list N))
    (filePath : list N) (i : nat) (rawLine : list N) (st : scan_state) : scan_state :=
  match kms with
  | [] => st
  | km :: kms' =>
      if km_test km rawLine then
        match emit (line_hit lines filePath i rawLine km) st with
        | None => try_matchers kms' lines filePath i rawLine st
        | Some st' => st'
        end
      else try_matchers kms' lines filePath i rawLine st
  end.

(** The loop [for (let i = 0; i < lines.length; i += 1)], from index [i] on
    with the lines [rest] still to visit. *)
Fixpoint line_loop (lines : list (list N)) (filePath : list N) (i : nat)
    (rest : list (list N)) (st : scan_state) : scan_state :=
  match rest with
  | [] => st
  | rawLine :: rest' =>
      line_loop lines filePath (i + 1) rest'
                (try_matchers keywordMatchers lines filePath i rawLine st)
  end.

Definition scanTextForPromptKeywords (text filePath : list N) : list PromptKeywordHit :=
  let lines := split_lines text in
  snd (line_loop lines filePath 0 lines (block_loop text filePath (∅, []))).

(** The two families of labels. *)
Definition is_block_label (l : list N) : Prop := l ∈ map bp_label blockPatterns.
Definition is_keyword_label (l : list N) : Prop := l ∈ map km_label keywordMatchers.

(** The invariant of the loops: the [seen] set holds the keys of the hits
    pushed, whose labels have no colon. *)
Definition seen_inv (st : scan_state) : Prop :=
  (forall k, k ∈ st.1 <->
     exists h, h ∈ st.2 /\ k = seen_key (matchLabel h) (line h) (snippet h))
  /\ Forall (fun h => colon_free (matchLabel h)) st.2.

(** Hits pushed before the line of index [i] is examined. *)
Definition older (i : nat) (h : PromptKeywordHit) : Prop :=
  is_block_label (matchLabel h) \/ (is_keyword_label (matchLabel h) /\ line h <= i).

(** *** The rules of the specification, for comparison *)

(** The key as the triple the specification speaks of. *)
Definition key_triple (h : PromptKeywordHit) : list N * nat * list N :=
  (matchLabel h, line h, take 50 (snippet h)).

(** De-duplication as specified: going through the candidates in order, one
    is dropped exactly when a hit with the same triple was emitted before. *)
Fixpoint suppress_duplicates (emitted candidates : list PromptKeywordHit)
  : list PromptKeywordHit :=
  match candidates with
  | [] => emitted
  | h :: cs =>
      if decide (key_triple h ∈ map key_triple emitted)
      then suppress_duplicates emitted cs
      else suppress_duplicates (emitted ++ [h]) cs
  end.

(** The candidates of the block extractors: every match of every block
    pattern, pattern by pattern. *)
Definition block_candidates (text filePath : list N) : list PromptKeywordHit :=
  flat_map
    (fun bp => map (block_hit text filePath bp)
                   (exec_all (bp_ignore_case bp) (bp_regex bp) text))
    blockPatterns.

(** The line heuristics as specified: for every line, the first predicate in
    declaration order that matches it, if any, gives the one hit of that
    line. *)
Definition first_matching (l : list N) : option keywordMatcher :=
  find (fun km => km_test km l) keywordMatchers.

Fixpoint line_candidates_from (lines : list (list N)) (filePath : list N)
    (i : nat) (rest : list (list N)) : list PromptKeywordHit :=
  match rest with
  | [] => []
  | l :: rest' =>
      option_list (line_hit lines filePath i l <$> first_matching l)
      ++ line_candidates_from lines filePath (i + 1) rest'
  end.

Definition line_candidates (text filePath : list N) : list PromptKeywordHit :=
  let lines := split_lines text in
  line_candidates_from lines filePath 0 lines.

(** The snippet as specified: previous, matching and next line joined, white
    space normalized. *)
Definition three_line_snippet (prev cur next : list N) : list N :=
  normalizeWhitespace (prev ++ [32%N] ++ cur ++ [32%N] ++ next).

End PromptKeywordScan.

(* ===================================================================== *)
(** ** src/lib/extract/pythonExtractor.ts: the Python script it writes *)
(* ===================================================================== *)

(** The script walks the syntax tree that [ast.parse] returns.  The tree is
    the input here: a Python [str] is a [list N] of code points, [.s] of a
    constant is its [value] (as in the interpreters that still have that
    attribute), and the fields of a node are visited in their declared
    order. *)
Module PythonExtractor.
Import Js.

#[local] Unset Elimination Schemes.
Inductive node : Type :=
  | Name (id : list N)
  | Attribute (value : node) (attr : list N)
  | ConstantStr (value : list N)
  | ConstantOther
  | JoinedStr (values : list node)
  | FormattedValue (value : node) (format_spec : option node)
  | Dict (keys : list (option node)) (values : list node)
  | List_ (elts : list node)
  | Call (lineno : nat) (func : node) (args : list node)
         (keywords : list (option (list N) * node))
  | FunctionDef (name : list N) (children : list node)
  | AsyncFunctionDef (name : list N) (children : list node)
  | Other (children : list node).
#[local] Set Elimination Schemes.

(** An entry of [results]. *)
Record PythonPrompt : Type := {
  role : list N;
  text : list N;
  filePath : list N;
  line : nat;
  functionName : option (list N);
  callSignature : list N
}.

Definition LLM_CALLEE_NAMES : list (list (list N)) :=
  [ [str "openai"; str "ChatCompletion"; str "create"];
    [str "openai"; str "chat"; str "completions"; str "create"];
    [str "client"; str "chat"; str "completions"; str "create"];
    [str "anthropic"; str "messages"; str "create"];
    [str "llm"; str "invoke"] ].

(** [_callee_segments]: the attribute names from the innermost value out,
    after the identifier at the root when there is one. *)
Fixpoint _callee_segments (n : node) : list (list N) :=
  match n with
  | Attribute v attr => _callee_segments v ++ [attr]
  | Name id => [id]
  | _ => []
  end.

(** [_extract_string]. *)
Definition _extract_string (n : node) : option (list N) :=
  match n with
  | ConstantStr s => Some s
  | JoinedStr values =>
      Some (concat (omap (fun v => match v with ConstantStr s => Some s | _ => None end)
                         values))
  | _ => None
  end.

(** [_infer_role_from_kw]. *)
Definition _infer_role_from_kw (kwarg_name : list N) : list N :=
  if bool_decide (kwarg_name ∈ [str "system"; str "system_prompt"]) then str "system"
  else if bool_decide (kwarg_name ∈ [str "user"; str "prompt"; str "input"]) then str "user"
  else if bool_decide (kwarg_name ∈ [str "tool"; str "tools_prompt"]) then str "tool"
  else str "unknown".

(** The test of [visit_Call]: some known name is the end of the callee. *)
Definition is_llm_callee (callee : list (list N)) : bool :=
  existsb
    (fun s => (length s <=? length callee)
              && bool_decide (drop (length callee - length s) callee = s))
    LLM_CALLEE_NAMES.

(** A Python value is true when it is not [None] and not empty. *)
Definition truthy (s : option (list N)) : bool :=
  match s with Some (_ :: _) => true | _ => false end.

Section visitor.
Variable file_path : list N.

Definition result (func_stack : list (list N)) (lineno : nat)
    (callee : list (list N)) (role text : list N) : PythonPrompt :=
  {| role := role; text := text; filePath := file_path; line := lineno;
     functionName := last func_stack;
     callSignature := join (str ".") callee |}.

(** The loop over [node.keywords]. *)
Definition keyword_results (func_stack : list (list N)) (lineno : nat)
    (callee : list (list N)) (keywords : list (option (list N) * node))
  : list PythonPrompt :=
  flat_map
    (fun kw =>
       let text := _extract_string kw.2 in
       if truthy text then
         [result func_stack lineno callee
                 (match kw.1 with
                  | Some (c :: arg) => _infer_role_from_kw (c :: arg)
                  | _ => str "unknown"
                  end)
                 (default [] text)]
       else [])
    keywords.

(** [k.s if isinstance(k, ast.Constant) else None], compared with a name. *)
Definition key_is (name : list N) (k : option node) : bool :=
  match k with
  | Some (ConstantStr s) => bool_decide (s = name)
  | _ => false
  end.

(** The loop [for k, v in zip(keys, values)] over the state [(role, text)]. *)
Definition dict_scan (keys : list (option node)) (values : list node)
  : option (list N) * option (list N) :=
  foldl
    (fun st kv =>
       let st1 :=
         if key_is (str "role") kv.1 then
           match kv.2 with ConstantStr s => (Some s, st.2) | _ => st end
         else st in
       if key_is (str "content") kv.1 then (st1.1, _extract_string kv.2) else st1)
    (None, None) (zip keys values).

(** What a dictionary among the arguments contributes. *)
Definition dict_results (func_stack : list (list N)) (lineno : nat)
    (callee : list (list N)) (keys : list (option node)) (values : list node)
  : list PythonPrompt :=
  if existsb (key_is (str "role")) keys && existsb (key_is (str "content")) keys then
    let '(role, text) := dict_scan keys values in
    if truthy text then
      [result func_stack lineno callee
              (if truthy role then default [] role else str "unknown")
              (default [] text)]
    else []
  else [].

(** The loop over [node.args]. *)
Definition arg_results (func_stack : list (list N)) (lineno : nat)
    (callee : list (list N)) (args : list node) : list PythonPrompt :=
  flat_map
    (fun arg =>
       match arg with
       | Dict keys values => dict_results func_stack lineno callee keys values
       | List_ elts =>
           flat_map
             (fun elt =>
                match elt with
                | Dict keys values => dict_results func_stack lineno callee keys values
                | _ => []
                end)
             elts
       | _ => []
       end)
    args.

(** What [visit_Call] appends before it goes on to the children. *)
Definition call_results (func_stack : list (list N)) (lineno : nat) (func : node)
    (args : list node) (keywords : list (option (list N) * node))
  : list PythonPrompt :=
  let callee := _callee_segments func in
  if is_llm_callee callee then
    keyword_results func_stack lineno callee keywords
    ++ arg_results func_stack lineno callee args
  else [].

(** [visit]: the entries appended to [results] while the node is visited
    with the given [func_stack], in order. *)
Fixpoint visit (func_stack : list (list N)) (n : node) {struct n} : list PythonPrompt :=
  match n with
  | Name _ | ConstantStr _ | ConstantOther => []
  | Attribute value _ => visit func_stack value
  | JoinedStr values => flat_map (visit func_stack) values
  | FormattedValue value format_spec =>
      visit func_stack value
      ++ match format_spec with Some f => visit func_stack f | None => [] end
  | Dict keys values =>
      flat_map (fun k => match k with Some k => visit func_stack k | None => [] end) keys
      ++ flat_map (visit func_stack) values
  | List_ elts => flat_map (visit func_stack) elts
  | Call lineno func args keywords =>
      call_results func_stack lineno func args keywords
      ++ visit func_stack func
      ++ flat_map (visit func_stack) args
      ++ flat_map (fun kw => visit func_stack kw.2) keywords
  | FunctionDef name children | AsyncFunctionDef name children =>
      flat_map (visit (func_stack ++ [name])) children
  | Other children => flat_map (visit func_stack) children
  end.

(** [extract_from_file]: [None] stands for a file that cannot be read or
    parsed. *)
Definition extract_from_file (tree : option node) : list PythonPrompt :=
  match tree with Some t => visit [] t | None => [] end.
End visitor.

(** [walk_dir]: the results of the files, one after the other. *)
Definition walk_dir (files : list (list N * option node)) : list PythonPrompt :=
  flat_map (fun f => extract_from_file f.1 f.2) files.

(** The child nodes of a node, in the order [generic_visit] takes them. *)
Definition child_nodes (n : node) : list node :=
  match n with
  | Name _ | ConstantStr _ | ConstantOther => []
  | Attribute value _ => [value]
  | JoinedStr values => values
  | FormattedValue value format_spec => value :: option_list format_spec
  | Dict keys values => omap id keys ++ values
  | List_ elts => elts
  | Call _ func args keywords => func :: args ++ map snd keywords
  | FunctionDef _ children | AsyncFunctionDef _ children | Other children => children
  end.

(** The name of a function definition ([def] or [async def]). *)
Definition defined_name (n : node) : option (list N) :=
  match n with
  | FunctionDef name _ | AsyncFunctionDef name _ => Some name
  | _ => None
  end.

(** [inside tree names n]: the node [n] stands in [tree], and [names] are
    the names of the function definitions of [tree] that it stands in, the
    outermost first. *)
Inductive inside : node -> list (list N) -> node -> Prop :=
  | inside_here n : inside n [] n
  | inside_below tree child names n :
      child ∈ child_nodes tree ->
      inside child names n ->
      inside tree (option_list (defined_name tree) ++ names) n.



(** A callee that is a dotted name: attributes on an identifier. *)
Fixpoint is_dotted_name (n : node) : bool :=
  match n with
  | Name _ => true
  | Attribute v _ => is_dotted_name v
  | _ => false
  end.

(** The line numbers of a tree that comes from the parser start at 1. *)
Fixpoint linenos_positive (n : node) : bool :=
  match n with
  | Name _ | ConstantStr _ | ConstantOther => true
  | Attribute value _ => linenos_positive value
  | JoinedStr values => forallb linenos_positive values
  | FormattedValue value format_spec =>
      linenos_positive value
      && match format_spec with Some f => linenos_positive f | None => true end
  | Dict keys values =>
      forallb (fun k => match k with Some k => linenos_positive k | None => true end) keys
      && forallb linenos_positive values
  | List_ elts => forallb linenos_positive elts
  | Call lineno func args keywords =>
      (1 <=? lineno) && linenos_positive func && forallb linenos_positive args
      && forallb (fun kw => linenos_positive kw.2) keywords
  | FunctionDef _ children | AsyncFunctionDef _ children | Other children =>
      forallb linenos_positive children
  end.

End PythonExtractor.

(* ===================================================================== *)
(** ** The file system under the target directory *)
(* ===================================================================== *)

(** The tree rooted at the target directory.  A directory lists its entries
    in the order [readdir] returns them; [readable = false] is a directory
    that [readdir] fails to open; a file carries the size [stat] reports
    and its content ([None]: [readFile] fails); [Special] is an entry that
    is neither a file nor a directory for [readdir]: a symbolic link, a
    socket, a device.  The tree is the directory as the program reads it:
    the node of an entry is what [readdir] reports of it and what the path
    made for it leads to.  What is behind a symbolic link is not part of
    the tree; a file has one name in it, and names are told apart
    character by character.  The reads of the program ([readdir], [stat],
    [readFile]) do not change the tree. *)
Module Fs.
Import Js.

#[local] Unset Elimination Schemes.
Inductive fsnode : Type :=
  | File (size : Z) (content : option (list N))
  | Dir (readable : bool) (entries : list (list N * fsnode))
  | Special.
#[local] Set Elimination Schemes.

Definition isDirectory (n : fsnode) : bool :=
  match n with Dir _ _ => true | _ => false end.
Definition isFile (n : fsnode) : bool :=
  match n with File _ _ => true | _ => false end.

(** *** [join] of node:path

    The program makes the path of an entry with [join(dir, name)] of
    node:path, which puts a separator between its arguments and normalizes
    the result.  This is the POSIX flavour of the module; the program itself
    cuts paths at [/].  The library goes through the characters of the path;
    here the path is cut into its segments first and the segments are gone
    through, which gives the same string. *)

(** The pieces between the separators (code unit 47): always at least
    one. *)
Fixpoint segments (path : list N) : list (list N) :=
  match path with
  | [] => [[]]
  | c :: rest =>
      if (c =? 47)%N then [] :: segments rest
      else match segments rest with
           | seg :: segs => (c :: seg) :: segs
           | [] => [[c]]
           end
  end.

(** One segment in [normalizeString].  An empty segment and [.] are passed
    over; [..] takes away the segment before it, unless there is none or it
    is [..] itself, and then [..] is kept where the path may go above its
    start; any other segment is kept.  [res] holds the segments kept so far,
    the last one first. *)
Definition normalize_segment (allowAboveRoot : bool) (res : list (list N))
    (seg : list N) : list (list N) :=
  if bool_decide (seg = []) || bool_decide (seg = str ".") then res
  else if bool_decide (seg = str "..") then
    match res with
    | before :: up =>
        if bool_decide (before = str "..")
        then (if allowAboveRoot then seg :: res else res)
        else up
    | [] => if allowAboveRoot then [seg] else []
    end
  else seg :: res.

(** The segments that are kept of a path, the last one first. *)
Definition kept_segments (path : list N) (allowAboveRoot : bool) : list (list N) :=
  foldl (normalize_segment allowAboveRoot) [] (segments path).

Definition normalizeString (path : list N) (allowAboveRoot : bool) : list N :=
  join (str "/") (rev (kept_segments path allowAboveRoot)).

(** [path.normalize]. *)
Definition normalize (path : list N) : list N :=
  match path with
  | [] => str "."
  | c :: _ =>
      let isAbsolute := (c =? 47)%N in
      let trailingSeparator := bool_decide (last path = Some 47%N) in
      match normalizeString path (negb isAbsolute) with
      | [] => if isAbsolute then str "/"
              else if trailingSeparator then str "./" else str "."
      | p => (if isAbsolute then str "/" else [])
             ++ p ++ (if trailingSeparator then str "/" else [])
      end
  end.

(** [path.join(dir, name)]: the arguments that are not empty with a
    separator between them, normalized. *)
Definition path_join (dir name : list N) : list N :=
  match dir, name with
  | [], [] => str "."
  | [], _ => normalize name
  | _, [] => normalize dir
  | _, _ => normalize (dir ++ [47%N] ++ name)
  end.

(** A name as [readdir] returns them: not empty, without a separator, and
    neither [.] nor [..]. *)
Definition is_proper_name (name : list N) : bool :=
  negb (bool_decide (name = [])) && negb (bool_decide (47%N ∈ name))
  && negb (bool_decide (name = str ".")) && negb (bool_decide (name = str "..")).

(** Every entry below has such a name. *)
Fixpoint proper_names (n : fsnode) : bool :=
  match n with
  | Dir _ entries => forallb (fun e => is_proper_name e.1 && proper_names e.2) entries
  | _ => true
  end.

Definition lookup_entry (name : list N) (entries : list (list N * fsnode))
  : option fsnode :=
  snd <$> find (fun e => bool_decide (e.1 = name)) entries.

(** Replace the entry called [name], or add it at the end. *)
Fixpoint put_entry (name : list N) (n : fsnode) (entries : list (list N * fsnode))
  : list (list N * fsnode) :=
  match entries with
  | [] => [(name, n)]
  | e :: es => if bool_decide (e.1 = name) then (name, n) :: es
               else e :: put_entry name n es
  end.

(** [fs.mkdir(join(root, name), { recursive: true })] on an existing root:
    nothing to do when the directory is there, an error ([None]) when the
    name is taken by something else or the root is not a directory. *)
Definition mkdir (name : list N) (root : fsnode) : option fsnode :=
  match root with
  | Dir r entries =>
      match lookup_entry name entries with
      | None => Some (Dir r (put_entry name (Dir true []) entries))
      | Some (Dir _ _) => Some root
      | Some _ => None
      end
  | _ => None
  end.

(** [fs.writeFile(join(root, dir, file), data, "utf8")]: creates or replaces
    the file; an error when the place is taken by a directory or a special
    entry, or when [dir] is not a directory of the root. *)
Definition writeFile (dir file data : list N) (root : fsnode) : option fsnode :=
  match root with
  | Dir r entries =>
      match lookup_entry dir entries with
      | Some (Dir r' es) =>
          match lookup_entry file es with
          | Some (Dir _ _) | Some Special => None
          | _ =>
              Some (Dir r (put_entry dir
                             (Dir r' (put_entry file
                                        (File (Z.of_nat (length data)) (Some data)) es))
                             entries))
          end
      | _ => None
      end
  | _ => None
  end.


End Fs.

(* ===================================================================== *)
(** ** src/lib/extract/pythonExtractor.ts: the TypeScript side *)
(* ===================================================================== *)

Module Extractor.
Import Js Fs.

(** What the child process leaves when it closes: its exit code, what it
    wrote to its two streams, and the tree as it is then. *)
Record proc_result : Type :=
  { exit_code : Z; stdout : list N; stderr : list N; left_behind : fsnode }.

(** The outcome of a promise. *)
Inductive outcome (A : Type) : Type :=
  | Resolved (v : A)
  | Rejected.
Arguments Resolved {A} v.
Arguments Rejected {A}.

Definition tmp_extractor : list N := str ".tmp-extractor".
Definition script_name : list N := str "python_prompt_extractor.py".


(** [mkdir] and [writeFile] are given the paths
    [join(projectRoot, ".tmp-extractor")] and the script in it, and the
    system resolves them when it opens them.  They land on the entries of
    these names in the target directory unless a symbolic link is in the
    way: [.tmp-extractor], or the script in it, is an entry that is neither
    a file nor a directory; or the path of the target has a segment [..],
    which [join] takes away on the string and the system follows on the
    disk. *)
Definition off_the_tree (projectRoot : list N) (fs : fsnode) : bool :=
  bool_decide (str ".." ∈ segments projectRoot)
  || match fs with
     | Dir _ entries =>
         match lookup_entry tmp_extractor entries with
         | Some Special => true
         | Some (Dir _ es) =>
             match lookup_entry script_name es with Some Special => true | _ => false end
         | _ => false
         end
     | _ => false
     end.

Section extractor.
(** The text of the Python script (the template literal of the source). *)
Variable script : list N.
(** What the two writes do where they do not land on entries of the
    target directory: the tree they leave, and whether both returned. *)
Variable elsewhere : list N -> fsnode -> fsnode * bool.
(** [python3 script projectRoot], run on the tree as it is then.  The
    script only reads, but the interpreter looks for the modules it imports
    in the directory of the script first, that is in [.tmp-extractor] of
    the target: what the child does to the tree is up to the host and to
    the tree. *)
Variable python3 : fsnode -> proc_result.
(** [JSON.parse(out) as PythonPrompt[]]; [None] when [JSON.parse] throws. *)
Variable parse_prompts : list N -> option (list PythonExtractor.PythonPrompt).

(** [ensurePythonScript(join(projectRoot, ".tmp-extractor"))]: the tree it
    leaves, and the path of the script unless [mkdir] or [writeFile]
    threw. *)
Definition ensurePythonScript (projectRoot : list N) (fs : fsnode)
  : fsnode * option (list N) :=
  let scriptPath := path_join (path_join projectRoot tmp_extractor) script_name in
  if off_the_tree projectRoot fs then
    let '(fs', written) := elsewhere projectRoot fs in
    (fs', if written then Some scriptPath else None)
  else
    match mkdir tmp_extractor fs with
    | None => (fs, None)
    | Some fs1 =>
        match writeFile tmp_extractor script_name script fs1 with
        | None => (fs1, None)
        | Some fs2 => (fs2, Some scriptPath)
        end
    end.

(** The child is taken to start and to close: on a host without [python3]
    the process object emits an error that nothing listens to, and no
    response is built at all. *)
Definition extractPythonPrompts (projectRoot : list N) (fs : fsnode)
  : fsnode * outcome (list PythonExtractor.PythonPrompt) :=
  match ensurePythonScript projectRoot fs with
  | (fs', None) => (fs', Rejected)
  | (fs', Some _) =>
      let proc := python3 fs' in
      if negb (exit_code proc =? 0)%Z then (left_behind proc, Rejected)
      else match parse_prompts (stdout proc) with
           | Some parsed => (left_behind proc, Resolved parsed)
           | None => (left_behind proc, Rejected)
           end
  end.
End extractor.

End Extractor.

(* ===================================================================== *)
(** ** The display tree and src/lib/analyzePrompts.ts *)
(* ===================================================================== *)

Module AnalyzePrompts.
Import Js Extractor.

(** [FileTreeNode]: only a directory has children. *)
#[local] Unset Elimination Schemes.
Inductive FileTreeNode : Type :=
  | TreeDir (name path : list N) (children : list FileTreeNode)
  | TreeFile (name path : list N).
#[local] Set Elimination Schemes.

Definition node_path (n : FileTreeNode) : list N :=
  match n with TreeDir _ p _ | TreeFile _ p => p end.

(** The nodes of a tree below its root. *)
Fixpoint count_below (n : FileTreeNode) : nat :=
  match n with
  | TreeDir _ _ children => list_sum (map (fun c => S (count_below c)) children)
  | TreeFile _ _ => 0
  end.

(** A value that [JSON.parse] returns.  A number carries its value; an
    object its properties. *)
#[local] Unset Elimination Schemes.
Inductive json : Type :=
  | JNull
  | JBool (b : bool)
  | JNum (q : Qc)
  | JStr (s : list N)
  | JArr (items : list json)
  | JObj (fields : list (list N * json)).
#[local] Set Elimination Schemes.

(** [v?.name]: [None] is [undefined]. *)
Definition get_field (name : list N) (v : json) : option json :=
  match v with
  | JObj fields => snd <$> find (fun f => bool_decide (f.1 = name)) fields
  | _ => None
  end.

(** The truth value of [v?.name]. *)
Definition truthy (v : option json) : bool :=
  match v with
  | None | Some JNull => false
  | Some (JBool b) => b
  | Some (JNum q) => negb (bool_decide (q = 0%Qc))
  | Some (JStr s) => match s with [] => false | _ => true end
  | Some (JArr _) | Some (JObj _) => true
  end.

Definition isArray (v : option json) : bool :=
  match v with Some (JArr _) => true | _ => false end.

(** [flattenFileTree]. *)
Fixpoint flatten_walk (maxDepth maxItems : Z) (n : FileTreeNode) (depth : Z)
    (out : list (list N)) {struct n} : list (list N) :=
  if (Z.of_nat (length out) >=? maxItems)%Z then out
  else
    let out1 := out ++ [node_path n] in
    if (depth >=? maxDepth)%Z then out1
    else
      match n with
      | TreeDir _ _ children =>
          (fix loop (cs : list FileTreeNode) (out : list (list N)) : list (list N) :=
             match cs with
             | [] => out
             | c :: cs' =>
                 if (Z.of_nat (length out) >=? maxItems)%Z then out
                 else loop cs' (flatten_walk maxDepth maxItems c (depth + 1)%Z out)
             end) children out1
      | TreeFile _ _ => out1
      end.

Definition flattenFileTree (root : option FileTreeNode) (maxDepth maxItems : Z)
  : list (list N) :=
  match root with
  | None => []
  | Some r => flatten_walk maxDepth maxItems r 0%Z []
  end.

Record AnalysisInput : Type := {
  in_hits : list PromptKeywordScan.PromptKeywordHit;
  in_python : list PythonExtractor.PythonPrompt;
  in_fileTree : option FileTreeNode
}.

(** The request sent to the service: the credential, the model, the fixed
    instruction, and the three arrays that the user message serializes. *)
Record Request : Type := {
  rq_authorization : list N;
  rq_model : list N;
  rq_system : list N;
  rq_filePaths : list (list N);
  rq_hits : list PromptKeywordScan.PromptKeywordHit;
  rq_python : list PythonExtractor.PythonPrompt
}.

(** What comes back: [fetch] or [res.json()] throws, or the reply has at
    [choices[0].message.content] a string or nothing (the type the source
    declares for it). *)
Inductive reply : Type :=
  | NetworkError
  | Reply (content : option (list N)).

Definition system_instruction : list N :=
  join (str " ")
    [ str "You are a senior code analyst.";
      str "Given prompt artifacts and a file tree, synthesize a concise explanation of how prompts are used across the codebase.";
      str "Focus on: (1) overall prompt flow/logic, (2) where prompts are defined/assembled, (3) how messages compose together, (4) redundancies or duplicates.";
      str "Be conservative; do not hallucinate. Base claims on provided snippets and paths.";
      str "Respond as JSON with keys: {summary: string, logic: string, files: [{filePath, count, reasoning?}], redundancies: [{filePath, description}]}." ].

(** The text handed to [JSON.parse]: from the first opening brace to the
    last closing brace when the content has both, else the content. *)
Definition json_span (content : list N) : list N :=
  match indexOf content 123%N, lastIndexOf content 125%N with
  | Some firstBrace, Some lastBrace => slice content firstBrace (lastBrace + 1)
  | _, _ => content
  end.

Section analyze.
(** [process.env.OPENAI_API_KEY] and [process.env.OPENAI_MODEL]. *)
Variable OPENAI_API_KEY OPENAI_MODEL : option (list N).
(** The external service. *)
Variable service : Request -> reply.
(** [JSON.parse]; [None] when it throws. *)
Variable JSON_parse : list N -> option json.

Definition build_request (apiKey : list N) (input : AnalysisInput) : Request :=
  {| rq_authorization := str "Bearer " ++ apiKey;
     rq_model := match OPENAI_MODEL with
                 | Some (c :: m) => c :: m
                 | _ => str "gpt-4o-mini"
                 end;
     rq_system := system_instruction;
     rq_filePaths := flattenFileTree (in_fileTree input) 3%Z 400%Z;
     rq_hits :=
       map (fun h =>
              {| PromptKeywordScan.filePath := PromptKeywordScan.filePath h;
                 PromptKeywordScan.line := PromptKeywordScan.line h;
                 PromptKeywordScan.matchLabel := PromptKeywordScan.matchLabel h;
                 PromptKeywordScan.snippet := slice (PromptKeywordScan.snippet h) 0 400 |})
           (take 200 (in_hits input));
     rq_python :=
       map (fun p =>
              {| PythonExtractor.role := PythonExtractor.role p;
                 PythonExtractor.text := slice (PythonExtractor.text p) 0 500;
                 PythonExtractor.filePath := PythonExtractor.filePath p;
                 PythonExtractor.line := PythonExtractor.line p;
                 PythonExtractor.functionName :=
                   match PythonExtractor.functionName p with
                   | Some (c :: f) => Some (c :: f)
                   | _ => None
                   end;
                 PythonExtractor.callSignature := PythonExtractor.callSignature p |})
           (take 150 (in_python input)) |}.

(** The body of the [try] block from the reply on: [None] when something
    in it throws, else the value it returns. *)
Definition read_reply (r : reply) : option (option json) :=
  match r with
  | NetworkError => None
  | Reply None | Reply (Some []) => Some None
  | Reply (Some content) =>
      match JSON_parse (json_span content) with
      | None => None
      | Some parsed =>
          if negb (truthy (get_field (str "summary") parsed))
             || negb (isArray (get_field (str "files") parsed))
          then Some None
          else Some (Some parsed)
      end
  end.

(** [analyzePromptContext]: the requests made and the outcome. *)
Definition analyzePromptContext (input : AnalysisInput)
  : list Request * outcome (option json) :=
  match OPENAI_API_KEY with
  | None | Some [] => ([], Resolved None)
  | Some apiKey =>
      let request := build_request apiKey input in
      match read_reply (service request) with
      | Some result => ([request], Resolved result)
      | None => ([request], Resolved None)
      end
  end.
End analyze.

End AnalyzePrompts.

(* ===================================================================== *)
(** ** src/app/api/scan/route.ts *)
(* ===================================================================== *)

Module Route.
Import Js Fs Extractor AnalyzePrompts.

Definition ignore : gset (list N) :=
  list_to_set [ str ".git"; str "node_modules"; str "__pycache__"; str ".next";
                str ".venv"; str "venv"; str ".tmp-extractor"; str "prisma" ].

Definition mentions_prisma (p : list N) : bool := includes (toLowerCase p) (str "prisma").

(** *** [listAllFiles] *)

(** The recursive [walk] of a sub-directory, waiting for its path and the
    list [out] so far; [None] when [readdir] throws somewhere below. *)
Definition lister : Type :=
  list N -> list (list N * fsnode) -> option (list (list N * fsnode)).

(** The loop over the entries of [dir]; each comes with the walk of its
    node.  The files are pushed with the node found at their path. *)
Fixpoint list_loop (maxFiles : Z) (dir : list N)
    (entries : list (list N * fsnode * lister)) (out : list (list N * fsnode))
  : option (list (list N * fsnode)) :=
  match entries with
  | [] => Some out
  | (name, child, walk_child) :: rest =>
      if (Z.of_nat (length out) >=? maxFiles)%Z then Some out
      else if decide (name ∈ ignore) then list_loop maxFiles dir rest out
      else
        let p := path_join dir name in
        if isDirectory child then
          match walk_child p out with
          | Some out' => list_loop maxFiles dir rest out'
          | None => None
          end
        else if isFile child then list_loop maxFiles dir rest (out ++ [(p, child)])
        else list_loop maxFiles dir rest out
  end.

Fixpoint list_walk (maxFiles : Z) (n : fsnode) {struct n} : lister :=
  fun dir out =>
    match n with
    | Dir true entries =>
        list_loop maxFiles dir
          (map (fun e => (e.1, e.2, list_walk maxFiles e.2)) entries) out
    | _ => None
    end.

(** The files found, each with its node. *)
Definition list_files (fs : fsnode) (root : list N) (maxFiles : Z)
  : option (list (list N * fsnode)) :=
  list_walk maxFiles fs root [].

(** [listAllFiles(root, maxFiles)]: the paths, or [None] when it rejects. *)
Definition listAllFiles (fs : fsnode) (root : list N) (maxFiles : Z)
  : option (list (list N)) :=
  map fst <$> list_files fs root maxFiles.

(** *** [buildFileTree] *)

(** [dirPath.split("/").pop() || dirPath]. *)
Fixpoint last_segment (cur : list N) (s : list N) : list N :=
  match s with
  | [] => rev cur
  | c :: s' => if (c =? 47)%N then last_segment [] s' else last_segment (c :: cur) s'
  end.

Definition dir_name (dirPath : list N) : list N :=
  match last_segment [] dirPath with [] => dirPath | n => n end.

(** The recursive [walk] of a sub-directory, waiting for its path, its depth
    and the node count; it returns its node and the count. *)
Definition tree_walker : Type := list N -> Z -> Z -> FileTreeNode * Z.

Section buildFileTree.
(** [String.prototype.localeCompare], the order of the host's locale. *)
Variable localeCompare : list N -> list N -> Z.
Variables maxDepth maxNodes : Z.

(** [entries.sort((a, b) => a.name.localeCompare(b.name))]: a stable sort. *)
Fixpoint insert_entry {A : Type} (e : list N * A) (sorted : list (list N * A))
  : list (list N * A) :=
  match sorted with
  | [] => [e]
  | e' :: rest =>
      if (localeCompare e.1 e'.1 <=? 0)%Z then e :: sorted
      else e' :: insert_entry e rest
  end.

Definition sort_entries {A : Type} (entries : list (list N * A)) : list (list N * A) :=
  foldr insert_entry [] entries.

(** The loop over the sorted entries of [dirPath]. *)
Fixpoint tree_loop (dirPath : list N) (depth : Z)
    (entries : list (list N * (fsnode * tree_walker)))
    (children : list FileTreeNode) (nodeCount : Z) : list FileTreeNode * Z :=
  match entries with
  | [] => (children, nodeCount)
  | (name, (child, walk_child)) :: rest =>
      if (nodeCount >=? maxNodes)%Z then (children, nodeCount)
      else if decide (name ∈ ignore) then tree_loop dirPath depth rest children nodeCount
      else
        let childPath := path_join dirPath name in
        if mentions_prisma childPath then tree_loop dirPath depth rest children nodeCount
        else if isDirectory child then
          let '(sub, nodeCount') := walk_child childPath (depth + 1)%Z nodeCount in
          tree_loop dirPath depth rest (children ++ [sub]) (nodeCount' + 1)%Z
        else if isFile child then
          tree_loop dirPath depth rest (children ++ [TreeFile name childPath])
                    (nodeCount + 1)%Z
        else tree_loop dirPath depth rest children nodeCount
  end.

Fixpoint tree_walk (n : fsnode) {struct n} : tree_walker :=
  fun dirPath depth nodeCount =>
    let node := TreeDir (dir_name dirPath) dirPath [] in
    if (depth >? maxDepth)%Z || (nodeCount >=? maxNodes)%Z then (node, nodeCount)
    else
      match n with
      | Dir true entries =>
          let '(children, nodeCount') :=
            tree_loop dirPath depth
              (sort_entries (map (fun e => (e.1, (e.2, tree_walk e.2))) entries))
              [] nodeCount in
          (TreeDir (dir_name dirPath) dirPath children, nodeCount')
      | _ => (node, nodeCount)
      end.

Definition buildFileTree (fs : fsnode) (root : list N) : FileTreeNode :=
  (tree_walk fs root 1%Z 0%Z).1.
End buildFileTree.

(** *** The scan of [POST] *)

(** The loop over the files: the two lists at the end. *)
Fixpoint file_loop (files : list (list N * fsnode))
    (secretFindings : list SecretsScan.SecretFinding)
    (promptKeywordHits : list PromptKeywordScan.PromptKeywordHit)
  : list SecretsScan.SecretFinding * list PromptKeywordScan.PromptKeywordHit :=
  match files with
  | [] => (secretFindings, promptKeywordHits)
  | (file, node) :: rest =>
      if mentions_prisma file then file_loop rest secretFindings promptKeywordHits
      else
        match node with
        | File size (Some content) =>
            if (size >? 1024 * 1024)%Z then file_loop rest secretFindings promptKeywordHits
            else
              let findings := SecretsScan.scanTextForSecrets content file in
              let secretFindings' :=
                if 0 <? length findings then secretFindings ++ take 5 findings
                else secretFindings in
              let promptHits := PromptKeywordScan.scanTextForPromptKeywords content file in
              let promptKeywordHits' :=
                if 0 <? length promptHits then promptKeywordHits ++ take 10 promptHits
                else promptKeywordHits in
              if 200 <? length secretFindings' then (secretFindings', promptKeywordHits')
              else file_loop rest secretFindings' promptKeywordHits'
        | File size None =>
            (* the size is looked at before readFile throws *)
            file_loop rest secretFindings promptKeywordHits
        | _ => file_loop rest secretFindings promptKeywordHits
        end
  end.

(** What the visit of one listed file adds to the two lists. *)
Definition secret_contribution (f : list N * fsnode) : list SecretsScan.SecretFinding :=
  if mentions_prisma f.1 then []
  else match f.2 with
       | File size (Some content) =>
           if (size >? 1024 * 1024)%Z then []
           else take 5 (SecretsScan.scanTextForSecrets content f.1)
       | _ => []
       end.

Definition hit_contribution (f : list N * fsnode)
  : list PromptKeywordScan.PromptKeywordHit :=
  if mentions_prisma f.1 then []
  else match f.2 with
       | File size (Some content) =>
           if (size >? 1024 * 1024)%Z then []
           else take 10 (PromptKeywordScan.scanTextForPromptKeywords content f.1)
       | _ => []
       end.

(** A walk that leaves [out] with at most [maxFiles] entries, or as long as
    it was. *)
Definition within_budget (maxFiles : Z) (w : lister) : Prop :=
  forall dir out out', w dir out = Some out' ->
    (Z.of_nat (length out') <= Z.max (Z.of_nat (length out)) maxFiles)%Z.

(** What every [walk] of [buildFileTree] does to the node count: it adds the
    nodes it puts below its own node; it adds nothing when called beyond the
    depth or at the budget; and it ends at most [maxDepth - depth] above the
    budget, the directories open above a node being counted after it. *)
Definition tree_walker_ok (maxDepth maxNodes : Z) (w : tree_walker) : Prop :=
  forall dirPath depth nodeCount,
    let '(node, nodeCount') := w dirPath depth nodeCount in
    (nodeCount' = nodeCount + Z.of_nat (count_below node))%Z
    /\ ((depth > maxDepth \/ nodeCount >= maxNodes)%Z -> nodeCount' = nodeCount)
    /\ (nodeCount' <= Z.max nodeCount (maxNodes + Z.max 0 (maxDepth - depth)))%Z.

(** What the scan depends on outside the program. *)
Record runtime : Type := {
  rt_script : list N;
  rt_elsewhere : list N -> fsnode -> fsnode * bool;
  rt_python3 : fsnode -> proc_result;
  rt_parse_prompts : list N -> option (list PythonExtractor.PythonPrompt);
  rt_OPENAI_API_KEY : option (list N);
  rt_OPENAI_MODEL : option (list N);
  rt_service : Request -> reply;
  rt_JSON_parse : list N -> option json;
  rt_localeCompare : list N -> list N -> Z
}.

(** The body of the response. *)
Record ScanResponse : Type := {
  extracted_python : list PythonExtractor.PythonPrompt;
  secrets : list SecretsScan.SecretFinding;
  prompts_keywords : list PromptKeywordScan.PromptKeywordHit;
  prompts_analysis : option json;
  fileTree : option FileTreeNode
}.

(** [POST] from "Extract prompts" on, for a target directory that passed
    the checks: the tree it leaves and the response. *)
Definition scan (rt : runtime) (targetDir : list N) (useModel : bool) (fs : fsnode)
  : fsnode * ScanResponse :=
  let '(fs1, extraction) :=
    extractPythonPrompts (rt_script rt) (rt_elsewhere rt) (rt_python3 rt)
                         (rt_parse_prompts rt) targetDir fs in
  let pythonPrompts :=
    match extraction with Resolved parsed => parsed | Rejected => [] end in
  let '(secretFindings, promptKeywordHits) :=
    match list_files fs1 targetDir 3000%Z with
    | Some files => file_loop files [] []
    | None => ([], [])
    end in
  let modelAnalysis :=
    if useModel then
      match analyzePromptContext (rt_OPENAI_API_KEY rt) (rt_OPENAI_MODEL rt)
                                 (rt_service rt) (rt_JSON_parse rt)
              {| in_hits := promptKeywordHits; in_python := pythonPrompts;
                 in_fileTree := Some (buildFileTree (rt_localeCompare rt) 4%Z 1200%Z fs1 targetDir) |}
      with
      | (_, Resolved analysis) => analysis
      | (_, Rejected) => None
      end
    else None in
  (fs1,
   {| extracted_python := pythonPrompts;
      secrets := secretFindings;
      prompts_keywords := promptKeywordHits;
      prompts_analysis := modelAnalysis;
      fileTree := Some (buildFileTree (rt_localeCompare rt) 8%Z 5000%Z fs1 targetDir) |}).

End Route.

(* ===================================================================== *)
(** ** Concrete runs *)
(* ===================================================================== *)

Module Examples.
Import Js Fs Extractor AnalyzePrompts Route.

(** A host where the extractor process fails and no service is configured. *)
Definition failing_runtime : runtime :=
  {| rt_script := str "import ast";
     rt_elsewhere := fun _ fs => (fs, false);
     rt_python3 := fun fs => {| exit_code := 1; stdout := []; stderr := str "Traceback";
                                left_behind := fs |};
     rt_parse_prompts := fun _ => None;
     rt_OPENAI_API_KEY := None;
     rt_OPENAI_MODEL := None;
     rt_service := fun _ => NetworkError;
     rt_JSON_parse := fun _ => None;
     rt_localeCompare := fun _ _ => 0%Z |}.

(** A host whose child process removes what it finds. *)
Definition meddling_runtime : runtime :=
  {| rt_script := str "import ast";
     rt_elsewhere := fun _ fs => (fs, false);
     rt_python3 := fun _ => {| exit_code := 0; stdout := str "[]"; stderr := [];
                               left_behind := Dir true [] |};
     rt_parse_prompts := fun _ => Some [];
     rt_OPENAI_API_KEY := None;
     rt_OPENAI_MODEL := None;
     rt_service := fun _ => NetworkError;
     rt_JSON_parse := fun _ => None;
     rt_localeCompare := fun _ _ => 0%Z |}.

(** The entries of a directory. *)
Definition entries_of (n : fsnode) : list (list N * fsnode) :=
  match n with Dir _ entries => entries | _ => [] end.

(** A target whose [.tmp-extractor] is a symbolic link to its directory
    [a], and a host for it: the script is written into [a]. *)
Definition linked_tree : fsnode :=
  Dir true [(str "a", Dir true []); (tmp_extractor, Special)].

Definition linking_runtime : runtime :=
  {| rt_script := str "import ast";
     rt_elsewhere := fun _ fs =>
       match fs with
       | Dir r entries =>
           (Dir r (put_entry (str "a")
                     (Dir true [(script_name,
                                 File 10 (Some (str "import ast")))]) entries), true)
       | _ => (fs, false)
       end;
     rt_python3 := fun fs => {| exit_code := 0; stdout := str "[]"; stderr := [];
                                left_behind := fs |};
     rt_parse_prompts := fun _ => Some [];
     rt_OPENAI_API_KEY := None;
     rt_OPENAI_MODEL := None;
     rt_service := fun _ => NetworkError;
     rt_JSON_parse := fun _ => None;
     rt_localeCompare := fun _ _ => 0%Z |}.

(** A directory [a] that holds one file [f]. *)
Definition nested_tree : fsnode :=
  Dir true [(str "a", Dir true [(str "f", File 1 (Some (str "x")))])].

(** Five lines, a token on each. *)
Definition five_tokens : list N :=
  join [10%N] (replicate 5 (str "sk-abcdefghijklmnopqrstuvwx")).

(** 41 files of five tokens each. *)
Definition many_secrets_tree : fsnode :=
  Dir true
    (map (fun i => (str "f" ++ number_toString i,
                    File (Z.of_nat (length five_tokens)) (Some five_tokens)))
         (seq 0 41)).

(** The callee [client.chat.completions.create]. *)
Definition chat_create : PythonExtractor.node :=
  PythonExtractor.Attribute
    (PythonExtractor.Attribute
       (PythonExtractor.Attribute (PythonExtractor.Name (str "client")) (str "chat"))
       (str "completions"))
    (str "create").



End Examples.

(* ===================================================================== *)
(** ** src/lib/rateLimit.ts *)
(* ===================================================================== *)

(** The limiter keeps one record per client address in a map of the module.
    The map is the state here, and the time [Date.now()] returns (in
    milliseconds, an integer) is an argument of the call. *)
Module RateLimit.

Record RateRecord : Type := { count : Z; resetAtMs : Z }.

Definition RATE_LIMIT_WINDOW_MS : Z := 60000.
Definition RATE_LIMIT_MAX : Z := 4.

(** [{ ok: true }] or [{ ok: false, retryAfterSeconds }]. *)
Inductive verdict : Type :=
  | Ok
  | Limited (retryAfterSeconds : Z).

(** [Math.ceil(x / d)] of integers, [d] positive. *)
Definition ceil_div (x d : Z) : Z := (- ((- x) / d))%Z.

Definition checkRateLimit (now : Z) (ip : list N) (ipToRecord : gmap (list N) RateRecord)
  : gmap (list N) RateRecord * verdict :=
  let fresh := {| count := 1; resetAtMs := now + RATE_LIMIT_WINDOW_MS |} in
  match ipToRecord !! ip with
  | None => (<[ip := fresh]> ipToRecord, Ok)
  | Some record =>
      if (now >? resetAtMs record)%Z then (<[ip := fresh]> ipToRecord, Ok)
      else if (count record >=? RATE_LIMIT_MAX)%Z then
        (ipToRecord,
         Limited (Z.max 1 (ceil_div (resetAtMs record - now) 1000)))
      else
        (<[ip := {| count := count record + 1; resetAtMs := resetAtMs record |}]> ipToRecord,
         Ok)
  end.

(** A call: the time at which it is made and the address it is made for. *)
Definition call : Type := Z * list N.

(** The calls one after the other on the map of the module: the map at the
    end and the answer to each call. *)
Fixpoint run (calls : list call) (ipToRecord : gmap (list N) RateRecord)
  : gmap (list N) RateRecord * list verdict :=
  match calls with
  | [] => (ipToRecord, [])
  | (now, ip) :: rest =>
      let '(s1, v) := checkRateLimit now ip ipToRecord in
      let '(s2, vs) := run rest s1 in
      (s2, v :: vs)
  end.

(** The answers given to the calls made for [ip], in order. *)
Fixpoint answers_to (ip : list N) (calls : list call) (vs : list verdict) : list verdict :=
  match calls, vs with
  | (_, ip') :: calls', v :: vs' =>
      if bool_decide (ip' = ip) then v :: answers_to ip calls' vs'
      else answers_to ip calls' vs'
  | _, _ => []
  end.

(** The times of the calls for [ip] that were let through, in order. *)
Fixpoint admitted_at (ip : list N) (calls : list call) (vs : list verdict) : list Z :=
  match calls, vs with
  | (now, ip') :: calls', v :: vs' =>
      match v with
      | Ok => if bool_decide (ip' = ip) then now :: admitted_at ip calls' vs'
              else admitted_at ip calls' vs'
      | Limited _ => admitted_at ip calls' vs'
      end
  | _, _ => []
  end.

(** A clock that does not go back: the times of the calls, from [t] on. *)
Fixpoint clock_from (t : Z) (calls : list call) : Prop :=
  match calls with
  | [] => True
  | (now, _) :: rest => (t <= now)%Z /\ clock_from now rest
  end.

(** The records of a map are not ahead of the clock: every window ends at
    most 60000 ms after [t]. *)
Definition not_ahead (t : Z) (m : gmap (list N) RateRecord) : Prop :=
  forall ip record, m !! ip = Some record -> (resetAtMs record <= t + 60000)%Z.

(** In a list of times, most recent first: an entry is more than 60000 ms
    later than the entry eight places after it. *)
Definition spaced (A : list Z) : Prop :=
  forall i x y, A !! i = Some x -> A !! (i + 8) = Some y -> (x - y > 60000)%Z.

(** What the map knows of the calls let through for [ip] up to the time
    [t], the list [A] of their times (most recent first): the calls of the
    current window, at most four of an earlier window, and calls that are
    more than a window older. *)
Definition window_inv (ip : list N) (t : Z) (m : gmap (list N) RateRecord)
    (A : list Z) : Prop :=
  match m !! ip with
  | None => A = []
  | Some record =>
      exists cur prev older,
        A = cur ++ prev ++ older
        /\ Z.of_nat (length cur) = count record
        /\ (count record <= 4)%Z
        /\ length prev <= 4
        /\ (resetAtMs record - 60000 <= t)%Z
        /\ Forall (fun x => (x <= resetAtMs record)%Z) cur
        /\ Forall (fun x => (x < resetAtMs record - 60000)%Z) prev
        /\ Forall (fun x => (x + 60000 < resetAtMs record - 60000)%Z) older
  end.

End RateLimit.

(* ===================================================================== *)
(** ** src/lib/auth.ts *)
(* ===================================================================== *)

Module Auth.
Import Js.

(** What a call that may throw an [Error] gives. *)
Inductive attempt (A : Type) : Type :=
  | Return (v : A)
  | Throw (message : list N).
Arguments Return {A} v.
Arguments Throw {A} message.

Section auth.
(** The verified payload, and [jwt.verify(token, secret)] of the
    jsonwebtoken package; [None] when it throws. *)
Variable payload : Type.
Variable jwt_verify : list N -> list N -> option payload.
(** [process.env.JWT_SECRET]. *)
Variable JWT_SECRET : option (list N).

(** [requireJwtFromRequest], on what [request.headers.get] gives for the
    authorization header (the lookup does not depend on the case of the
    name). *)
Definition requireJwtFromRequest (authorization : option (list N)) : attempt payload :=
  match authorization with
  | Some authHeader =>
      if starts_with (str "Bearer ") authHeader then
        let token := trim (drop (length (str "Bearer ")) authHeader) in
        match JWT_SECRET with
        | Some (c :: secret) =>
            match jwt_verify token (c :: secret) with
            | Some p => Return p
            | None => Throw (str "Invalid JWT")
            end
        | _ => Throw (str "Server misconfigured: missing JWT_SECRET env var")
        end
      else Throw (str "Missing or invalid Authorization header")
  | None => Throw (str "Missing or invalid Authorization header")
  end.
End auth.

End Auth.

(* ===================================================================== *)
(** ** src/lib/github.ts: the name of the clone *)
(* ===================================================================== *)

Module Github.
Import Js Route.

(** [s.endsWith(p)]. *)
Definition ends_with (p s : list N) : bool := starts_with (rev p) (rev s).

(** [name.replace(/\.git$/, ...)] with the empty string: the pattern can
    match at one place only, the last four characters. *)
Definition strip_git_suffix (name : list N) : list N :=
  if ends_with (str ".git") name then take (length name - 4) name else name.

(** [repoUrl.split("/").pop()?.replace(/\.git$/, ...) || "repo"], the
    expression of both [cloneOrPullRepo] and [POST]. *)
Definition repoName (repoUrl : list N) : list N :=
  match strip_git_suffix (last_segment [] repoUrl) with
  | [] => str "repo"
  | name => name
  end.

End Github.

(* ===================================================================== *)
(** ** src/app/api/scan/route.ts: the entry of [POST] *)
(* ===================================================================== *)

Module Entry.
Import Js Regex AnalyzePrompts RateLimit Auth Github.

(** [s.split(sep)[0]]: the text before the first separator. *)
Fixpoint first_piece (sep : N) (s : list N) : list N :=
  match s with
  | [] => []
  | c :: s' => if (c =? sep)%N then [] else c :: first_piece sep s'
  end.

(** [getClientIp], on what [req.headers.get] gives for the two headers. *)
Definition getClientIp (x_forwarded_for x_real_ip : option (list N)) : list N :=
  match x_forwarded_for with
  | Some (c :: xff) =>
      match trim (first_piece 44 (c :: xff)) with
      | [] => str "unknown"
      | ip => ip
      end
  | _ =>
      match x_real_ip with
      | Some (c :: realIp) => c :: realIp
      | _ => str "local"
      end
  end.

(** *** [bodySchema] *)

(** The first pattern of the refinement of [repoUrl], after its [^]:
    [(https:\/\/|git@).+\.(git)?]. *)
Definition git_url : regex :=
  seq [Group 1 (Or (word "https://") (word "git@")); plus dot; Lit 46;
       opt (Group 2 (word "git"))].

(** The second one, between its [^] and its [$].  The source escapes the
    opening bracket of both classes, so that the pattern asks for a
    bracket, a word character, any character, a dash and closing brackets:
    [(https:\/\/github\.com\/)\[\w.-]+\/\[\w.-]+(\.git)?]. *)
Definition github_url : regex :=
  seq [Group 1 (word "https://github.com/");
       Lit 91; CharSet is_word; dot; Lit 45; plus (Lit 93); Lit 47;
       Lit 91; CharSet is_word; dot; Lit 45; plus (Lit 93);
       opt (Group 2 (word ".git"))].

(** [test] of a pattern that starts with [^] (no [m] flag): the pattern is
    tried at index 0 only. *)
Definition test_at_start (r : regex) (s : list N) : bool :=
  match rmatches false r (MState [] s []) with [] => false | _ :: _ => true end.

(** [test] of a pattern between [^] and [$]: some way of matching from
    index 0 ends at the end of the input. *)
Definition test_whole (r : regex) (s : list N) : bool :=
  existsb (fun y => match after y with [] => true | _ :: _ => false end)
          (rmatches false r (MState [] s [])).

Definition repoUrl_refinement (url : list N) : bool :=
  test_at_start git_url url || test_whole github_url url.

(** The parsed body. *)
Record Body : Type := {
  repoUrl : option (list N);
  localPath : option (list N);
  branch : list N;
  useModel : bool
}.

(** [z.string().min(lo).max(hi).refine(ok).optional()] on the property
    [v] of the input ([None]: the property is missing).  The outer [None]
    is a validation error, an inner [None] is [undefined]. *)
Definition optional_string (lo : nat) (hi : option nat) (ok : list N -> bool)
    (v : option json) : option (option (list N)) :=
  match v with
  | None => Some None
  | Some (JStr s) =>
      if (lo <=? length s)
         && match hi with Some h => length s <=? h | None => true end
         && ok s
      then Some (Some s) else None
  | Some _ => None
  end.

(** [z.boolean().optional()]. *)
Definition optional_boolean (v : option json) : option (option bool) :=
  match v with
  | None => Some None
  | Some (JBool b) => Some (Some b)
  | Some _ => None
  end.

(** The truth value of [a || b] for two optional strings. *)
Definition given (s : option (list N)) : bool :=
  match s with Some (_ :: _) => true | _ => false end.

(** [bodySchema.parse(json)]; [None] when it throws. *)
Definition bodySchema_parse (data : json) : option Body :=
  match data with
  | JObj _ =>
      repoUrl ← optional_string 1 None repoUrl_refinement (get_field (str "repoUrl") data);
      localPath ← optional_string 1 None (fun _ => true) (get_field (str "localPath") data);
      branch ← optional_string 1 (Some 100) (fun _ => true) (get_field (str "branch") data);
      useModel ← optional_boolean (get_field (str "useModel") data);
      if given repoUrl || given localPath then
        Some {| repoUrl := repoUrl; localPath := localPath;
                branch := default (str "main") branch;
                useModel := default false useModel |}
      else None
  | _ => None
  end.

(** *** [POST], up to the choice of the target directory *)

(** The request: the three headers that are read, and what [req.json()]
    gives ([None] when it throws). *)
Record ScanRequest : Type := {
  h_authorization : option (list N);
  h_x_forwarded_for : option (list N);
  h_x_real_ip : option (list N);
  json_body : option json
}.

(** How the entry ends: one of the three early responses (status 401 with
    the message, 429 with the [retry-after] header, 400), or the parsed
    body with which [POST] goes on. *)
Inductive entry : Type :=
  | Unauthorized (message : list N)
  | RateLimited (retryAfterSeconds : Z)
  | InvalidBody
  | Proceed (body : Body).

Section entry.
Variable payload : Type.
Variable jwt_verify : list N -> list N -> option payload.
Variable JWT_SECRET : option (list N).

Definition POST_entry (now : Z) (req : ScanRequest) (ipToRecord : gmap (list N) RateRecord)
  : gmap (list N) RateRecord * entry :=
  match requireJwtFromRequest payload jwt_verify JWT_SECRET (h_authorization req) with
  | Throw message => (ipToRecord, Unauthorized message)
  | Return _ =>
      let ip := getClientIp (h_x_forwarded_for req) (h_x_real_ip req) in
      match checkRateLimit now ip ipToRecord with
      | (ipToRecord', Limited retryAfterSeconds) =>
          (ipToRecord', RateLimited retryAfterSeconds)
      | (ipToRecord', Ok) =>
          match json_body req ≫= bodySchema_parse with
          | None => (ipToRecord', InvalidBody)
          | Some body => (ipToRecord', Proceed body)
          end
      end
  end.
End entry.

(** The branches of "Determine target directory". *)
Inductive target : Type :=
  | UseLocalPath (targetDir : list N)
  | CloneInto (repoUrl branch repoName : list N)
  | NoTarget.

Definition choose_target (body : Body) : target :=
  match localPath body with
  | Some (c :: p) => UseLocalPath (c :: p)
  | _ =>
      match repoUrl body with
      | Some (c :: u) => CloneInto (c :: u) (branch body) (repoName (c :: u))
      | _ => NoTarget
      end
  end.

End Entry.

(* ===================================================================== *)
(** ** Notions used to state the properties *)
(* ===================================================================== *)

Module Notions.
Import Js Fs AnalyzePrompts Route.

(** A string with no white space at either end. *)
Definition trimmed (t : list N) : Prop :=
  trim_start t = t /\ trim_start (rev t) = rev t.

(** Every white-space character is a space (code unit 32), and no two of
    them stand side by side; [prev] tells that a space stands just before. *)
Fixpoint single_spaced (prev : bool) (s : list N) : bool :=
  match s with
  | [] => true
  | c :: s' =>
      if is_space c then (c =? 32)%N && negb prev && single_spaced true s'
      else single_spaced false s'
  end.

(** [w] stands somewhere in [s]. *)
Definition piece_of (s w : list N) : Prop := exists pre post, s = pre ++ w ++ post.

(** A matcher state on the subject [s], whose captures are pieces of it. *)
Definition within (s : list N) (x : Regex.mstate) : Prop :=
  rev (Regex.before x) ++ Regex.after x = s
  /\ Forall (fun c : nat * list N => piece_of s c.2) (Regex.captures x).

Definition no_line_terminator (w : list N) : Prop :=
  Forall (fun c => negb (is_line_terminator c) = true) w.

(** [reach fs names n]: going down from [fs] through the entries called
    [names], all but the last being directories that can be read, one
    arrives at [n]. *)
Inductive reach : fsnode -> list (list N) -> fsnode -> Prop :=
  | reach_here n : reach n [] n
  | reach_down entries name child names n :
      (name, child) ∈ entries ->
      reach child names n ->
      reach (Dir true entries) (name :: names) n.

(** The path of the entry reached from [root] through [names]. *)
Definition path_of (root : list N) (names : list (list N)) : list N :=
  foldl path_join root names.

(** A file somewhere below the directory [n] whose path is [dir], with the
    path it has, and no ignored name on the way to it. *)
Definition listed_from (n : fsnode) (dir : list N) (e : list N * fsnode) : Prop :=
  exists names,
    names <> [] /\ e.1 = path_of dir names /\ reach n names e.2
    /\ isFile e.2 = true /\ Forall (fun name => name ∉ ignore) names.

(** A walk of [listAllFiles] that adds to [out] files below its directory
    only, and all of them when the budget is not reached. *)
Definition exact_lister (maxFiles : Z) (child : fsnode) (w : lister) : Prop :=
  forall dir out out', w dir out = Some out' ->
    exists added,
      out' = out ++ added
      /\ Forall (listed_from child dir) added
      /\ ((Z.of_nat (length out') < maxFiles)%Z ->
          forall e, listed_from child dir e -> e ∈ added).

(** The number of levels below a node of the display tree. *)
Fixpoint height (n : FileTreeNode) : nat :=
  match n with
  | TreeDir _ _ children => foldr (fun c h => Nat.max (S (height c)) h) 0 children
  | TreeFile _ _ => 0
  end.

(** The name of a node of the display tree. *)
Definition node_name (n : FileTreeNode) : list N :=
  match n with TreeDir name _ _ | TreeFile name _ => name end.

(** A dictionary display of the Python source whose keys and values are
    all constants. *)
Definition constant (n : PythonExtractor.node) : bool :=
  match n with
  | PythonExtractor.ConstantStr _ | PythonExtractor.ConstantOther => true
  | _ => false
  end.

Definition literal_dict (n : PythonExtractor.node) : bool :=
  match n with
  | PythonExtractor.Dict keys values =>
      forallb (fun k => match k with Some k => constant k | None => false end) keys
      && forallb constant values
  | _ => false
  end.

(** A walk of [buildFileTree] that returns a node with the path it was
    given, named after the last segment of it, and no deeper than the depth
    left. *)
Definition tree_walker_shape (maxDepth : Z) (w : tree_walker) : Prop :=
  forall dirPath depth nodeCount,
    node_path (w dirPath depth nodeCount).1 = dirPath
    /\ node_name (w dirPath depth nodeCount).1 = dir_name dirPath
    /\ (Z.of_nat (height (w dirPath depth nodeCount).1)
        <= Z.max 0 (maxDepth - depth + 1))%Z.




(** The display tree [n] shows what is in [fs]: a file node stands for a
    file and a directory node for a directory; every child of a directory
    node stands for an entry of that directory, has the name of the entry
    and the path that [join] makes of the path of its parent and that
    name; and neither is the name an ignored one nor does the path mention
    prisma. *)
Fixpoint shows (n : FileTreeNode) (fs : fsnode) {struct n} : Prop :=
  match n with
  | TreeFile _ _ => isFile fs = true
  | TreeDir _ path children =>
      isDirectory fs = true
      /\ foldr (fun c rest =>
                  (exists name child entries,
                     fs = Dir true entries /\ (name, child) ∈ entries
                     /\ (name ∉ ignore)
                     /\ node_name c = name
                     /\ node_path c = path_join path name
                     /\ mentions_prisma (node_path c) = false
                     /\ shows c child)
                  /\ rest)
               True children
  end.

(** An entry of [entries] with a proper name and a walk that, for a
    directory, returns a node with the path it was given, named after the
    last segment of it, that shows the directory. *)
Definition shown_entry (entries : list (list N * fsnode))
    (e : list N * (fsnode * tree_walker)) : Prop :=
  (e.1, e.2.1) ∈ entries
  /\ is_proper_name e.1 = true
  /\ (isDirectory e.2.1 = true ->
      forall dirPath depth nodeCount,
        node_path (e.2.2 dirPath depth nodeCount).1 = dirPath
        /\ node_name (e.2.2 dirPath depth nodeCount).1 = dir_name dirPath
        /\ shows (e.2.2 dirPath depth nodeCount).1 e.2.1).

(** The paths of a display tree in the order of a depth-first walk, down to
    the depth [maxDepth]. *)
Fixpoint preorder (maxDepth : Z) (n : FileTreeNode) (depth : Z) : list (list N) :=
  let below :=
    if (depth >=? maxDepth)%Z then []
    else match n with
         | TreeDir _ _ children =>
             flat_map (fun c => preorder maxDepth c (depth + 1)%Z) children
         | TreeFile _ _ => []
         end in
  node_path n :: below.

End Notions.

(* ===================================================================== *)
(** ** Concrete requests and calls *)
(* ===================================================================== *)

Module Samples.
Import Js AnalyzePrompts RateLimit Entry.
Local Open Scope Z_scope.

(** One client calls five times in a window, another once in between. *)
Definition burst_calls : list call :=
  [(1, str "10.0.0.7"); (2, str "10.0.0.9"); (3, str "10.0.0.7");
   (59999, str "10.0.0.7"); (60000, str "10.0.0.7")].

(** Five calls of one client within two seconds. *)
Definition hasty_calls : list call :=
  [(0, str "a"); (10, str "a"); (20, str "a"); (30, str "a"); (1500, str "a")].

(** Four calls at the end of a window, four at the start of the next, and
    one a minute later. *)
Definition two_window_calls : list call :=
  [(0, str "a"); (59998, str "a"); (59999, str "a"); (60000, str "a");
   (60001, str "a"); (60002, str "a"); (60003, str "a"); (60004, str "a");
   (60005, str "a"); (120002, str "a")].

(** A map in which the window of one client is used up. *)
Definition used_up : gmap (list N) RateRecord :=
  {[ str "10.0.0.7" := {| count := 4; resetAtMs := 60000 |} ]}.

(** An order of the names by their length. *)
Definition by_length (a b : list N) : Z := Z.of_nat (length a) - Z.of_nat (length b).

(** A host on which the extractor runs and finds nothing. *)
Definition quiet_runtime : Route.runtime :=
  {| Route.rt_script := str "import ast";
     Route.rt_elsewhere := fun _ fs => (fs, false);
     Route.rt_python3 := fun fs =>
       {| Extractor.exit_code := 0; Extractor.stdout := str "[]"; Extractor.stderr := [];
          Extractor.left_behind := fs |};
     Route.rt_parse_prompts := fun _ => Some [];
     Route.rt_OPENAI_API_KEY := None;
     Route.rt_OPENAI_MODEL := None;
     Route.rt_service := fun _ => NetworkError;
     Route.rt_JSON_parse := fun _ => None;
     Route.rt_localeCompare := fun _ _ => 0 |}.

(** A directory with one file that holds a token. *)
Definition leaky_tree : Fs.fsnode :=
  Fs.Dir true
    [(str "env.txt",
      Fs.File 27 (Some (str "sk-abcdefghijklmnopqrstuvwx")))].

(** The dictionary [{"role": "system", "content": "Be concise."}] of a
    Python source, and a call of [client.chat.completions.create] that is
    given a list with it, once by keyword and once by position. *)
Definition system_message : PythonExtractor.node :=
  PythonExtractor.Dict
    [ Some (PythonExtractor.ConstantStr (str "role"));
      Some (PythonExtractor.ConstantStr (str "content")) ]
    [ PythonExtractor.ConstantStr (str "system");
      PythonExtractor.ConstantStr (str "Be concise.") ].

Definition keyword_call : PythonExtractor.node :=
  PythonExtractor.Call 7 Examples.chat_create []
    [ (Some (str "messages"), PythonExtractor.List_ [system_message]) ].

Definition positional_call : PythonExtractor.node :=
  PythonExtractor.Call 7 Examples.chat_create
    [ PythonExtractor.List_ [system_message] ] [].

(** The body of a request for a clone, and what the schema makes of it. *)
Definition clone_request_body : json :=
  JObj [(str "repoUrl", JStr (str "https://github.com/acme/tools.git"));
        (str "useModel", JBool true)].

Definition parsed_clone_request : Body :=
  {| repoUrl := Some (str "https://github.com/acme/tools.git");
     localPath := None;
     branch := str "main";
     useModel := true |}.

End Samples.

(* ===================================================================== *)
(** * Properties *)
(* ===================================================================== *)

Module RegexFacts.
Import Js Regex.

Lemma extends_refl x : extends x x.
Proof. by exists []. Qed.

Lemma extends_trans x y z : extends x y -> extends y z -> extends x z.
Proof.
  intros (w1 & Ha1 & Hb1) (w2 & Ha2 & Hb2). exists (w1 ++ w2).
  rewrite Ha1, Ha2, Hb2, Hb1, rev_app_distr, !app_assoc. done.
Qed.

Lemma extends_step x a rest : after x = a :: rest -> extends x (step x a rest).
Proof. intros H. exists [a]. by rewrite H. Qed.

Lemma extends_length x y : extends x y -> length (after y) <= length (after x).
Proof. intros (w & -> & _). rewrite length_app. lia. Qed.

Lemma extends_consumed x y w :
  after x = w ++ after y -> before y = rev w ++ before x -> consumed x y = w.
Proof.
  intros _ Hb. unfold consumed. rewrite Hb, length_app, length_rev.
  replace (length w + length (before x) - length (before x)) with (length (rev w))
    by (rewrite length_rev; lia).
  by rewrite take_app_length, rev_involutive.
Qed.

Lemma extends_captures x y caps :
  extends x y -> extends x (MState (before y) (after y) caps).
Proof. intros (w & ? & ?). by exists w. Qed.

Lemma match_literal_extends ic w : forall x y,
  match_literal ic w x = Some y -> extends x y.
Proof.
  induction w as [|c w IH]; simpl; intros x y H.
  - injection H as <-. apply extends_refl.
  - destruct (after x) as [|a rest] eqn:Ha; [done|].
    destruct (char_eq ic a c); [|done].
    eapply extends_trans; [by apply extends_step|by apply IH].
Qed.

Section rep.
Context (m : mstate -> list mstate) (greedy : bool).
Hypothesis m_extends : forall x y, In y (m x) -> extends x y.

Lemma rep_extends fuel : forall mn mx x y,
  In y (rep m greedy fuel mn mx x) -> extends x y.
Proof using m_extends.
  induction fuel as [|fuel IH]; simpl; intros mn mx x y Hy; [done|].
  assert (Hmore : In y (flat_map
            (fun y0 => if (mn =? 0) && (length (after y0) =? length (after x))
                       then [] else rep m greedy fuel (pred mn) (pred <$> mx) y0)
            (m x)) -> extends x y).
  { intros (y0 & Hy0 & Hin)%in_flat_map.
    destruct (_ && _); [done|].
    eapply extends_trans; [by apply m_extends|by eapply IH]. }
  assert (Hx : In y [x] -> extends x y).
  { intros [<-|[]]. apply extends_refl. }
  destruct mx as [[|k]|]; [by apply Hx|..];
    (destruct (negb (mn =? 0)); [by apply Hmore|];
     destruct greedy; [apply in_app_or in Hy as [?|?]; auto|];
     destruct Hy as [<-|?]; [apply extends_refl|auto]).
Qed.

Hypothesis m_progress : forall x y, In y (m x) -> length (after y) < length (after x).

Lemma rep_progress fuel mn mx x y :
  mn <> 0 -> match mx with Some k => mn <= k | None => True end ->
  In y (rep m greedy fuel mn mx x) -> length (after y) < length (after x).
Proof using m_extends m_progress.
  destruct fuel as [|fuel]; simpl; intros Hmn Hmx Hy; [done|].
  destruct mx as [[|k]|]; [lia|..];
    (destruct (mn =? 0) eqn:E; [apply Nat.eqb_eq in E; lia|]; simpl in Hy;
     apply in_flat_map in Hy as (y0 & Hy0 & Hin);
     apply m_progress in Hy0; apply rep_extends, extends_length in Hin; lia).
Qed.
End rep.

(** The fuel given to [rep] by [rmatches] is enough: more changes nothing. *)
Lemma rep_fuel_enough m greedy :
  (forall x y, In y (m x) -> extends x y) ->
  forall fuel1 fuel2 mn mx x,
    mn + length (after x) < fuel1 -> mn + length (after x) < fuel2 ->
    rep m greedy fuel1 mn mx x = rep m greedy fuel2 mn mx x.
Proof.
  intros Hm. induction fuel1 as [|fuel1 IH]; intros fuel2 mn mx x H1 H2; [lia|].
  destruct fuel2 as [|fuel2]; [lia|]. simpl.
  assert (Hmore :
    flat_map (fun y => if (mn =? 0) && (length (after y) =? length (after x)) then []
                       else rep m greedy fuel1 (pred mn) (pred <$> mx) y) (m x)
    = flat_map (fun y => if (mn =? 0) && (length (after y) =? length (after x)) then []
                         else rep m greedy fuel2 (pred mn) (pred <$> mx) y) (m x)).
  { assert (Hall : Forall (fun y => extends x y) (m x)).
    { apply Forall_forall. intros y Hy. by apply Hm, list_elem_of_In. }
    induction Hall as [|y ys Hy _ IHys]; [done|]. simpl. rewrite IHys. f_equal.
    apply extends_length in Hy.
    destruct (mn =? 0) eqn:Emn, (length (after y) =? length (after x)) eqn:El; simpl;
      try done.
    - apply Nat.eqb_eq in Emn. apply Nat.eqb_neq in El. apply IH; lia.
    - apply Nat.eqb_neq in Emn. apply IH; lia.
    - apply Nat.eqb_neq in Emn. apply IH; lia. }
  by rewrite Hmore.
Qed.

Lemma rmatches_extends ic r : forall x y, In y (rmatches ic r x) -> extends x y.
Proof.
  induction r as [|c|p|r1 IH1 r2 IH2|r1 IH1 r2 IH2|mn mx g r IH| |n r IH|n];
    intros x y Hy; cbn [rmatches] in Hy.
  - destruct Hy as [<-|[]]. apply extends_refl.
  - destruct (after x) as [|a rest] eqn:Ha; [done|].
    destruct (char_eq ic a c); [|done]. destruct Hy as [<-|[]].
    by apply extends_step.
  - destruct (after x) as [|a rest] eqn:Ha; [done|].
    destruct (p a); [|done]. destruct Hy as [<-|[]].
    by apply extends_step.
  - apply in_flat_map in Hy as (y0 & Hy0 & Hin).
    eapply extends_trans; eauto.
  - apply in_app_or in Hy as [?|?]; auto.
  - eapply (rep_extends (rmatches ic r) g IH); exact Hy.
  - destruct (xorb _ _); [|done]. destruct Hy as [<-|[]]. apply extends_refl.
  - apply in_map_iff in Hy as (y0 & <- & Hy0).
    apply extends_captures. auto.
  - destruct (capture x n) as [w|].
    + destruct (match_literal ic w x) as [y'|] eqn:E; [|done].
      destruct Hy as [<-|[]]. by eapply match_literal_extends.
    + destruct Hy as [<-|[]]. apply extends_refl.
Qed.

Lemma rmatches_progress ic r : nonempty r = true ->
  forall x y, In y (rmatches ic r x) -> length (after y) < length (after x).
Proof.
  induction r as [|c|p|r1 IH1 r2 IH2|r1 IH1 r2 IH2|mn mx g r IH| |n r IH|n];
    cbn [nonempty]; intros Hne x y Hy; cbn [rmatches] in Hy; try done.
  - destruct (after x) as [|a rest] eqn:Ha; [done|].
    destruct (char_eq ic a c); [|done]. destruct Hy as [<-|[]]. simpl. lia.
  - destruct (after x) as [|a rest] eqn:Ha; [done|].
    destruct (p a); [|done]. destruct Hy as [<-|[]]. simpl. lia.
  - apply in_flat_map in Hy as (y0 & Hy0 & Hin).
    pose proof (extends_length _ _ (rmatches_extends _ _ _ _ Hy0)).
    pose proof (extends_length _ _ (rmatches_extends _ _ _ _ Hin)).
    apply orb_true_iff in Hne as [Hne|Hne].
    + specialize (IH1 Hne _ _ Hy0). lia.
    + specialize (IH2 Hne _ _ Hin). lia.
  - apply andb_true_iff in Hne as [Hn1 Hn2].
    apply in_app_or in Hy as [?|?]; eauto.
  - apply andb_true_iff in Hne as [[Hmn Hmx]%andb_true_iff Hne].
    eapply rep_progress; [apply rmatches_extends|by apply IH| | |by apply Hy].
    + apply negb_true_iff, Nat.eqb_neq in Hmn. done.
    + destruct mx; [by apply Nat.leb_le|done].
  - apply in_map_iff in Hy as (y0 & <- & Hy0). simpl. eauto.
Qed.


(** *** [exec] by positions of the subject string *)

Lemma at_pos_next (s : list N) k a rest :
  drop k s = a :: rest ->
  a :: rev (take k s) = rev (take (S k) s) /\ rest = drop (S k) s /\ k < length s.
Proof.
  intros H.
  assert (Hk : s !! k = Some a).
  { rewrite <- (Nat.add_0_r k), <- lookup_drop, H. done. }
  rewrite (take_S_r _ _ _ Hk), rev_app_distr. simpl.
  rewrite (drop_S _ _ _ Hk) in H. injection H as <-.
  split; [done|]. split; [done|]. by eapply lookup_lt_Some.
Qed.

Lemma at_pos_extends s k y :
  extends (at_pos s k) y -> k <= length s ->
  let w := consumed (at_pos s k) y in
  before y = rev (take (k + length w) s) /\ after y = drop (k + length w) s
  /\ k + length w <= length s /\ slice s k (k + length w) = w.
Proof.
  intros (w & Ha & Hb) Hk. simpl in Ha, Hb.
  rewrite (extends_consumed _ _ w) by done. cbv zeta.
  assert (Hs : s = take k s ++ w ++ after y) by (by rewrite <- Ha, take_drop).
  assert (Hlen : length (take k s) = k) by (rewrite length_take; lia).
  assert (Htk : take (k + length w) s = take k s ++ w).
  { rewrite Hs at 1. rewrite app_assoc, take_app_length'; [done|].
    rewrite length_app. lia. }
  split; [by rewrite Htk, rev_app_distr|].
  split.
  { rewrite Hs at 1. rewrite app_assoc, drop_app_length'; [done|].
    rewrite length_app. lia. }
  split.
  { apply (f_equal length) in Ha. rewrite length_drop, length_app in Ha. lia. }
  unfold slice. rewrite Ha. replace (k + length w - k) with (length w) by lia.
  by rewrite take_app_length.
Qed.

Lemma exec_from_pos_Some ic r s n : forall p m y,
  length s - p = n -> p <= length s ->
  exec_from ic r (rev (take p s)) (drop p s) = Some (m, y) ->
  exists k, p <= k <= length s /\ m_index m = k
    /\ head (rmatches ic r (at_pos s k)) = Some y
    /\ m_text m = consumed (at_pos s k) y /\ m_groups m = captures y
    /\ (forall j, p <= j < k -> rmatches ic r (at_pos s j) = []).
Proof.
  induction n as [|n IH]; intros p m y Hn Hp H.
  - destruct (drop p s) as [|a rest] eqn:Hd.
    + simpl in H.
      assert (Hat : at_pos s p = MState (rev (take p s)) [] []) by (unfold at_pos; by rewrite Hd).
      rewrite <- Hat in H.
      destruct (rmatches ic r (at_pos s p)) as [|y0 ys] eqn:E; [done|].
      injection H as <- <-. exists p. simpl.
      rewrite length_rev, length_take, E.
      repeat split; try done; try (intros; lia).
    + apply at_pos_next in Hd as (_ & _ & ?). lia.
  - destruct (drop p s) as [|a rest] eqn:Hd.
    { apply (f_equal length) in Hd. rewrite length_drop in Hd. simpl in Hd. lia. }
    simpl in H.
    assert (Hat : at_pos s p = MState (rev (take p s)) (a :: rest) [])
      by (unfold at_pos; by rewrite Hd).
    rewrite <- Hat in H.
    destruct (rmatches ic r (at_pos s p)) as [|y0 ys] eqn:E.
    + apply at_pos_next in Hd as (Hb & -> & Hlt). rewrite Hb in H.
      apply IH in H as (k & Hk & Hi & Hh & Ht & Hg & Hno); [|lia..].
      exists k. repeat split; try done; try lia.
      intros j Hj. destruct (decide (j = p)) as [->|]; [done|]. apply Hno. lia.
    + injection H as <- <-. exists p. simpl.
      rewrite length_rev, length_take, E.
      repeat split; try done; try (intros; lia).
Qed.

Lemma at_pos_ge (s : list N) j : length s <= j -> at_pos s j = at_pos s (length s).
Proof.
  intros H. unfold at_pos.
  by rewrite (take_ge s j), (drop_ge s j), firstn_all, drop_all by lia.
Qed.

Lemma exec_from_pos_None ic r s n : forall p,
  length s - p = n -> p <= length s ->
  exec_from ic r (rev (take p s)) (drop p s) = None ->
  forall j, p <= j -> rmatches ic r (at_pos s j) = [].
Proof.
  induction n as [|n IH]; intros p Hn Hp H j Hj.
  - assert (p = length s) as -> by lia.
    rewrite (at_pos_ge s j) by done.
    rewrite drop_all in H. simpl in H. unfold at_pos. rewrite drop_all.
    by destruct (rmatches _ _ _).
  - destruct (drop p s) as [|a rest] eqn:Hd.
    { apply (f_equal length) in Hd. rewrite length_drop in Hd. simpl in Hd. lia. }
    simpl in H.
    assert (Hat : at_pos s p = MState (rev (take p s)) (a :: rest) [])
      by (unfold at_pos; by rewrite Hd).
    rewrite <- Hat in H.
    destruct (rmatches ic r (at_pos s p)) as [|y0 ys] eqn:E; [|done].
    apply at_pos_next in Hd as (Hb & -> & Hlt). rewrite Hb in H.
    destruct (decide (j = p)) as [->|]; [done|].
    eapply IH; [| |exact H|]; lia.
Qed.

Lemma match_at_Some ic r s k w :
  match_at ic r s k = Some w <->
  exists y, head (rmatches ic r (at_pos s k)) = Some y /\ w = consumed (at_pos s k) y.
Proof.
  unfold match_at. destruct (head _) as [y|]; simpl; split.
  - intros [= <-]. by exists y.
  - intros (y' & [= <-] & ->). done.
  - done.
  - by intros (? & ? & _).
Qed.

(** What the [exec] loop returns: every match reported is what the pattern
    takes at its index, a non-empty slice of the subject; and every index at
    which the pattern matches lies within a reported match. *)
Lemma exec_loop_pos ic r s : nonempty r = true -> forall fuel p ms,
  p <= length s ->
  exec_loop fuel ic r (rev (take p s)) (drop p s) = Some ms ->
  (forall m, In m ms ->
     p <= m_index m /\ match_at ic r s (m_index m) = Some (m_text m)
     /\ m_text m <> [] /\ m_index m + length (m_text m) <= length s
     /\ slice s (m_index m) (m_index m + length (m_text m)) = m_text m)
  /\ (forall j w, p <= j -> match_at ic r s j = Some w ->
        exists m, In m ms /\ m_index m <= j < m_index m + length (m_text m)).
Proof.
  intros Hne. induction fuel as [|fuel IH]; intros p ms Hp H; [done|].
  simpl in H.
  destruct (exec_from _ _ _ _) as [[m y]|] eqn:E.
  - eapply exec_from_pos_Some in E as (k & Hk & Hi & Hh & Ht & Hg & Hno); [|done..].
    assert (Hin : In y (rmatches ic r (at_pos s k))).
    { destruct (rmatches ic r (at_pos s k)); [done|]. injection Hh as ->. by left. }
    pose proof (rmatches_extends _ _ _ _ Hin) as Hext.
    pose proof (rmatches_progress _ _ Hne _ _ Hin) as Hprog.
    destruct (at_pos_extends _ _ _ Hext ltac:(lia)) as (Hb & Ha & Hle & Hsl).
    rewrite <- Ht in Hb, Ha, Hle, Hsl.
    assert (Hw : m_text m <> []).
    { intros Hnil. rewrite Ha, Hnil in Hprog. simpl in Hprog.
      rewrite Nat.add_0_r in Hprog. lia. }
    destruct (length (after y) <? length (drop p s)); [|done].
    destruct (exec_loop fuel _ _ _ _) as [ms'|] eqn:E'; [|done].
    injection H as <-. rewrite Hb, Ha in E'.
    apply IH in E' as [IH1 IH2]; [|done].
    split.
    + intros m' [<-|Hm'].
      * rewrite Hi. repeat split; try done; try lia.
        apply match_at_Some. eauto.
      * destruct (IH1 _ Hm') as (? & ? & ? & ? & ?).
        repeat split; try done; lia.
    + intros j w Hj Hm.
      destruct (decide (j < k)).
      { apply match_at_Some in Hm as (? & Hm & _). rewrite Hno in Hm by lia. done. }
      destruct (decide (j < k + length (m_text m))).
      { exists m. split; [by left|lia]. }
      destruct (IH2 j w ltac:(lia) Hm) as (m' & ? & ?).
      exists m'. split; [by right|done].
  - injection H as <-. split; [done|].
    intros j w Hj Hm.
    apply match_at_Some in Hm as (? & Hm & _).
    erewrite exec_from_pos_None in Hm; [done|reflexivity|done|done|done].
Qed.

Lemma exec_loop_returns ic r : nonempty r = true -> forall fuel bef aft,
  length aft < fuel -> is_Some (exec_loop fuel ic r bef aft).
Proof.
  intros Hne. induction fuel as [|fuel IH]; intros bef aft Hf; [lia|].
  simpl. destruct (exec_from _ _ _ _) as [[m y]|] eqn:E; [|done].
  destruct (length (after y) <? length aft) eqn:Hlt.
  - apply Nat.ltb_lt in Hlt.
    destruct (IH (before y) (after y)) as [ms ->]; [lia|]. done.
  - exfalso. apply Nat.ltb_ge in Hlt.
    assert (exists x, In y (rmatches ic r x) /\ length (after x) <= length aft)
      as (x & Hin & Hx).
    { clear Hlt Hf IH. revert bef E. induction aft as [|a aft IHa]; intros bef E; simpl in E.
      - destruct (rmatches ic r _) as [|y0 ?] eqn:Er; [done|].
        injection E as _ <-. eexists. split; [rewrite Er; by left|]. done.
      - destruct (rmatches ic r _) as [|y0 ?] eqn:Er.
        + destruct (IHa _ E) as (x & ? & ?). exists x. split; [done|]. simpl. lia.
        + injection E as _ <-. eexists. split; [rewrite Er; by left|]. done. }
    apply (rmatches_progress _ _ Hne) in Hin. lia.
Qed.

(** The loop of a pattern that cannot match the empty string returns. *)
Lemma exec_all_opt_nonempty ic r s :
  nonempty r = true -> exec_all_opt ic r s = Some (exec_all ic r s).
Proof.
  intros Hne. unfold exec_all.
  destruct (exec_loop_returns ic r Hne (S (length s)) [] s) as [ms Hms]; [lia|].
  unfold exec_all_opt. by rewrite Hms.
Qed.

Lemma exec_all_spec ic r s : nonempty r = true ->
  (forall m, In m (exec_all ic r s) ->
     match_at ic r s (m_index m) = Some (m_text m)
     /\ m_text m <> [] /\ m_index m + length (m_text m) <= length s
     /\ slice s (m_index m) (m_index m + length (m_text m)) = m_text m)
  /\ (forall j w, match_at ic r s j = Some w ->
        exists m, In m (exec_all ic r s)
                  /\ m_index m <= j < m_index m + length (m_text m)).
Proof.
  intros Hne. pose proof (exec_all_opt_nonempty ic r s Hne) as H.
  unfold exec_all_opt in H.
  change s with (drop 0 s) in H at 2. change [] with (rev (take 0 s)) in H.
  apply (exec_loop_pos ic r s Hne) in H as [H1 H2]; [|lia].
  split.
  - intros m Hm. destruct (H1 m Hm) as (_ & ?). done.
  - intros j w Hj. apply (H2 j w); [lia|done].
Qed.

End RegexFacts.

Module SecretsScanFacts.
Import Js Regex RegexFacts SecretsScan.

Lemma patterns_nonempty p : In p patterns -> nonempty (p_regex p) = true.
Proof. intros [<-|[<-|[<-|[]]]]; reflexivity. Qed.

Lemma in_scan_line fp i lineText f :
  In f (scan_line fp i lineText) <->
  exists p m, In p patterns /\ In m (exec_all (p_ignore_case p) (p_regex p) lineText)
    /\ f = {| sf_match := m_text m; sf_filePath := fp; sf_line := i + 1 |}.
Proof.
  unfold scan_line. rewrite in_flat_map. split.
  - intros (p & Hp & (m & <- & Hm)%in_map_iff). eauto.
  - intros (p & m & Hp & Hm & ->). exists p. split; [done|].
    apply in_map_iff. eauto.
Qed.

Lemma in_scanTextForSecrets text fp f :
  In f (scanTextForSecrets text fp) <->
  exists i lineText, split_lines text !! i = Some lineText
    /\ In f (scan_line fp i lineText).
Proof.
  unfold scanTextForSecrets. rewrite in_concat. split.
  - intros (l & Hl & Hf). apply list_elem_of_In, elem_of_lookup_imap in Hl
      as (i & lineText & -> & Hi). eauto.
  - intros (i & lineText & Hi & Hf). exists (scan_line fp i lineText).
    split; [|done]. apply list_elem_of_In, elem_of_lookup_imap. eauto.
Qed.

Lemma scanTextForSecrets_path text fp f :
  In f (scanTextForSecrets text fp) -> sf_filePath f = fp.
Proof.
  by intros (i & l & _ & (p & m & _ & _ & ->)%in_scan_line)%in_scanTextForSecrets.
Qed.

(** C4, as the code has it.  The scan returns (no [exec] loop spins on an
    empty match).  Every finding carries the path given, the 1-based number
    of an existing line, and as its match the text that one of the patterns
    takes at some index of that line: a non-empty slice of the line, which
    is the whole line when the line is nothing but the token.  And on every
    line, every index at which a pattern matches lies within a reported
    match of that pattern, so that all the matches that do not overlap an
    earlier one are reported. *)
Theorem scanTextForSecrets_reports_matches (text filePath : list N) :
  (forall p lineText, In p patterns ->
     exec_all_opt (p_ignore_case p) (p_regex p) lineText
     = Some (exec_all (p_ignore_case p) (p_regex p) lineText))
  /\ (forall f, In f (scanTextForSecrets text filePath) ->
        sf_filePath f = filePath /\ 1 <= sf_line f
        /\ exists lineText p k,
             split_lines text !! (sf_line f - 1) = Some lineText
             /\ In p patterns
             /\ match_at (p_ignore_case p) (p_regex p) lineText k = Some (sf_match f)
             /\ sf_match f <> []
             /\ slice lineText k (k + length (sf_match f)) = sf_match f)
  /\ (forall i lineText p k w,
        split_lines text !! i = Some lineText -> In p patterns ->
        match_at (p_ignore_case p) (p_regex p) lineText k = Some w ->
        exists f k',
          In f (scanTextForSecrets text filePath) /\ sf_line f = i + 1
          /\ match_at (p_ignore_case p) (p_regex p) lineText k' = Some (sf_match f)
          /\ k' <= k < k' + length (sf_match f)).
Proof.
  split; [|split].
  - intros p lineText Hp. by apply exec_all_opt_nonempty, patterns_nonempty.
  - intros f (i & lineText & Hi & (p & m & Hp & Hm & ->)%in_scan_line)%in_scanTextForSecrets.
    simpl. split; [done|]. split; [lia|].
    destruct (exec_all_spec (p_ignore_case p) (p_regex p) lineText
                (patterns_nonempty p Hp)) as [H1 _].
    destruct (H1 m Hm) as (Hat & Hne & _ & Hsl).
    exists lineText, p, (m_index m).
    replace (i + 1 - 1) with i by lia. done.
  - intros i lineText p k w Hi Hp Hat.
    destruct (exec_all_spec (p_ignore_case p) (p_regex p) lineText
                (patterns_nonempty p Hp)) as [H1 H2].
    destruct (H2 k w Hat) as (m & Hm & Hk).
    destruct (H1 m Hm) as (Hat' & _).
    exists {| sf_match := m_text m; sf_filePath := filePath; sf_line := i + 1 |}, (m_index m).
    simpl. split; [|done].
    apply in_scanTextForSecrets. exists i, lineText. split; [done|].
    apply in_scan_line. eauto.
Qed.

(** C4 as stated fails: a line that consists of a token alone is reported
    whole. *)
Lemma scanTextForSecrets_whole_line :
  let text := str "sk-abcdefghijklmnopqrstuvwx" in
  exists f, In f (scanTextForSecrets text (str "a.env"))
    /\ split_lines text !! (sf_line f - 1) = Some (sf_match f).
Proof. vm_compute. eexists. split; [left; reflexivity|reflexivity]. Qed.

End SecretsScanFacts.

Module KeyFacts.
Import Js PromptKeywordScan.

Lemma colon_split_inj (a b x y : list N) :
  colon_free a -> colon_free b ->
  a ++ 58%N :: x = b ++ 58%N :: y -> a = b /\ x = y.
Proof.
  intros Ha. revert b. induction Ha as [|c a Hc Ha IH]; intros b Hb H.
  - destruct Hb as [|d b Hd Hb]; simpl in H.
    + by injection H as ->.
    + injection H as <- _. done.
  - destruct Hb as [|d b Hd Hb]; simpl in H.
    + injection H as -> _. done.
    + injection H as -> H. destruct (IH _ Hb H) as [-> ->]. done.
Qed.

Lemma ascii_of_N_of_ascii (l : list ascii) : map ascii_of_N (map N_of_ascii l) = l.
Proof. induction l as [|a l IH]; simpl; [done|]. by rewrite ascii_N_embedding, IH. Qed.

Lemma str_inj : Inj (=) (=) str.
Proof.
  intros s1 s2 H. unfold str in H.
  apply (f_equal (map ascii_of_N)) in H.
  rewrite !ascii_of_N_of_ascii in H.
  apply (f_equal string_of_list_ascii) in H.
  by rewrite !string_of_list_ascii_of_string in H.
Qed.

Lemma pretty_N_char_colon_free d : N_of_ascii (pretty_N_char d) <> 58%N.
Proof. unfold pretty_N_char. repeat case_match; done. Qed.

Lemma pretty_N_go_colon_free n : forall s,
  colon_free (str s) -> colon_free (str (pretty_N_go n s)).
Proof.
  induction (N.lt_wf_0 n) as [n _ IH]; intros s Hs.
  destruct (decide (n = 0)%N) as [->|].
  - by rewrite pretty_N_go_0.
  - rewrite pretty_N_go_step by lia. apply IH.
    + apply N.div_lt; lia.
    + constructor; [apply pretty_N_char_colon_free|done].
Qed.

Lemma number_toString_colon_free n : colon_free (number_toString n).
Proof.
  unfold number_toString, pretty, pretty_nat, pretty, pretty_N.
  case_decide.
  - repeat constructor; done.
  - apply pretty_N_go_colon_free. constructor.
Qed.

Lemma number_toString_inj : Inj (=) (=) number_toString.
Proof. intros n1 n2 H. by apply (inj pretty), str_inj. Qed.

Lemma seen_key_inj l1 n1 c1 l2 n2 c2 :
  colon_free l1 -> colon_free l2 ->
  seen_key l1 n1 c1 = seen_key l2 n2 c2 ->
  l1 = l2 /\ n1 = n2 /\ take 50 c1 = take 50 c2.
Proof.
  unfold seen_key, slice. simpl. intros H1 H2 H.
  apply colon_split_inj in H as [-> H]; [|done..].
  apply colon_split_inj in H as [Hn H]; [|apply number_toString_colon_free..].
  apply number_toString_inj in Hn. by rewrite !drop_0 in H.
Qed.

End KeyFacts.

Module ScanFacts.
Import Js Regex RegexFacts PromptKeywordScan KeyFacts.


Lemma block_labels_colon_free :
  Forall colon_free (map bp_label blockPatterns).
Proof. by apply (bool_decide_unpack _). Qed.

Lemma keyword_labels_colon_free :
  Forall colon_free (map km_label keywordMatchers).
Proof. by apply (bool_decide_unpack _). Qed.

(** The [exec] loop of every block pattern returns: none of them matches
    the empty string. *)
Lemma block_pattern_loop_returns bp text :
  In bp blockPatterns ->
  exec_all_opt (bp_ignore_case bp) (bp_regex bp) text
  = Some (exec_all (bp_ignore_case bp) (bp_regex bp) text).
Proof.
  intros Hbp. apply exec_all_opt_nonempty.
  repeat (destruct Hbp as [<-|Hbp]; [reflexivity|]). destruct Hbp.
Qed.

Lemma labels_disjoint l : is_block_label l -> is_keyword_label l -> False.
Proof.
  assert (H : Forall (fun l => l ∉ map km_label keywordMatchers) (map bp_label blockPatterns))
    by (by apply (bool_decide_unpack _)).
  intros Hb Hk. by apply (proj1 (Forall_forall _ _) H l Hb).
Qed.

Lemma seen_inv_empty : seen_inv (∅, []).
Proof.
  split; [|constructor]. intros k. split; [by intros ?%not_elem_of_empty|].
  intros (h & Hh & _). by apply elem_of_nil in Hh.
Qed.

Lemma key_triple_iff h1 h2 :
  colon_free (matchLabel h1) -> colon_free (matchLabel h2) ->
  seen_key (matchLabel h1) (line h1) (snippet h1)
  = seen_key (matchLabel h2) (line h2) (snippet h2)
  <-> key_triple h1 = key_triple h2.
Proof.
  intros H1 H2. unfold key_triple. split.
  - intros (-> & -> & ->)%seen_key_inj; done.
  - intros [= -> -> H]. unfold seen_key, slice. by rewrite !drop_0, !Nat.sub_0_r, H.
Qed.

Lemma seen_iff_triple h st :
  seen_inv st -> colon_free (matchLabel h) ->
  seen_key (matchLabel h) (line h) (snippet h) ∈ st.1
  <-> key_triple h ∈ map key_triple st.2.
Proof.
  intros [Hs Hc] Hh. rewrite Hs. rewrite list_elem_of_In, in_map_iff.
  split.
  - intros (h' & Hin & Hk). exists h'. split; [|by apply list_elem_of_In].
    symmetry. apply key_triple_iff; [done| |done].
    by apply (proj1 (Forall_forall _ _) Hc).
  - intros (h' & Hk & Hin%list_elem_of_In). exists h'. split; [done|].
    apply key_triple_iff; [done| |done].
    by apply (proj1 (Forall_forall _ _) Hc).
Qed.

Lemma emit_spec h st :
  seen_inv st -> colon_free (matchLabel h) ->
  match emit h st with
  | None => key_triple h ∈ map key_triple st.2
  | Some st' =>
      (key_triple h ∉ map key_triple st.2) /\ st'.2 = st.2 ++ [h] /\ seen_inv st'
  end.
Proof.
  intros Hinv Hh. pose proof (seen_iff_triple h st Hinv Hh) as Hiff.
  unfold emit. cbv zeta. case_decide as Hk.
  - by apply Hiff.
  - split; [by rewrite <- Hiff|]. split; [done|].
    destruct Hinv as [Hs Hc]. split; simpl.
    + intros k. rewrite elem_of_union, elem_of_singleton, Hs. split.
      * intros [-> | (h' & Hin & ->)].
        -- exists h. split; [|done]. apply elem_of_app. right.
           by apply list_elem_of_singleton.
        -- exists h'. split; [|done]. apply elem_of_app. by left.
      * intros (h' & [Hin | ->%list_elem_of_singleton]%elem_of_app & ->).
        -- right. by exists h'.
        -- by left.
    + apply Forall_app. split; [done|]. by constructor.
Qed.

Lemma suppress_duplicates_app em a b :
  suppress_duplicates em (a ++ b) = suppress_duplicates (suppress_duplicates em a) b.
Proof.
  revert em. induction a as [|h a IH]; intros em; simpl; [done|].
  case_decide; apply IH.
Qed.

Lemma suppress_duplicates_kept em cs :
  exists kept, suppress_duplicates em cs = em ++ kept /\ sublist kept cs.
Proof.
  revert em. induction cs as [|h cs IH]; intros em; simpl.
  - exists []. by rewrite app_nil_r.
  - case_decide.
    + destruct (IH em) as (kept & -> & Hs). exists kept. split; [done|].
      by apply sublist_cons.
    + destruct (IH (em ++ [h])) as (kept & -> & Hs). exists (h :: kept).
      rewrite <- app_assoc. split; [done|]. by apply sublist_skip.
Qed.

(** Candidates none of which repeats a key all pass. *)
Lemma suppress_duplicates_fresh cs : forall em,
  (forall c1 h c2, cs = c1 ++ h :: c2 ->
     key_triple h ∉ map key_triple (em ++ c1)) ->
  suppress_duplicates em cs = em ++ cs.
Proof.
  induction cs as [|h cs IH]; intros em Hf; simpl; [by rewrite app_nil_r|].
  case_decide as Hk.
  - destruct (Hf [] h cs eq_refl). by rewrite app_nil_r.
  - rewrite IH; [by rewrite <- app_assoc|].
    intros c1 h' c2 ->. rewrite <- app_assoc. apply (Hf (h :: c1) h' c2). done.
Qed.

Lemma foldl_block_step text fp bp ms : forall st,
  seen_inv st -> colon_free (bp_label bp) ->
  let st' := foldl (block_step text fp bp) st ms in
  seen_inv st' /\ st'.2 = suppress_duplicates st.2 (map (block_hit text fp bp) ms).
Proof.
  induction ms as [|m ms IH]; intros st Hinv Hbp; simpl; [done|].
  pose proof (emit_spec (block_hit text fp bp m) st Hinv Hbp) as He.
  unfold block_step at 2. unfold block_step at 3.
  destruct (emit _ st) as [st1|]; simpl.
  - destruct He as (Hk & Hst1 & Hinv1).
    rewrite decide_False by done. rewrite <- Hst1. by apply IH.
  - rewrite decide_True by done. by apply IH.
Qed.

Lemma block_loop_spec text fp st :
  seen_inv st ->
  let st' := block_loop text fp st in
  seen_inv st' /\ st'.2 = suppress_duplicates st.2 (block_candidates text fp).
Proof.
  unfold block_loop, block_candidates.
  pose proof block_labels_colon_free as Hl. revert Hl st.
  induction blockPatterns as [|bp bps IH]; intros Hl st Hinv; simpl; [done|].
  apply Forall_cons in Hl as [Hbp Hl].
  destruct (foldl_block_step text fp bp
              (exec_all (bp_ignore_case bp) (bp_regex bp) text) st Hinv Hbp)
    as [Hinv1 Hst1].
  rewrite suppress_duplicates_app, <- Hst1. by apply IH.
Qed.

Lemma older_mono i : forall h, older i h -> older (i + 1) h.
Proof. intros h [?|[? ?]]; [by left|right; split; [done|lia]]. Qed.

Lemma older_fresh lines fp i raw km (st : scan_state) :
  Forall (older i) st.2 -> is_keyword_label (km_label km) ->
  key_triple (line_hit lines fp i raw km) ∉ map key_triple st.2.
Proof.
  intros Hold Hkm (h & Hk & Hin%list_elem_of_In)%list_elem_of_In%in_map_iff.
  apply (proj1 (Forall_forall _ _) Hold) in Hin.
  unfold key_triple in Hk. simpl in Hk. injection Hk as Hl Hn _.
  destruct Hin as [Hb|[_ Hle]].
  - rewrite Hl in Hb. by eapply labels_disjoint.
  - lia.
Qed.

Lemma try_matchers_spec lines fp i raw kms : forall st,
  Forall (fun km => is_keyword_label (km_label km)) kms ->
  seen_inv st -> Forall (older i) st.2 ->
  let st' := try_matchers kms lines fp i raw st in
  seen_inv st' /\ Forall (older (i + 1)) st'.2
  /\ st'.2 = st.2 ++ option_list (line_hit lines fp i raw
                                    <$> find (fun km => km_test km raw) kms).
Proof.
  induction kms as [|km kms IH]; intros st Hkms Hinv Hold; simpl.
  - rewrite app_nil_r. split; [done|]. split; [|done].
    eapply Forall_impl; [done|apply older_mono].
  - apply Forall_cons in Hkms as [Hkm Hkms].
    destruct (km_test km raw); [|by apply IH].
    assert (Hcf : colon_free (km_label km)).
    { by apply (proj1 (Forall_forall _ _) keyword_labels_colon_free). }
    pose proof (emit_spec (line_hit lines fp i raw km) st Hinv Hcf) as He.
    destruct (emit _ st) as [st1|].
    + destruct He as (_ & Hst1 & Hinv1). split; [done|]. split; [|done].
      rewrite Hst1. apply Forall_app. split.
      * eapply Forall_impl; [done|apply older_mono].
      * constructor; [|done]. right. simpl. split; [done|lia].
    + by destruct (older_fresh lines fp i raw km st Hold Hkm).
Qed.

Lemma keyword_matchers_labelled :
  Forall (fun km => is_keyword_label (km_label km)) keywordMatchers.
Proof.
  apply Forall_forall. intros km Hkm. unfold is_keyword_label.
  apply list_elem_of_In, in_map. by apply list_elem_of_In.
Qed.

Lemma line_loop_spec lines fp rest : forall i st,
  seen_inv st -> Forall (older i) st.2 ->
  (line_loop lines fp i rest st).2 = st.2 ++ line_candidates_from lines fp i rest.
Proof.
  induction rest as [|raw rest IH]; intros i st Hinv Hold;
    cbn [line_loop line_candidates_from].
  - by rewrite app_nil_r.
  - destruct (try_matchers_spec lines fp i raw keywordMatchers st
                keyword_matchers_labelled Hinv Hold) as (Hinv1 & Hold1 & Hst1).
    rewrite IH by done. by rewrite Hst1, <- app_assoc.
Qed.

(** The scan is the block phase followed by the line candidates. *)
Lemma scan_phases text fp :
  scanTextForPromptKeywords text fp
  = suppress_duplicates [] (block_candidates text fp) ++ line_candidates text fp.
Proof.
  unfold scanTextForPromptKeywords. cbv zeta.
  destruct (block_loop_spec text fp (∅, []) seen_inv_empty) as [Hinv Hst].
  simpl in Hst.
  rewrite line_loop_spec; [by rewrite Hst| done |].
  rewrite Hst. destruct (suppress_duplicates_kept [] (block_candidates text fp))
    as (kept & -> & Hsub). simpl.
  apply Forall_forall. intros h Hh. left.
  apply (fun H => elem_of_sublist _ _ _ H Hsub) in Hh.
  apply list_elem_of_In, in_flat_map in Hh as (bp & Hbp & (m & <- & _)%in_map_iff).
  simpl. apply list_elem_of_In, in_map, Hbp.
Qed.


Lemma first_matching_labelled l km :
  first_matching l = Some km -> is_keyword_label (km_label km).
Proof.
  intros [Hin _]%find_some. apply list_elem_of_In, in_map, Hin.
Qed.

Lemma line_candidates_fresh lines fp rest : forall i em,
  Forall (older i) em ->
  let cs := line_candidates_from lines fp i rest in
  suppress_duplicates em cs = em ++ cs
  /\ Forall (fun h => is_keyword_label (matchLabel h) /\ i < line h) cs.
Proof.
  induction rest as [|raw rest IH]; intros i em Hold; cbn [line_candidates_from].
  - simpl. by rewrite app_nil_r.
  - destruct (first_matching raw) as [km|] eqn:Hkm; simpl.
    + pose proof (first_matching_labelled _ _ Hkm) as Hl.
      rewrite decide_False by (by apply (older_fresh lines fp i raw km (∅, em))).
      destruct (IH (i + 1) (em ++ [line_hit lines fp i raw km])) as [-> Hall].
      { apply Forall_app. split; [eapply Forall_impl; [done|apply older_mono]|].
        constructor; [|done]. right. simpl. split; [done|lia]. }
      rewrite <- app_assoc. split; [done|].
      constructor; [simpl; split; [done|lia]|].
      eapply Forall_impl; [done|]. simpl. intros h [? ?]. split; [done|lia].
    + destruct (IH (i + 1) em) as [-> Hall].
      { eapply Forall_impl; [done|apply older_mono]. }
      split; [done|].
      eapply Forall_impl; [done|]. simpl. intros h [? ?]. split; [done|lia].
Qed.

Lemma block_hits_labelled text fp :
  Forall (fun h => is_block_label (matchLabel h))
         (suppress_duplicates [] (block_candidates text fp)).
Proof.
  destruct (suppress_duplicates_kept [] (block_candidates text fp)) as (kept & -> & Hsub).
  simpl. apply Forall_forall. intros h Hh.
  apply (fun H => elem_of_sublist _ _ _ H Hsub) in Hh.
  apply list_elem_of_In, in_flat_map in Hh as (bp & Hbp & (m & <- & _)%in_map_iff).
  simpl. apply list_elem_of_In, in_map, Hbp.
Qed.

Lemma line_candidates_labelled text fp :
  Forall (fun h => is_keyword_label (matchLabel h)) (line_candidates text fp).
Proof.
  unfold line_candidates. cbv zeta.
  destruct (line_candidates_fresh (split_lines text) fp (split_lines text) 0 [])
    as [_ H]; [done|].
  eapply Forall_impl; [exact H|]. by intros h [? _].
Qed.

(** C5.  The hits returned are the candidates -- those of the block
    extractors first, then the one of each line -- from which a candidate is
    dropped exactly when a hit with the same (label, line, first 50
    characters of the snippet) was emitted before it.  No candidate of a
    line is ever dropped, the labels of the two tables being apart; and in
    the result all the block hits stand before all the line hits. *)
Theorem scanTextForPromptKeywords_deduplicates (text filePath : list N) :
  scanTextForPromptKeywords text filePath
  = suppress_duplicates [] (block_candidates text filePath ++ line_candidates text filePath)
  /\ scanTextForPromptKeywords text filePath
     = suppress_duplicates [] (block_candidates text filePath)
       ++ line_candidates text filePath
  /\ Forall (fun h => is_block_label (matchLabel h))
            (suppress_duplicates [] (block_candidates text filePath))
  /\ Forall (fun h => is_keyword_label (matchLabel h)) (line_candidates text filePath).
Proof.
  rewrite scan_phases. split; [|split; [done|split]].
  - rewrite suppress_duplicates_app. symmetry.
    apply (line_candidates_fresh (split_lines text) filePath (split_lines text) 0).
    eapply Forall_impl; [apply block_hits_labelled|]. intros h ?. by left.
  - apply block_hits_labelled.
  - apply line_candidates_labelled.
Qed.

(** The hits of the line heuristics for the line of index [i]. *)
Lemma line_candidates_at lines fp i l rest : forall i0,
  i0 <= i -> rest !! (i - i0) = Some l ->
  filter (fun h => is_keyword_label (matchLabel h) /\ line h = i + 1)
         (line_candidates_from lines fp i0 rest)
  = option_list (line_hit lines fp i l <$> first_matching l).
Proof.
  induction rest as [|raw rest IH]; intros i0 Hi Hl; [done|].
  cbn [line_candidates_from]. rewrite filter_app.
  destruct (decide (i = i0)) as [->|Hne].
  - rewrite Nat.sub_diag in Hl. injection Hl as ->.
    assert (Hrest : filter (fun h => is_keyword_label (matchLabel h) /\ line h = i0 + 1)
              (line_candidates_from lines fp (i0 + 1) rest) = []).
    { destruct (line_candidates_fresh lines fp rest (i0 + 1) []) as [_ H]; [done|].
      induction H as [|h hs [_ Hh] _ IHh]; [done|].
      rewrite filter_cons_False; [done|]. intros [_ ?]. lia. }
    rewrite Hrest, app_nil_r.
    destruct (first_matching l) as [km|] eqn:Hkm; simpl; [|done].
    rewrite filter_cons_True; [done|].
    simpl. split; [by eapply first_matching_labelled|done].
  - replace (i - i0) with (S (i - (i0 + 1))) in Hl by lia. simpl in Hl.
    rewrite IH by (done || lia).
    destruct (first_matching raw) as [km|]; simpl; [|done].
    rewrite filter_cons_False by (simpl; intros [_ ?]; lia). done.
Qed.

Lemma scan_line_hits text fp i l :
  split_lines text !! i = Some l ->
  filter (fun h => is_keyword_label (matchLabel h) /\ line h = i + 1)
         (scanTextForPromptKeywords text fp)
  = option_list (line_hit (split_lines text) fp i l <$> first_matching l).
Proof.
  intros Hl. rewrite scan_phases, filter_app.
  assert (Hb : filter (fun h => is_keyword_label (matchLabel h) /\ line h = i + 1)
                 (suppress_duplicates [] (block_candidates text fp)) = []).
  { pose proof (block_hits_labelled text fp) as H.
    induction H as [|h hs Hh _ IHh]; [done|].
    rewrite filter_cons_False; [done|]. intros [? _]. by eapply labels_disjoint. }
  rewrite Hb. simpl.
  apply (line_candidates_at (split_lines text) fp i l (split_lines text) 0); [lia|].
  by rewrite Nat.sub_0_r.
Qed.

End ScanFacts.

Module WhitespaceFacts.
Import Js PromptKeywordScan.


Lemma collapse_ws_spaces b ws rest :
  ws <> [] -> all_space ws ->
  collapse_ws b (ws ++ rest) = (if b then [] else [32%N]) ++ collapse_ws true rest.
Proof.
  intros Hne Hws. revert b. induction Hws as [|c ws Hc Hws IH]; intros b; [done|].
  simpl. rewrite Hc. destruct ws as [|d ws].
  - simpl. by destruct b.
  - rewrite IH by done. by destruct b.
Qed.

Lemma collapse_ws_app b a rest :
  collapse_ws b (a ++ rest) = collapse_ws b a ++ collapse_ws (in_run_after b a) rest.
Proof.
  revert b. induction a as [|c a IH]; intros b; [done|].
  simpl. destruct (is_space c) eqn:Hc; [destruct b|]; by rewrite IH.
Qed.

(** A run of white space inside a string collapses the same way whatever
    its length. *)
Lemma collapse_ws_inner b a ws1 ws2 rest :
  ws1 <> [] -> all_space ws1 -> ws2 <> [] -> all_space ws2 ->
  collapse_ws b (a ++ ws1 ++ rest) = collapse_ws b (a ++ ws2 ++ rest).
Proof.
  intros. rewrite (collapse_ws_app b a (ws1 ++ rest)), (collapse_ws_app b a (ws2 ++ rest)).
  by rewrite !collapse_ws_spaces.
Qed.

Lemma trim_start_collapse b s :
  trim_start (collapse_ws b s) = collapse_ws false (trim_start s).
Proof.
  revert b. induction s as [|c s IH]; intros b; [done|].
  simpl. destruct (is_space c) eqn:Hc.
  - destruct b; simpl; apply IH.
  - simpl. by rewrite Hc.
Qed.

Lemma trim_start_spaces ws rest : all_space ws -> trim_start (ws ++ rest) = trim_start rest.
Proof. induction 1 as [|c ws Hc _ IH]; [done|]. simpl. by rewrite Hc. Qed.

Lemma trim_start_snoc s c :
  is_space c = true ->
  trim_start (rev (s ++ [c])) = trim_start (rev s).
Proof. intros Hc. rewrite rev_app_distr. simpl. by rewrite Hc. Qed.

Lemma trim_start_app_space s c :
  is_space c = true ->
  trim_start (s ++ [c]) = [] /\ trim_start s = []
  \/ trim_start (s ++ [c]) = trim_start s ++ [c].
Proof.
  intros Hc. induction s as [|d s IH]; simpl.
  - rewrite Hc. by left.
  - destruct (is_space d); [done|by right].
Qed.

Lemma normalize_leading ws s :
  all_space ws -> normalizeWhitespace (ws ++ s) = normalizeWhitespace s.
Proof.
  intros Hws. unfold normalizeWhitespace, trim.
  by rewrite !trim_start_collapse, trim_start_spaces.
Qed.

Lemma normalize_trailing_one s c :
  is_space c = true -> normalizeWhitespace (s ++ [c]) = normalizeWhitespace s.
Proof.
  intros Hc. unfold normalizeWhitespace, trim.
  rewrite collapse_ws_app. simpl. rewrite Hc.
  destruct (in_run_after false s); [by rewrite app_nil_r|].
  destruct (trim_start_app_space (collapse_ws false s) 32%N eq_refl) as [[-> ->]| ->];
    [done|].
  by rewrite trim_start_snoc.
Qed.

Lemma normalize_inner a ws1 ws2 rest :
  ws1 <> [] -> all_space ws1 -> ws2 <> [] -> all_space ws2 ->
  normalizeWhitespace (a ++ ws1 ++ rest) = normalizeWhitespace (a ++ ws2 ++ rest).
Proof.
  intros. unfold normalizeWhitespace. by rewrite (collapse_ws_inner _ _ ws1 ws2).
Qed.

(** The snippet of the code is the snippet of the specification: leaving
    out empty context lines and joining with a line feed between spaces, or
    joining all three lines with one space, normalizes to the same text. *)
Lemma context_join_normalize prev cur next :
  normalizeWhitespace
    (join [32; 10; 32]%N (filter (fun s => s <> []) [prev; cur; next]))
  = three_line_snippet prev cur next.
Proof.
  unfold three_line_snippet.
  assert (Hin : forall a b, normalizeWhitespace (a ++ 32%N :: 10%N :: 32%N :: b)
                            = normalizeWhitespace (a ++ 32%N :: b)).
  { intros. apply (normalize_inner a [32; 10; 32]%N [32]%N b); try done.
    all: by repeat constructor. }
  assert (Hlead : forall s, normalizeWhitespace (32%N :: s) = normalizeWhitespace s).
  { intros. apply (normalize_leading [32%N]). by repeat constructor. }
  assert (Htrail : forall s, normalizeWhitespace (s ++ [32%N]) = normalizeWhitespace s).
  { intros. by apply normalize_trailing_one. }
  destruct (decide (prev = [])) as [->|Hp], (decide (cur = [])) as [->|Hc],
    (decide (next = [])) as [->|Hn];
    repeat ((rewrite filter_cons_True by done)
            || (rewrite filter_cons_False by (intros H; by apply H)));
    rewrite ?filter_nil; cbn [join app].
  - reflexivity.
  - by rewrite !Hlead.
  - by rewrite Hlead, Htrail.
  - by rewrite Hin, Hlead.
  - replace (prev ++ [32; 32]%N) with ((prev ++ [32%N]) ++ [32%N]) by (by rewrite <- app_assoc).
    by rewrite !Htrail.
  - rewrite Hin. symmetry.
    apply (normalize_inner prev [32; 32]%N [32]%N next); try done.
    all: by repeat constructor.
  - rewrite Hin.
    replace (prev ++ 32%N :: cur ++ [32%N]) with ((prev ++ 32%N :: cur) ++ [32%N])
      by (by rewrite <- app_assoc).
    by rewrite Htrail.
  - rewrite Hin.
    replace (prev ++ 32%N :: cur ++ 32%N :: 10%N :: 32%N :: next)
      with ((prev ++ 32%N :: cur) ++ 32%N :: 10%N :: 32%N :: next)
      by (by rewrite <- app_assoc).
    rewrite Hin. by rewrite <- app_assoc.
Qed.

(** *** Ink: characters that are not white space *)

Lemma has_ink_collapse b s : has_ink s -> has_ink (collapse_ws b s).
Proof.
  intros H. revert b. induction H as [c s Hc|c s _ IH]; intros b; simpl.
  - rewrite Hc. by left.
  - destruct (is_space c) eqn:Hc; [destruct b; [apply IH|right; apply IH]|].
    by left.
Qed.

Lemma has_ink_trim_start s : has_ink s -> has_ink (trim_start s).
Proof.
  induction 1 as [c s Hc|c s H IH]; simpl.
  - rewrite Hc. by left.
  - destruct (is_space c) eqn:Hc; [done|by left].
Qed.

Lemma has_ink_rev s : has_ink s -> has_ink (rev s).
Proof.
  unfold has_ink. rewrite !Exists_exists.
  intros (c & Hin & Hc). exists c. split; [|done].
  by apply list_elem_of_In, in_rev, list_elem_of_In; rewrite rev_involutive.
Qed.

Lemma has_ink_normalize s : has_ink s -> normalizeWhitespace s <> [].
Proof.
  intros H. unfold normalizeWhitespace, trim.
  apply (has_ink_collapse false), has_ink_trim_start, has_ink_rev,
    has_ink_trim_start, has_ink_rev in H.
  intros Hnil. rewrite Hnil in H. by apply Exists_nil in H.
Qed.

Lemma has_ink_app_l a b : has_ink a -> has_ink (a ++ b).
Proof. intros. apply Exists_app. by left. Qed.
Lemma has_ink_app_r a b : has_ink b -> has_ink (a ++ b).
Proof. intros. apply Exists_app. by right. Qed.

Lemma has_ink_three_lines prev cur next :
  has_ink cur -> three_line_snippet prev cur next <> [].
Proof.
  intros H. apply has_ink_normalize.
  by apply has_ink_app_r, has_ink_app_r, has_ink_app_l.
Qed.

End WhitespaceFacts.

Module LineHeuristicFacts.
Import Js Regex RegexFacts PromptKeywordScan KeyFacts ScanFacts WhitespaceFacts.

Lemma space_not_letter a :
  is_space a = true -> is_lower a = false /\ is_upper a = false.
Proof.
  unfold is_space, is_lower, is_upper, in_range.
  rewrite !orb_true_iff, !andb_true_iff, !andb_false_iff, !N.eqb_eq, !N.leb_le, !N.leb_gt.
  lia.
Qed.

Lemma char_eq_ink ic a c :
  char_eq ic a c = true -> is_space c = false -> is_space a = false.
Proof.
  intros He Hc. destruct (is_space a) eqn:Ha; [|done]. exfalso.
  destruct (space_not_letter a Ha) as [Hl Hu].
  unfold char_eq, canon in He. rewrite Hl in He.
  destruct ic.
  - destruct (is_lower c) eqn:Hlc.
    + apply N.eqb_eq in He. subst a.
      unfold is_lower, is_upper, in_range in *.
      rewrite andb_true_iff, !N.leb_le in Hlc.
      rewrite andb_false_iff, !N.leb_gt in Hu. lia.
    + apply N.eqb_eq in He. congruence.
  - apply N.eqb_eq in He. congruence.
Qed.

Lemma extends_ink x y : extends x y -> has_ink (after y) -> has_ink (after x).
Proof. intros (w & -> & _) H. by apply has_ink_app_r. Qed.

Lemma rep_first m greedy fuel mn mx x y :
  mn <> 0 -> match mx with Some k => mn <= k | None => True end ->
  In y (rep m greedy fuel mn mx x) -> exists y0, In y0 (m x).
Proof.
  destruct fuel as [|fuel]; simpl; intros Hmn Hmx Hy; [done|].
  destruct mx as [[|k]|]; [lia|..];
    (destruct (mn =? 0) eqn:E; [apply Nat.eqb_eq in E; lia|]; simpl in Hy;
     apply in_flat_map in Hy as (y0 & Hy0 & _); eauto).
Qed.

Lemma rmatches_ink ic r : needs_ink r = true ->
  forall x y, In y (rmatches ic r x) -> has_ink (after x).
Proof.
  induction r as [|c|p|r1 IH1 r2 IH2|r1 IH1 r2 IH2|mn mx g r IH| |n r IH|n];
    cbn [needs_ink]; intros Hne x y Hy; cbn [rmatches] in Hy; try done.
  - destruct (after x) as [|a rest] eqn:Ha; [done|].
    destruct (char_eq ic a c) eqn:He; [|done].
    left. eapply char_eq_ink; [done|]. by apply negb_true_iff.
  - apply in_flat_map in Hy as (y0 & Hy0 & Hin).
    apply orb_true_iff in Hne as [Hne|Hne]; [by eapply IH1|].
    eapply extends_ink; [by eapply rmatches_extends|by eapply IH2].
  - apply andb_true_iff in Hne as [Hn1 Hn2].
    apply in_app_or in Hy as [?|?]; eauto.
  - apply andb_true_iff in Hne as [[Hmn Hmx]%andb_true_iff Hne].
    apply rep_first in Hy as [y0 Hy0]; [by eapply IH| |].
    + by apply negb_true_iff, Nat.eqb_neq in Hmn.
    + destruct mx; [by apply Nat.leb_le|done].
  - apply in_map_iff in Hy as (y0 & _ & Hy0). eauto.
Qed.

Lemma exec_from_ink ic r : needs_ink r = true ->
  forall aft bef res, exec_from ic r bef aft = Some res -> has_ink aft.
Proof.
  intros Hne. induction aft as [|a aft IH]; intros bef res H; simpl in H.
  - destruct (rmatches ic r _) as [|y ys] eqn:E; [done|].
    apply (rmatches_ink ic r Hne (MState bef [] []) y). rewrite E. by left.
  - destruct (rmatches ic r _) as [|y ys] eqn:E.
    + right. by eapply IH.
    + apply (rmatches_ink ic r Hne (MState bef (a :: aft) []) y). rewrite E. by left.
Qed.

Lemma has_ink_of_test r l : needs_ink r = true -> has r l = true -> has_ink l.
Proof.
  unfold has, test. intros Hne H.
  destruct (exec_from true r [] l) eqn:E; [|done]. by eapply exec_from_ink.
Qed.

(** A line on which a predicate fires is not blank. *)
Lemma keyword_test_ink km l :
  In km keywordMatchers -> km_test km l = true -> has_ink l.
Proof.
  intros Hkm H.
  repeat (destruct Hkm as [<-|Hkm]; [simpl in H;
            repeat (apply andb_true_iff in H as [H _]);
            (eapply has_ink_of_test; [|exact H]); reflexivity|]).
  destruct Hkm.
Qed.

Lemma lineNumberAtIndex_positive text idx : 1 <= lineNumberAtIndex text idx.
Proof.
  unfold lineNumberAtIndex. destruct (idx <=? 0); [done|].
  generalize (take idx text). intros l.
  assert (H : forall n, n <= foldl (fun count c => if (c =? 10)%N then count + 1 else count) n l).
  { induction l as [|c l IH]; intros n; simpl; [done|].
    etrans; [|apply IH]. destruct (c =? 10)%N; lia. }
  apply H.
Qed.

Lemma context_snippet_spec lines i l :
  context_snippet lines i l
  = three_line_snippet
      (match i with 0 => [] | S i' => default [] (lines !! i') end)
      l (default [] (lines !! (i + 1))).
Proof.
  unfold context_snippet. cbv zeta.
  change (str _) with [32; 10; 32]%N.
  rewrite <- context_join_normalize.
  assert (Hprev : (if 0 <? i then default [] (lines !! (i - 1)) else [])
                  = match i with 0 => [] | S i' => default [] (lines !! i') end).
  { destruct i as [|i']; [done|]. simpl. by rewrite Nat.sub_0_r. }
  assert (Hnext : (if i + 1 <? length lines then default [] (lines !! (i + 1)) else [])
                  = default [] (lines !! (i + 1))).
  { destruct (i + 1 <? length lines) eqn:E; [done|].
    apply Nat.ltb_ge in E. by rewrite lookup_ge_None_2. }
  by rewrite Hprev, Hnext.
Qed.

Lemma in_line_candidates_from lines fp h rest : forall i0,
  In h (line_candidates_from lines fp i0 rest) ->
  exists j l km, rest !! j = Some l /\ first_matching l = Some km
                 /\ h = line_hit lines fp (i0 + j) l km.
Proof.
  induction rest as [|raw rest IH]; intros i0 Hh; [done|].
  cbn [line_candidates_from] in Hh. apply in_app_or in Hh as [Hh|Hh].
  - destruct (first_matching raw) as [km|] eqn:Hkm; [|done].
    destruct Hh as [<-|[]]. exists 0, raw, km. by rewrite Nat.add_0_r.
  - apply IH in Hh as (j & l & km & Hj & Hkm & ->).
    exists (S j), l, km. split; [done|]. split; [done|]. f_equal. lia.
Qed.

(** Every hit of the scan has a line number from 1 on, and a hit of the line
    heuristics has a snippet that is not empty. *)
Lemma scan_hits_wellformed text fp h :
  In h (scanTextForPromptKeywords text fp) ->
  1 <= line h /\ (is_keyword_label (matchLabel h) -> snippet h <> []).
Proof.
  rewrite scan_phases. intros [Hb|Hl]%in_app_or.
  - destruct (suppress_duplicates_kept [] (block_candidates text fp)) as (kept & Hk & Hsub).
    rewrite Hk in Hb. simpl in Hb.
    apply list_elem_of_In in Hb. apply (fun H => elem_of_sublist _ _ _ H Hsub) in Hb.
    apply list_elem_of_In, in_flat_map in Hb as (bp & Hbp & (m & <- & _)%in_map_iff).
    simpl. split; [apply lineNumberAtIndex_positive|].
    intros Hkw. exfalso. eapply labels_disjoint; [|exact Hkw].
    apply list_elem_of_In, in_map, Hbp.
  - apply in_line_candidates_from in Hl as (j & l & km & Hj & Hkm & ->).
    simpl. split; [lia|]. intros _.
    rewrite context_snippet_spec. apply has_ink_three_lines.
    apply find_some in Hkm as [Hin Ht]. by eapply keyword_test_ink.
Qed.

Lemma scan_hits_path text fp h :
  In h (scanTextForPromptKeywords text fp) -> filePath h = fp.
Proof.
  rewrite scan_phases. intros [Hb|Hl]%in_app_or.
  - destruct (suppress_duplicates_kept [] (block_candidates text fp)) as (kept & Hk & Hsub).
    rewrite Hk in Hb. simpl in Hb.
    apply list_elem_of_In in Hb. apply (fun H => elem_of_sublist _ _ _ H Hsub) in Hb.
    by apply list_elem_of_In, in_flat_map in Hb as (bp & Hbp & (m & <- & _)%in_map_iff).
  - by apply in_line_candidates_from in Hl as (j & l & km & Hj & Hkm & ->).
Qed.

(** C6.  For the line of index [i], the hits that the line heuristics
    contribute to the result are: none when no predicate matches the line,
    and otherwise exactly one, labelled by the first predicate in
    declaration order that matches, numbered [i + 1], with the previous, the
    matching and the next line joined and white-space normalized as its
    snippet. *)
Theorem line_heuristics_first_match_wins (text filePath : list N) (i : nat) (l : list N) :
  split_lines text !! i = Some l ->
  filter (fun h => is_keyword_label (matchLabel h) /\ line h = i + 1)
         (scanTextForPromptKeywords text filePath)
  = option_list
      ((fun km =>
          {| filePath := filePath; line := i + 1; matchLabel := km_label km;
             snippet :=
               three_line_snippet
                 (match i with 0 => [] | S i' => default [] (split_lines text !! i') end)
                 l (default [] (split_lines text !! (i + 1))) |})
       <$> first_matching l).
Proof.
  intros Hl. rewrite (scan_line_hits text filePath i l Hl).
  destruct (first_matching l) as [km|]; [|done]. simpl.
  unfold line_hit. by rewrite context_snippet_spec.
Qed.

(** The statement of C6 on a line that the first and the fourth predicate
    both match. *)
Lemma line_heuristics_first_match_wins_example :
  filter (fun h => is_keyword_label (matchLabel h) /\ line h = 0 + 1)
         (scanTextForPromptKeywords (str "messages = [role, system]") (str "chat.js"))
  = [ {| filePath := str "chat.js"; line := 1; matchLabel := str "role_system";
         snippet := str "messages = [role, system]" |} ].
Proof.
  apply (line_heuristics_first_match_wins
           (str "messages = [role, system]") (str "chat.js") 0
           (str "messages = [role, system]")).
  reflexivity.
Defined.

End LineHeuristicFacts.

Module PythonExtractorFacts.
Import Js PythonExtractor.

Section node_induction.
Variable P : node -> Prop.
Hypothesis HName : forall id, P (Name id).
Hypothesis HAttribute : forall v attr, P v -> P (Attribute v attr).
Hypothesis HConstantStr : forall s, P (ConstantStr s).
Hypothesis HConstantOther : P ConstantOther.
Hypothesis HJoinedStr : forall vs, Forall P vs -> P (JoinedStr vs).
Hypothesis HFormattedValue : forall v fs,
  P v -> from_option P True fs -> P (FormattedValue v fs).
Hypothesis HDict : forall ks vs,
  Forall (from_option P True) ks -> Forall P vs -> P (Dict ks vs).
Hypothesis HList : forall es, Forall P es -> P (List_ es).
Hypothesis HCall : forall ln f args kws,
  P f -> Forall P args -> Forall (fun kw => P kw.2) kws -> P (Call ln f args kws).
Hypothesis HFunctionDef : forall name ch, Forall P ch -> P (FunctionDef name ch).
Hypothesis HAsyncFunctionDef : forall name ch, Forall P ch -> P (AsyncFunctionDef name ch).
Hypothesis HOther : forall ch, Forall P ch -> P (Other ch).

Lemma node_ind : forall n, P n.
Proof using All.
  fix IH 1. intros [id|v attr|s| |vs|v fs|ks vs|es|ln f args kws|name ch|name ch|ch].
  - apply HName.
  - apply HAttribute, IH.
  - apply HConstantStr.
  - apply HConstantOther.
  - apply HJoinedStr. induction vs; constructor; [apply IH|assumption].
  - apply HFormattedValue; [apply IH|]. destruct fs; [apply IH|exact I].
  - apply HDict.
    + induction ks as [|[k|] ks IHks]; constructor; [apply IH|assumption|exact I|assumption].
    + induction vs; constructor; [apply IH|assumption].
  - apply HList. induction es; constructor; [apply IH|assumption].
  - apply HCall; [apply IH| |].
    + induction args; constructor; [apply IH|assumption].
    + induction kws as [|[arg v] kws IHkws]; constructor; [apply IH|assumption].
  - apply HFunctionDef. induction ch; constructor; [apply IH|assumption].
  - apply HAsyncFunctionDef. induction ch; constructor; [apply IH|assumption].
  - apply HOther. induction ch; constructor; [apply IH|assumption].
Qed.
End node_induction.

Lemma truthy_default s : truthy s = true -> default [] s <> [].
Proof. by destruct s as [[|]|]. Qed.

Lemma keyword_results_spec fp stack ln callee kws a :
  In a (keyword_results fp stack ln callee kws) ->
  text a <> [] /\ line a = ln.
Proof.
  unfold keyword_results. intros (kw & _ & Ha)%in_flat_map.
  destruct (truthy (_extract_string kw.2)) eqn:E; [|done].
  destruct Ha as [<-|[]]. simpl. split; [by apply truthy_default|done].
Qed.

Lemma dict_results_spec fp stack ln callee ks vs a :
  In a (dict_results fp stack ln callee ks vs) -> text a <> [] /\ line a = ln.
Proof.
  unfold dict_results. destruct (_ && _); [|done].
  destruct (dict_scan ks vs) as [r t].
  destruct (truthy t) eqn:E; [|done].
  intros [<-|[]]. simpl. split; [by apply truthy_default|done].
Qed.

Lemma arg_results_spec fp stack ln callee args a :
  In a (arg_results fp stack ln callee args) -> text a <> [] /\ line a = ln.
Proof.
  unfold arg_results. intros (arg & _ & Ha)%in_flat_map.
  destruct arg; try done.
  - by eapply dict_results_spec.
  - apply in_flat_map in Ha as (elt & _ & Ha). destruct elt; try done.
    by eapply dict_results_spec.
Qed.

Lemma call_results_spec fp stack ln f args kws a :
  In a (call_results fp stack ln f args kws) -> text a <> [] /\ line a = ln.
Proof.
  unfold call_results. cbv zeta. destruct (is_llm_callee _); [|done].
  intros [?|?]%in_app_or; [by eapply keyword_results_spec|by eapply arg_results_spec].
Qed.

(** Every entry the visitor appends has a text that is not empty, and the
    line of a call of the tree. *)
Lemma visit_wellformed fp n : forall stack a,
  In a (visit fp stack n) ->
  text a <> [] /\ (linenos_positive n = true -> 1 <= line a).
Proof.
  assert (Hlist : forall (l : list node),
    Forall (fun n => forall stack a, In a (visit fp stack n) ->
              text a <> [] /\ (linenos_positive n = true -> 1 <= line a)) l ->
    forall stack a, In a (flat_map (visit fp stack) l) ->
      text a <> [] /\ (forallb linenos_positive l = true -> 1 <= line a)).
  { intros l Hl stack a (n0 & Hn0 & Ha)%in_flat_map.
    apply list_elem_of_In in Hn0.
    destruct (proj1 (Forall_forall _ _) Hl n0 Hn0 stack a Ha) as [Ht Hp].
    split; [done|]. intros Hall. apply Hp.
    apply (proj1 (forallb_forall _ _) Hall). by apply list_elem_of_In. }
  induction n as [id|v attr IH|s| |vs IH|v fs IHv IHfs|ks vs IHks IHvs|es IH
                 |ln f args kws IHf IHargs IHkws|name ch IH|name ch IH|ch IH]
    using node_ind; intros stack a Ha; cbn [visit linenos_positive] in *; try done.
  - exact (IH _ _ Ha).
  - by eapply Hlist.
  - apply in_app_or in Ha as [Ha|Ha].
    + destruct (IHv _ _ Ha) as [? Hp]. split; [done|].
      intros [? _]%andb_true_iff. by apply Hp.
    + destruct fs as [f|]; [|done]. destruct (IHfs _ _ Ha) as [? Hp]. split; [done|].
      intros [_ ?]%andb_true_iff. by apply Hp.
  - apply in_app_or in Ha as [Ha|Ha].
    + apply in_flat_map in Ha as ([k|] & Hk & Ha); [|done].
      apply list_elem_of_In in Hk.
      destruct (proj1 (Forall_forall _ _) IHks _ Hk stack a Ha) as [? Hp].
      split; [done|]. intros [Hall _]%andb_true_iff. apply Hp.
      apply (proj1 (forallb_forall _ _) Hall (Some k)). by apply list_elem_of_In.
    + destruct (Hlist _ IHvs _ _ Ha) as [? Hp]. split; [done|].
      intros [_ ?]%andb_true_iff. by apply Hp.
  - by eapply Hlist.
  - apply in_app_or in Ha as [Ha|Ha].
    { apply call_results_spec in Ha as [? ->]. split; [done|].
      intros [[[Hln _]%andb_true_iff _]%andb_true_iff _]%andb_true_iff.
      by apply Nat.leb_le. }
    apply in_app_or in Ha as [Ha|Ha].
    { destruct (IHf _ _ Ha) as [? Hp]. split; [done|].
      intros [[[_ ?]%andb_true_iff _]%andb_true_iff _]%andb_true_iff. by apply Hp. }
    apply in_app_or in Ha as [Ha|Ha].
    { destruct (Hlist _ IHargs _ _ Ha) as [? Hp]. split; [done|].
      intros [[_ ?]%andb_true_iff _]%andb_true_iff. by apply Hp. }
    apply in_flat_map in Ha as (kw & Hkw & Ha).
    apply list_elem_of_In in Hkw.
    destruct (proj1 (Forall_forall _ _) IHkws _ Hkw stack a Ha) as [? Hp].
    split; [done|]. intros [_ Hall]%andb_true_iff. apply Hp.
    apply (proj1 (forallb_forall _ _) Hall kw). by apply list_elem_of_In.
  - by eapply Hlist.
  - by eapply Hlist.
  - by eapply Hlist.
Qed.

Lemma visit_dotted_name fp stack f : is_dotted_name f = true -> visit fp stack f = [].
Proof.
  induction f using node_ind; simpl; done.
Qed.

(** The table of [_infer_role_from_kw]. *)
(** *** The visit, child by child *)

(** Induction over the child nodes. *)
Lemma node_children_ind (P : node -> Prop) :
  (forall n, Forall P (child_nodes n) -> P n) -> forall n, P n.
Proof.
  intros Hstep.
  induction n as [id|v attr IH|s| |vs IH|v fs IHv IHfs|ks vs IHks IHvs|es IH
                 |ln f args kws IHf IHargs IHkws|name ch IH|name ch IH|ch IH]
    using node_ind; apply Hstep; cbn [child_nodes]; try done.
  - by constructor.
  - constructor; [done|]. destruct fs; simpl; [by constructor|constructor].
  - apply Forall_app. split; [|done].
    induction IHks as [|[k|] ks Hk _ IH]; simpl; [constructor|by constructor|done].
  - constructor; [done|]. apply Forall_app. split; [done|]. by apply Forall_fmap.
Qed.

(** What a node appends itself, before its child nodes are visited with the
    stack that its own name, if it is a function definition, extends. *)
Lemma visit_children fp st n :
  visit fp st n
  = match n with
    | Call ln f args kws => call_results fp st ln f args kws
    | _ => []
    end
    ++ flat_map (visit fp (st ++ option_list (defined_name n))) (child_nodes n).
Proof.
  assert (Hkeys : forall ks : list (option node),
    flat_map (fun k => match k with Some k => visit fp st k | None => [] end) ks
    = flat_map (visit fp st) (omap id ks)).
  { induction ks as [|[k|] ks IH]; simpl; [done|by rewrite IH|done]. }
  assert (Hkws : forall kws : list (option (list N) * node),
    flat_map (fun kw => visit fp st kw.2) kws = flat_map (visit fp st) (map snd kws)).
  { induction kws as [|kw kws IH]; simpl; [done|by rewrite IH]. }
  destruct n as [id|v attr|s| |vs|v format_spec|ks vs|es|ln f args kws|name ch|name ch|ch];
    cbn [visit child_nodes defined_name option_list]; rewrite ?app_nil_r; try done.
  - simpl. by rewrite app_nil_r.
  - destruct format_spec; simpl; by rewrite ?app_nil_r.
  - by rewrite flat_map_app, Hkeys.
  - simpl. by rewrite flat_map_app, Hkws.
Qed.


(** Every entry of the tree is appended by a call that stands in it. *)
Lemma visit_inside fp tree : forall st a,
  In a (visit fp st tree) ->
  exists names ln f args kws,
    inside tree names (Call ln f args kws)
    /\ In a (call_results fp (st ++ names) ln f args kws).
Proof.
  induction tree as [tree IH] using node_children_ind. intros st a Ha.
  rewrite visit_children in Ha. apply in_app_or in Ha as [Ha|Ha].
  - destruct tree; try done.
    eexists [], _, _, _, _. split; [constructor|]. by rewrite app_nil_r.
  - apply in_flat_map in Ha as (child & Hchild & Ha).
    apply list_elem_of_In in Hchild.
    destruct (proj1 (Forall_forall _ _) IH child Hchild _ _ Ha)
      as (names & ln & f & args & kws & Hin & Hres).
    exists (option_list (defined_name tree) ++ names), ln, f, args, kws.
    split; [by econstructor|]. by rewrite app_assoc.
Qed.






End PythonExtractorFacts.

Module FsFacts.
Import Js Fs Extractor.

Section fsnode_induction.
Variable P : fsnode -> Prop.
Hypothesis HFile : forall size content, P (File size content).
Hypothesis HDir : forall r entries, Forall (fun e => P e.2) entries -> P (Dir r entries).
Hypothesis HSpecial : P Special.

Lemma fsnode_ind : forall n, P n.
Proof using All.
  fix IH 1. intros [size content|r entries|].
  - apply HFile.
  - apply HDir. induction entries as [|[name child] entries IHe]; constructor;
      [apply IH|assumption].
  - apply HSpecial.
Qed.
End fsnode_induction.









End FsFacts.

Module RouteFacts.
Import Js Fs Extractor AnalyzePrompts Route FsFacts.

(** *** [listAllFiles] keeps to its budget *)

Lemma list_loop_budget maxFiles dir entries : 
  Forall (fun e => within_budget maxFiles e.2) entries ->
  forall out out', list_loop maxFiles dir entries out = Some out' ->
    (Z.of_nat (length out') <= Z.max (Z.of_nat (length out)) maxFiles)%Z.
Proof.
  induction 1 as [|[[name child] w] entries Hw _ IH]; intros out out' H; simpl in H.
  - injection H as <-. lia.
  - destruct (Z.of_nat (length out) >=? maxFiles)%Z eqn:Hfull.
    { injection H as <-. lia. }
    rewrite Z.geb_leb in Hfull. apply Z.leb_gt in Hfull.
    case_decide; [by apply IH|].
    destruct (isDirectory child).
    + destruct (w _ out) as [out1|] eqn:Hw1; [|done].
      apply Hw in Hw1. apply IH in H. lia.
    + destruct (isFile child); [|by apply IH].
      apply IH in H. rewrite length_app in H. simpl in H. lia.
Qed.

Lemma list_walk_budget maxFiles n : within_budget maxFiles (list_walk maxFiles n).
Proof.
  induction n as [size content|r entries IH|] using fsnode_ind;
    intros dir out out' H; simpl in H; try done.
  destruct r; [|done].
  eapply list_loop_budget; [|exact H].
  apply Forall_map. simpl. exact IH.
Qed.

(** The flat list never has more than [maxFiles] entries (none when
    [maxFiles] is not positive). *)
Lemma listAllFiles_budget fs root maxFiles files :
  listAllFiles fs root maxFiles = Some files ->
  (Z.of_nat (length files) <= Z.max 0 maxFiles)%Z.
Proof.
  unfold listAllFiles, list_files.
  destruct (list_walk maxFiles fs root []) as [out|] eqn:E; [|done].
  intros [= <-]. rewrite length_map. by apply list_walk_budget in E.
Qed.


(** *** How far [buildFileTree] goes over its budget *)

Lemma count_below_app name path (children : list FileTreeNode) c :
  count_below (TreeDir name path (children ++ [c]))
  = count_below (TreeDir name path children) + S (count_below c).
Proof. simpl. rewrite map_app, list_sum_app. simpl. lia. Qed.

Section tree_budget.
Variable localeCompare : list N -> list N -> Z.
Variables maxDepth maxNodes : Z.

Lemma insert_entry_Forall {A} (P : list N * A -> Prop) e sorted :
P e -> Forall P sorted -> Forall P (insert_entry localeCompare e sorted).
Proof.
intros He. induction 1 as [|e' rest He' Hrest IH]; simpl; [by constructor|].
destruct (localeCompare e.1 e'.1 <=? 0)%Z; repeat constructor; done.
Qed.

Lemma sort_entries_Forall {A} (P : list N * A -> Prop) entries :
Forall P entries -> Forall P (sort_entries localeCompare entries).
Proof.
induction 1 as [|e rest He _ IH]; simpl; [done|]. by apply insert_entry_Forall.
Qed.

Lemma tree_loop_budget dirPath depth entries :
(depth <= maxDepth)%Z ->
Forall (fun e => tree_walker_ok maxDepth maxNodes e.2.2) entries ->
forall children nodeCount,
  (nodeCount <= maxNodes + (maxDepth - depth))%Z ->
  let '(children', nodeCount') :=
    tree_loop maxNodes dirPath depth entries children nodeCount in
  (nodeCount' + Z.of_nat (list_sum (map (fun c => S (count_below c)) children))
   = nodeCount + Z.of_nat (list_sum (map (fun c => S (count_below c)) children')))%Z
  /\ (nodeCount' <= maxNodes + (maxDepth - depth))%Z.
Proof.
intros Hd. induction 1 as [|[name [child w]] entries Hw _ IH];
  intros children nodeCount Hc; simpl; [done|].
destruct (nodeCount >=? maxNodes)%Z eqn:Hfull; [done|].
rewrite Z.geb_leb in Hfull. apply Z.leb_gt in Hfull.
case_decide; [by apply IH|].
destruct (mentions_prisma _); [by apply IH|].
destruct (isDirectory child).
- specialize (Hw (path_join dirPath name) (depth + 1)%Z nodeCount). simpl in Hw.
  destruct (w _ _ _) as [sub nodeCount1]. destruct Hw as (Hcount & Hstop & Hbound).
  assert (Hc1 : (nodeCount1 + 1 <= maxNodes + (maxDepth - depth))%Z).
  { destruct (decide (depth + 1 > maxDepth)%Z) as [Hdeep|Hshallow].
    - rewrite Hstop by (by left). lia.
    - lia. }
  specialize (IH (children ++ [sub]) (nodeCount1 + 1)%Z Hc1).
  destruct (tree_loop _ _ _ _ _ _) as [children' nodeCount'].
  destruct IH as [IH1 IH2]. split; [|done].
  rewrite map_app, list_sum_app in IH1. simpl in IH1. lia.
- destruct (isFile child); [|by apply IH].
  specialize (IH (children ++ [TreeFile name (path_join dirPath name)])
                 (nodeCount + 1)%Z ltac:(lia)).
  destruct (tree_loop _ _ _ _ _ _) as [children' nodeCount'].
  destruct IH as [IH1 IH2]. split; [|done].
  rewrite map_app, list_sum_app in IH1. simpl in IH1. lia.
Qed.

Lemma tree_walk_ok n :
tree_walker_ok maxDepth maxNodes (tree_walk localeCompare maxDepth maxNodes n).
Proof.
induction n as [size content|r entries IH|] using fsnode_ind;
  intros dirPath depth nodeCount; cbn [tree_walk]; cbv zeta.
1,3: destruct (_ || _); simpl; (split; [lia|split; [done|lia]]).
destruct ((depth >? maxDepth)%Z || (nodeCount >=? maxNodes)%Z) eqn:Hstop.
{ simpl. split; [lia|split; [done|lia]]. }
apply orb_false_iff in Hstop as [Hd Hc].
rewrite Z.gtb_ltb in Hd. apply Z.ltb_ge in Hd.
rewrite Z.geb_leb in Hc. apply Z.leb_gt in Hc.
destruct r; [|simpl; split; [lia|split; [lia|lia]]].
pose proof (tree_loop_budget dirPath depth
              (sort_entries localeCompare
                 (map (fun e => (e.1, (e.2, tree_walk localeCompare maxDepth maxNodes e.2)))
                      entries))
              Hd) as Hloop.
specialize (Hloop ltac:(apply sort_entries_Forall, Forall_map; exact IH)
                  [] nodeCount ltac:(lia)).
destruct (tree_loop _ _ _ _ _ _) as [children nodeCount'].
destruct Hloop as [H1 H2]. simpl in H1. simpl.
split; [lia|]. split; [lia|lia].
Qed.

(** The tree has at most [maxNodes + maxDepth - 1] nodes below its root. *)
Lemma buildFileTree_size fs root :
(Z.of_nat (count_below (buildFileTree localeCompare maxDepth maxNodes fs root))
 <= Z.max 0 (maxNodes + Z.max 0 (maxDepth - 1)))%Z.
Proof.
unfold buildFileTree. pose proof (tree_walk_ok fs root 1%Z 0%Z) as H.
destruct (tree_walk _ _ _ _ _ _ _) as [node nodeCount]. simpl.
destruct H as (H1 & _ & H2). lia.
Qed.
End tree_budget.

End RouteFacts.

Module ScanRunFacts.
Import Js Fs Extractor AnalyzePrompts Route FsFacts RouteFacts Examples.

Lemma secret_contribution_spec f :
  length (secret_contribution f) <= 5
  /\ Forall (fun s => SecretsScan.sf_filePath s = f.1) (secret_contribution f).
Proof.
  unfold secret_contribution. destruct (mentions_prisma f.1); [split; [simpl; lia|done]|].
  destruct f.2 as [size [content|]| |]; try (split; [simpl; lia|done]).
  destruct (size >? 1024 * 1024)%Z; [split; [simpl; lia|done]|].
  split; [rewrite length_take; lia|].
  apply Forall_forall. intros s Hs.
  apply (fun H => elem_of_sublist _ _ _ H (sublist_take _ _)), list_elem_of_In in Hs.
  by eapply SecretsScanFacts.scanTextForSecrets_path.
Qed.

Lemma hit_contribution_spec f :
  length (hit_contribution f) <= 10
  /\ Forall (fun h => PromptKeywordScan.filePath h = f.1) (hit_contribution f).
Proof.
  unfold hit_contribution. destruct (mentions_prisma f.1); [split; [simpl; lia|done]|].
  destruct f.2 as [size [content|]| |]; try (split; [simpl; lia|done]).
  destruct (size >? 1024 * 1024)%Z; [split; [simpl; lia|done]|].
  split; [rewrite length_take; lia|].
  apply Forall_forall. intros s Hs.
  apply (fun H => elem_of_sublist _ _ _ H (sublist_take _ _)), list_elem_of_In in Hs.
  by eapply LineHeuristicFacts.scan_hits_path.
Qed.

(** One turn of the loop, while the secrets are not over 200. *)
Lemma file_loop_cons f files sf ph :
  length sf <= 200 ->
  file_loop (f :: files) sf ph
  = let sf' := sf ++ secret_contribution f in
    let ph' := ph ++ hit_contribution f in
    if 200 <? length sf' then (sf', ph') else file_loop files sf' ph'.
Proof.
  intros Hsf. destruct f as [file node].
  assert (Hle : (200 <? length sf) = false) by (by apply Nat.ltb_ge).
  unfold secret_contribution, hit_contribution.
  cbn [file_loop fst snd]. cbv zeta.
  destruct (mentions_prisma file); [by rewrite !app_nil_r, Hle|].
  destruct node as [size [content|]| |]; try (by rewrite !app_nil_r, Hle).
  destruct (size >? 1024 * 1024)%Z; [by rewrite !app_nil_r, Hle|].
  set (findings := SecretsScan.scanTextForSecrets content file).
  set (promptHits := PromptKeywordScan.scanTextForPromptKeywords content file).
  assert (Hs : (if 0 <? length findings then sf ++ take 5 findings else sf)
               = sf ++ take 5 findings).
  { destruct findings; simpl; [by rewrite app_nil_r|done]. }
  assert (Hh : (if 0 <? length promptHits then ph ++ take 10 promptHits else ph)
               = ph ++ take 10 promptHits).
  { destruct promptHits; simpl; [by rewrite app_nil_r|done]. }
  by rewrite Hs, Hh.
Qed.

(** The loop adds, file by file, the contributions of the files it visits:
    those of the list up to the one at which the total of the secrets went
    over 200, if any. *)
Lemma file_loop_contributions files : forall sf ph,
  length sf <= 200 ->
  exists scanned rest,
    files = scanned ++ rest
    /\ file_loop files sf ph
       = (sf ++ flat_map secret_contribution scanned,
          ph ++ flat_map hit_contribution scanned)
    /\ length (sf ++ flat_map secret_contribution scanned) <= 205.
Proof.
  induction files as [|f files IH]; intros sf ph Hsf.
  - exists [], []. simpl. rewrite !app_nil_r. split; [done|]. split; [done|]. lia.
  - rewrite file_loop_cons by done. cbv zeta.
    destruct (secret_contribution_spec f) as [H5 _].
    destruct (200 <? length (sf ++ secret_contribution f)) eqn:E.
    + exists [f], files. simpl. rewrite !app_nil_r. split; [done|]. split; [done|].
      rewrite length_app. lia.
    + apply Nat.ltb_ge in E.
      destruct (IH (sf ++ secret_contribution f) (ph ++ hit_contribution f) E)
        as (scanned & rest & -> & -> & Hlen).
      exists (f :: scanned), rest. simpl. rewrite <- !app_assoc in *. done.
Qed.

End ScanRunFacts.

Module PipelineFacts.
Import Js Fs Extractor AnalyzePrompts Route FsFacts RouteFacts ScanRunFacts Examples.


Lemma scan_python rt targetDir useModel fs :
  extracted_python (scan rt targetDir useModel fs).2
  = match (extractPythonPrompts (rt_script rt) (rt_elsewhere rt) (rt_python3 rt)
                                (rt_parse_prompts rt) targetDir fs).2 with
    | Resolved parsed => parsed
    | Rejected => []
    end.
Proof.
  unfold scan. destruct (extractPythonPrompts _ _ _ _ _ _) as [fs1 e].
  by destruct (match list_files fs1 targetDir 3000 with Some _ => _ | None => _ end).
Qed.

Lemma scan_findings rt targetDir useModel fs :
  (secrets (scan rt targetDir useModel fs).2,
   prompts_keywords (scan rt targetDir useModel fs).2)
  = match list_files (scan rt targetDir useModel fs).1 targetDir 3000 with
    | Some files => file_loop files [] []
    | None => ([], [])
    end.
Proof.
  unfold scan. destruct (extractPythonPrompts _ _ _ _ _ _) as [fs1 e].
  destruct (match list_files fs1 targetDir 3000 with Some _ => _ | None => _ end)
    as [sf ph] eqn:E.
  simpl. by rewrite E.
Qed.




(** Both conditions are needed.  On a host whose child process removes what
    it finds, and where a link at [.tmp-extractor] leads the writes to the
    directory [a], the scan leaves other entries changed. *)
Example a_child_that_writes :
  off_the_tree (str "/repo") nested_tree = false
  /\ (scan meddling_runtime (str "/repo") false nested_tree).1 = Dir true [].
Proof. split; reflexivity. Qed.

Example a_link_at_tmp_extractor :
  off_the_tree (str "/repo") linked_tree = true
  /\ lookup_entry (str "a") (entries_of linked_tree) = Some (Dir true [])
  /\ lookup_entry (str "a")
       (entries_of (scan linking_runtime (str "/repo") false linked_tree).1)
     = Some (Dir true [(script_name, File 10 (Some (rt_script linking_runtime)))]).
Proof. repeat split; reflexivity. Qed.

(** C2, at an input where the tree goes over its budget: with [maxNodes = 1]
    a directory that holds one file gives a tree of two nodes below the
    root, for the directory is counted only after its file. *)
Theorem buildFileTree_exceeds_maxNodes (localeCompare : list N -> list N -> Z) :
  count_below (buildFileTree localeCompare 8 1 nested_tree (str "/repo")) = 2.
Proof. reflexivity. Qed.

(** C3, as the code has it.  When the extractor process exits with a status
    other than zero, or its output does not parse, [extractPythonPrompts]
    rejects -- it raises to its caller -- and the scan, which catches that,
    returns its response with an empty list of structural artifacts. *)
Theorem extractor_failure_degrades_in_scan
    (rt : runtime) (targetDir : list N) (useModel : bool) (fs : fsnode) :
  let proc := rt_python3 rt (ensurePythonScript (rt_script rt) (rt_elsewhere rt)
                                                targetDir fs).1 in
  exit_code proc <> 0%Z \/ rt_parse_prompts rt (stdout proc) = None ->
  (extractPythonPrompts (rt_script rt) (rt_elsewhere rt) (rt_python3 rt)
                        (rt_parse_prompts rt) targetDir fs).2 = Rejected
  /\ extracted_python (scan rt targetDir useModel fs).2 = [].
Proof.
  intros proc Hfail.
  assert (Hrej : (extractPythonPrompts (rt_script rt) (rt_elsewhere rt) (rt_python3 rt)
                    (rt_parse_prompts rt) targetDir fs).2 = Rejected).
  { unfold extractPythonPrompts. subst proc.
    destruct (ensurePythonScript (rt_script rt) (rt_elsewhere rt) targetDir fs)
      as [fs1 [p|]];
      simpl in *; [|done].
    destruct (exit_code (rt_python3 rt fs1) =? 0)%Z eqn:E; simpl; [|done].
    apply Z.eqb_eq in E. destruct Hfail as [Hne| ->]; [done|done]. }
  split; [done|]. by rewrite scan_python, Hrej.
Qed.

(** The statement of C3 on a process that exits with status 1. *)
Lemma extractor_failure_degrades_in_scan_example :
  (extractPythonPrompts (rt_script failing_runtime) (rt_elsewhere failing_runtime)
     (rt_python3 failing_runtime) (rt_parse_prompts failing_runtime)
     (str "/repo") nested_tree).2 = Rejected
  /\ extracted_python (scan failing_runtime (str "/repo") false nested_tree).2 = [].
Proof.
  apply (extractor_failure_degrades_in_scan failing_runtime (str "/repo") false nested_tree).
  right. reflexivity.
Defined.

(** C3 as stated fails: on a process that exits with status 1 the extractor
    does not yield an empty list, it rejects. *)
Lemma extractPythonPrompts_rejects :
  exit_code (rt_python3 failing_runtime nested_tree) = 1%Z
  /\ (extractPythonPrompts (rt_script failing_runtime) (rt_elsewhere failing_runtime)
        (rt_python3 failing_runtime) (rt_parse_prompts failing_runtime)
        (str "/repo") nested_tree).2
     <> Resolved [].
Proof. split; [reflexivity|]. vm_compute. discriminate. Qed.

(** *** [analyzePromptContext] *)

Lemma indexOf_first (pre rest : list N) c :
  c ∉ pre -> indexOf (pre ++ c :: rest) c = Some (length pre).
Proof.
  induction pre as [|a pre IH]; intros Hc; simpl.
  - by rewrite N.eqb_refl.
  - apply not_elem_of_cons in Hc as [Hne Hc].
    rewrite (proj2 (N.eqb_neq a c)) by done. by rewrite IH.
Qed.

Lemma lastIndexOf_none (s : list N) c : c ∉ s -> lastIndexOf s c = None.
Proof.
  induction s as [|a s IH]; intros Hc; simpl; [done|].
  apply not_elem_of_cons in Hc as [Hne Hc].
  rewrite IH by done. by rewrite (proj2 (N.eqb_neq a c)).
Qed.

Lemma lastIndexOf_last (pre post : list N) c :
  c ∉ post -> lastIndexOf (pre ++ c :: post) c = Some (length pre).
Proof.
  intros Hc. induction pre as [|a pre IH]; simpl.
  - by rewrite lastIndexOf_none, N.eqb_refl.
  - by rewrite IH.
Qed.

(** The span handed to the parser is the outermost one: text before the
    first opening brace and after the last closing brace is dropped. *)
Lemma json_span_outermost (pre mid post : list N) :
  123%N ∉ pre -> 125%N ∉ post ->
  json_span (pre ++ [123%N] ++ mid ++ [125%N] ++ post) = [123%N] ++ mid ++ [125%N].
Proof.
  intros Hpre Hpost. unfold json_span. cbn [app].
  rewrite (indexOf_first pre _ 123%N Hpre).
  replace (pre ++ 123%N :: mid ++ 125%N :: post)
    with ((pre ++ 123%N :: mid) ++ 125%N :: post) by (by rewrite <- app_assoc).
  rewrite (lastIndexOf_last _ post 125%N Hpost).
  unfold slice. rewrite <- app_assoc, drop_app_length.
  replace ((123%N :: mid) ++ 125%N :: post) with ((123%N :: mid ++ [125%N]) ++ post)
    by (simpl; by rewrite <- app_assoc).
  apply take_app_length'. rewrite length_app. simpl. rewrite length_app. simpl. lia.
Qed.

(** C9.  [analyzePromptContext] always resolves (nothing is thrown to the
    caller).  Without a credential it resolves to null at once, no request
    made.  It resolves to an analysis only when the service answered with a
    content, the span from the first opening to the last closing brace of
    that content parsed, the parsed value has a summary and its files are
    an array; when the span does not parse or a validation fails it
    resolves to null. *)
Theorem analyzePromptContext_never_throws
    (OPENAI_API_KEY OPENAI_MODEL : option (list N)) (service : Request -> reply)
    (JSON_parse : list N -> option json) (input : AnalysisInput) :
  let res := analyzePromptContext OPENAI_API_KEY OPENAI_MODEL service JSON_parse input in
  (exists v, res.2 = Resolved v)
  /\ ((OPENAI_API_KEY = None \/ OPENAI_API_KEY = Some []) -> res = ([], Resolved None))
  /\ (forall apiKey content,
        OPENAI_API_KEY = Some apiKey -> apiKey <> [] ->
        service (build_request OPENAI_MODEL apiKey input) = Reply (Some content) ->
        content <> [] ->
        res.2 = Resolved
                  match JSON_parse (json_span content) with
                  | Some parsed =>
                      if truthy (get_field (str "summary") parsed)
                         && isArray (get_field (str "files") parsed)
                      then Some parsed else None
                  | None => None
                  end)
  /\ (forall analysis,
        res.2 = Resolved (Some analysis) ->
        exists apiKey content,
          OPENAI_API_KEY = Some apiKey /\ apiKey <> []
          /\ service (build_request OPENAI_MODEL apiKey input) = Reply (Some content)
          /\ JSON_parse (json_span content) = Some analysis
          /\ truthy (get_field (str "summary") analysis) = true
          /\ isArray (get_field (str "files") analysis) = true)
  /\ (forall pre mid post,
        123%N ∉ pre -> 125%N ∉ post ->
        json_span (pre ++ [123%N] ++ mid ++ [125%N] ++ post) = [123%N] ++ mid ++ [125%N]).
Proof.
  cbv zeta. unfold analyzePromptContext.
  split; [|split; [|split; [|split]]].
  - destruct OPENAI_API_KEY as [[|c k]|]; simpl; eauto.
    destruct (read_reply _ _); simpl; eauto.
  - by intros [-> | ->].
  - intros apiKey content -> Hk Hs Hc. destruct apiKey as [|c k]; [done|].
    rewrite Hs. unfold read_reply. destruct content as [|d content]; [done|].
    destruct (JSON_parse _) as [parsed|]; [|done].
    destruct (truthy _), (isArray _); done.
  - intros analysis Hres.
    destruct OPENAI_API_KEY as [[|c k]|]; [done| |done].
    exists (c :: k).
    destruct (service _) as [|[[|d content]|]] eqn:Hs; simpl in Hres; try done.
    exists (d :: content).
    destruct (JSON_parse _) as [parsed|] eqn:Hp; [|done].
    destruct (truthy _) eqn:Ht, (isArray _) eqn:Ha; simpl in Hres; try done.
    injection Hres as <-. done.
  - apply json_span_outermost.
Qed.

(** C10.  The secrets and the lexical hits of the response are the
    contributions of the files visited, in order: of a first part of the
    list of files (none when listing failed).  A file contributes at most 5
    secrets and at most 10 hits, all under its own path.  The secrets never
    number more than 205; and 205, more than the cap of 200, is reached. *)
Theorem scan_finding_caps :
  (forall rt targetDir useModel fs,
     let res := scan rt targetDir useModel fs in
     (exists scanned,
        (scanned = [] \/ exists rest, list_files res.1 targetDir 3000 = Some (scanned ++ rest))
        /\ secrets res.2 = flat_map secret_contribution scanned
        /\ prompts_keywords res.2 = flat_map hit_contribution scanned)
     /\ length (secrets res.2) <= 205)
  /\ (forall f,
        length (secret_contribution f) <= 5 /\ length (hit_contribution f) <= 10
        /\ Forall (fun s => SecretsScan.sf_filePath s = f.1) (secret_contribution f)
        /\ Forall (fun h => PromptKeywordScan.filePath h = f.1) (hit_contribution f))
  /\ (exists rt targetDir useModel fs,
        200 < length (secrets (scan rt targetDir useModel fs).2)).
Proof.
  split; [|split].
  - intros rt targetDir useModel fs res.
    pose proof (scan_findings rt targetDir useModel fs) as H. fold res in H.
    destruct (list_files res.1 targetDir 3000) as [files|].
    + destruct (file_loop_contributions files [] []) as (scanned & rest & -> & Hl & Hlen);
        [simpl; lia|].
      rewrite Hl in H. simpl in H, Hlen. injection H as -> ->.
      split; [|done]. exists scanned. split; [right; by exists rest|done].
    + injection H as -> ->. split; [|simpl; lia]. exists []. split; [by left|done].
  - intros f. destruct (secret_contribution_spec f), (hit_contribution_spec f). done.
  - exists failing_runtime, (str "/repo"), false, many_secrets_tree.
    vm_compute. lia.
Qed.


(** *** The two extractors *)




(** C8, as the code has it.  Every hit of the lexical scanner has a line
    number from 1 on, and every hit of its line heuristics has a snippet
    that is not empty (a block hit has the delimited text as its snippet,
    empty when the delimiters enclose nothing).  Every entry of the
    structural extractor has a text that is not empty, and a line number
    from 1 on when the line numbers of the parsed tree are. *)
Theorem artifacts_wellformed :
  (forall text filePath h,
     In h (PromptKeywordScan.scanTextForPromptKeywords text filePath) ->
     1 <= PromptKeywordScan.line h
     /\ (PromptKeywordScan.is_keyword_label (PromptKeywordScan.matchLabel h) ->
         PromptKeywordScan.snippet h <> []))
  /\ (forall file_path tree a,
        In a (PythonExtractor.extract_from_file file_path (Some tree)) ->
        PythonExtractor.text a <> []
        /\ (PythonExtractor.linenos_positive tree = true -> 1 <= PythonExtractor.line a)).
Proof.
  split.
  - intros text filePath h. apply LineHeuristicFacts.scan_hits_wellformed.
  - intros file_path tree a. apply PythonExtractorFacts.visit_wellformed.
Qed.

(** C8 as stated fails: an empty template literal gives a block hit whose
    snippet is empty. *)
Lemma block_hit_with_empty_snippet :
  exists h,
    In h (PromptKeywordScan.scanTextForPromptKeywords
            (str "system: ``") (str "prompt.ts"))
    /\ PromptKeywordScan.snippet h = [].
Proof. eexists. split; [left; vm_compute; reflexivity|reflexivity]. Qed.

End PipelineFacts.

(** Runs of the three scanners on small inputs. *)
Module Tests.
Import Js Examples.

(** One token of each kind, on three lines. *)
Example secrets_on_three_lines :
  SecretsScan.scanTextForSecrets
    (str "key = sk-abcdefghijklmnopqrstuvwx;" ++ [10%N]
     ++ str "Authorization: Bearer abc.def-1" ++ [10%N]
     ++ str "see https://api.example.com/v1/token=42 now")
    (str ".env")
  = [ {| SecretsScan.sf_match := str "sk-abcdefghijklmnopqrstuvwx";
         SecretsScan.sf_filePath := str ".env"; SecretsScan.sf_line := 1 |};
      {| SecretsScan.sf_match := str "Bearer abc.def-1";
         SecretsScan.sf_filePath := str ".env"; SecretsScan.sf_line := 2 |};
      {| SecretsScan.sf_match := str "https://api.example.com/v1/token=42";
         SecretsScan.sf_filePath := str ".env"; SecretsScan.sf_line := 3 |} ].
Proof. vm_compute. reflexivity. Qed.

(** Two tokens on one line are both reported. *)
Example two_secrets_on_one_line :
  map SecretsScan.sf_match
    (SecretsScan.scanTextForSecrets
       (str "Bearer one, then Bearer two") (str "notes.txt"))
  = [str "Bearer one"; str "Bearer two"].
Proof. vm_compute. reflexivity. Qed.

(** A template literal after [system:] and, elsewhere, a line with [role]
    and [system]: a block hit with the literal as it stands, and a line hit
    with the three lines normalized. *)
Example block_hit_and_line_hit :
  PromptKeywordScan.scanTextForPromptKeywords
    (str "const cfg = {" ++ [10%N]
     ++ str "  system: `Be brief.  Be kind.`," ++ [10%N]
     ++ str "};" ++ [10%N]
     ++ str "// role   system")
    (str "cfg.ts")
  = [ {| PromptKeywordScan.filePath := str "cfg.ts"; PromptKeywordScan.line := 2;
         PromptKeywordScan.matchLabel := str "js_ts_system_template_literal";
         PromptKeywordScan.snippet := str "Be brief.  Be kind." |};
      {| PromptKeywordScan.filePath := str "cfg.ts"; PromptKeywordScan.line := 4;
         PromptKeywordScan.matchLabel := str "role_system";
         PromptKeywordScan.snippet := str "}; // role system" |} ].
Proof. vm_compute. reflexivity. Qed.

(** The same block twice on a line: the second has the key of the first. *)
Example repeated_block_suppressed :
  map PromptKeywordScan.snippet
    (PromptKeywordScan.scanTextForPromptKeywords
       (str "system: `a` system: `a`") (str "p.ts"))
  = [str "a"].
Proof. vm_compute. reflexivity. Qed.

(** A messages list with one system message, inside a function. *)
Example messages_list :
  PythonExtractor.visit (str "bot.py") []
    (PythonExtractor.FunctionDef (str "ask")
       [ PythonExtractor.Other
           [ PythonExtractor.Call 7 chat_create
               [ PythonExtractor.List_
                   [ PythonExtractor.Dict
                       [ Some (PythonExtractor.ConstantStr (str "role"));
                         Some (PythonExtractor.ConstantStr (str "content")) ]
                       [ PythonExtractor.ConstantStr (str "system");
                         PythonExtractor.ConstantStr (str "Be concise.") ] ] ]
               [ (Some (str "model"), PythonExtractor.Name (str "MODEL")) ] ] ])
  = [ {| PythonExtractor.role := str "system";
         PythonExtractor.text := str "Be concise.";
         PythonExtractor.filePath := str "bot.py";
         PythonExtractor.line := 7;
         PythonExtractor.functionName := Some (str "ask");
         PythonExtractor.callSignature := str "client.chat.completions.create" |} ].
Proof. vm_compute. reflexivity. Qed.

(** The flat list stops at its budget; the ignored names are passed over. *)
Example listing_with_budget :
  Route.listAllFiles
    (Fs.Dir true
       [ (str "b.txt", Fs.File 1 (Some (str "x")));
         (str ".git", Fs.Dir true [(str "HEAD", Fs.File 1 (Some (str "x")))]);
         (str "src", Fs.Dir true [ (str "f.py", Fs.File 1 (Some (str "x")));
                                   (str "g.py", Fs.File 1 (Some (str "x"))) ]) ])
    (str "/repo") 2
  = Some [str "/repo/b.txt"; str "/repo/src/f.py"].
Proof. vm_compute. reflexivity. Qed.

(** [join] of node:path: a separator at the end of the directory path, and
    segments [.] and [..] in it, do not show in the path of the entry. *)
Example join_normalizes :
  Fs.path_join (str "/repo") (str "a") = str "/repo/a"
  /\ Fs.path_join (str "/repo/") (str "a") = str "/repo/a"
  /\ Fs.path_join (str "/srv/Prisma-up/../demo2") (str "f") = str "/srv/demo2/f"
  /\ Fs.path_join (str "./") (str "a") = str "a"
  /\ Fs.path_join (str "../x//y/.") (str "a") = str "../x/y/a"
  /\ Fs.path_join (str "/") (str "..") = str "/".
Proof. repeat split; vm_compute; reflexivity. Qed.

End Tests.

Module TrimFacts.
Import Js Notions.

Lemma trim_start_split s : exists ws, s = ws ++ trim_start s /\ all_space ws.
Proof.
  induction s as [|c s (ws & Hs & Hws)]; [exists []; split; [done|constructor]|].
  simpl. destruct (is_space c) eqn:Hc.
  - exists (c :: ws). split; [simpl; by f_equal|by constructor].
  - exists []. split; [done|constructor].
Qed.

Lemma trim_start_head s c r : trim_start s = c :: r -> is_space c = false.
Proof.
  induction s as [|d s IH]; [done|]. simpl.
  destruct (is_space d) eqn:Hd; [done|]. by intros [= <- _].
Qed.

Lemma trim_start_id s :
  (forall c r, s = c :: r -> is_space c = false) -> trim_start s = s.
Proof. destruct s as [|c r]; [done|]. intros H. simpl. by rewrite (H c r). Qed.

Lemma trim_start_idem s : trim_start (trim_start s) = trim_start s.
Proof. apply trim_start_id. intros c r. apply trim_start_head. Qed.

Lemma all_space_rev ws : all_space ws -> all_space (rev ws).
Proof.
  unfold all_space. rewrite !Forall_forall. intros H c Hc. apply H.
  by apply list_elem_of_In, in_rev, list_elem_of_In.
Qed.

(** [trim] takes white space off both ends and nothing else. *)
Lemma trim_spec s :
  exists a b, s = a ++ trim s ++ b /\ all_space a /\ all_space b /\ trimmed (trim s).
Proof.
  unfold trim.
  destruct (trim_start_split s) as (a & Hs & Ha).
  destruct (trim_start_split (rev (trim_start s))) as (b & Hu & Hb).
  set (u := trim_start s) in *. set (v := trim_start (rev u)) in *.
  assert (Hu' : u = rev v ++ rev b).
  { rewrite <- (rev_involutive u), Hu. by rewrite rev_app_distr. }
  exists a, (rev b). split; [by rewrite <- Hu'|]. split; [done|].
  split; [by apply all_space_rev|].
  split.
  - apply trim_start_id. intros c r Hc. rewrite Hc in Hu'. simpl in Hu'.
    by apply (trim_start_head s c (r ++ rev b)).
  - rewrite rev_involutive. apply trim_start_idem.
Qed.

Lemma trim_trimmed t : trimmed t -> trim t = t.
Proof. intros [H1 H2]. unfold trim. by rewrite H1, H2, rev_involutive. Qed.

Lemma trim_idem s : trim (trim s) = trim s.
Proof. destruct (trim_spec s) as (_ & _ & _ & _ & _ & H). by apply trim_trimmed. Qed.


(** A string that is trimmed and not empty starts and ends with a character
    that is not white space. *)
Lemma trimmed_ends t c r : trimmed t -> t = c :: r ->
  is_space c = false /\ is_space (List.last t c) = false.
Proof.
  intros [H1 H2] ->. split; [by eapply trim_start_head|].
  destruct (rev (c :: r)) as [|d q] eqn:E.
  { apply (f_equal (@length N)) in E. rewrite length_rev in E. done. }
  apply (f_equal (@rev N)) in E. rewrite rev_involutive in E. rewrite E.
  simpl. rewrite last_last. by eapply trim_start_head.
Qed.

End TrimFacts.

(** * Facts about the matcher used for the patterns of [bodySchema] *)
Module MatcherFacts.
Import Js Regex RegexFacts.

Lemma in_cat ic r1 r2 x y :
  In y (rmatches ic (Cat r1 r2) x)
  <-> exists z, In z (rmatches ic r1 x) /\ In y (rmatches ic r2 z).
Proof. cbn [rmatches]. apply in_flat_map. Qed.

Lemma in_group ic n r x y :
  In y (rmatches ic (Group n r) x)
  <-> exists z, In z (rmatches ic r x) /\ after y = after z /\ before y = before z
                /\ y = MState (before z) (after z) ((n, consumed x z) :: captures z).
Proof.
  cbn [rmatches]. rewrite in_map_iff. split.
  - intros (z & <- & Hz). by exists z.
  - intros (z & Hz & _ & _ & ->). by exists z.
Qed.

(** A literal word, case observed, takes exactly itself off the input. *)
Lemma in_lit w : forall x y,
  In y (rmatches false (lit w) x)
  <-> after x = w ++ after y /\ before y = rev w ++ before x /\ captures y = captures x.
Proof.
  induction w as [|c w IH]; intros x y.
  - simpl. split.
    + intros [<-|[]]. done.
    + intros (Ha & Hb & Hc). left. destruct x, y; simpl in *. by subst.
  - assert (Hone : In y (rmatches false (Lit c) x)
                   <-> after x = c :: after y /\ before y = c :: before x
                       /\ captures y = captures x).
    { cbn [rmatches]. destruct (after x) as [|a rest] eqn:E; [split; [done|by intros [? _]]|].
      unfold char_eq. destruct (a =? c)%N eqn:Hac.
      - apply N.eqb_eq in Hac as ->. split.
        + intros [<-|[]]. done.
        + intros ([= ->] & Hb & Hc). left. unfold step. destruct y; simpl in *. by subst.
      - split; [done|]. intros ([= ->] & _). by rewrite N.eqb_refl in Hac. }
    destruct w as [|d w].
    + simpl lit. rewrite Hone. done.
    + change (lit (c :: d :: w)) with (Cat (Lit c) (lit (d :: w))).
      rewrite in_cat. split.
      * intros (z & Hz & Hy). apply IH in Hy as (Ha & Hb & Hc).
        cbn [rmatches] in Hz. destruct (after x) as [|a rest] eqn:E; [done|].
        unfold char_eq in Hz. destruct (a =? c)%N eqn:Hac; [|done].
        apply N.eqb_eq in Hac as ->. destruct Hz as [<-|[]]. simpl in *.
        split; [by rewrite Ha|]. split; [|done].
        rewrite Hb. by rewrite <- !app_assoc.
      * intros (Ha & Hb & Hc).
        exists (step x c (d :: w ++ after y)). split.
        { cbn [rmatches]. rewrite Ha. simpl. unfold char_eq. rewrite N.eqb_refl. by left. }
        apply IH. simpl. split; [done|]. split; [|done].
        rewrite Hb. simpl. by rewrite <- !app_assoc.
Qed.

Section charset.
Variable ic : bool.
Variable p : N -> bool.

(** What a repetition of a character class without upper bound takes:
    characters of the class, at least the minimum. *)
Lemma rep_charset_sound greedy fuel : forall mn x y,
  In y (rep (rmatches ic (CharSet p)) greedy fuel mn None x) ->
  exists w, Forall (fun c => p c = true) w /\ mn <= length w
            /\ after x = w ++ after y /\ captures y = captures x.
Proof.
  induction fuel as [|fuel IH]; intros mn x y Hy; [done|].
  cbn [rep] in Hy.
  assert (Hmore : In y (flat_map
            (fun z => if (mn =? 0) && (length (after z) =? length (after x)) then []
                      else rep (rmatches ic (CharSet p)) greedy fuel (pred mn) None z)
            (rmatches ic (CharSet p) x)) ->
          exists w, Forall (fun c => p c = true) w /\ mn <= length w
                    /\ after x = w ++ after y /\ captures y = captures x).
  { intros (z & Hz & Hin)%in_flat_map.
    cbn [rmatches] in Hz. destruct (after x) as [|a rest] eqn:E; [done|].
    destruct (p a) eqn:Hpa; [|done]. destruct Hz as [<-|[]].
    destruct ((mn =? 0) && _); [done|].
    apply IH in Hin as (w & Hw & Hlen & Ha & Hc). simpl in Ha, Hc.
    exists (a :: w). split; [by constructor|]. split; [simpl; lia|].
    split; [simpl; by rewrite Ha|done]. }
  assert (Hx : y = x -> mn = 0 ->
          exists w, Forall (fun c => p c = true) w /\ mn <= length w
                    /\ after x = w ++ after y /\ captures y = captures x).
  { intros -> ->. by exists []. }
  destruct (mn =? 0) eqn:E0; simpl in Hy.
  - apply Nat.eqb_eq in E0. destruct greedy.
    + apply in_app_or in Hy as [Hy|[<-|[]]]; [by apply Hmore|by apply Hx].
    + destruct Hy as [<-|Hy]; [by apply Hx|by apply Hmore].
  - by apply Hmore.
Qed.

Lemma rep_charset_complete greedy w : forall fuel mn x rest,
  Forall (fun c => p c = true) w -> mn <= length w -> length w < fuel ->
  after x = w ++ rest ->
  exists y, In y (rep (rmatches ic (CharSet p)) greedy fuel mn None x)
            /\ after y = rest /\ captures y = captures x.
Proof.
  induction w as [|a w IH]; intros fuel mn x rest Hw Hmn Hfuel Hx.
  - destruct fuel as [|fuel]; [lia|]. simpl in Hmn. assert (mn = 0) as -> by lia.
    exists x. split; [|done]. cbn [rep]. simpl.
    destruct greedy; [apply in_or_app; right|]; by left.
  - destruct fuel as [|fuel]; [simpl in Hfuel; lia|].
    apply Forall_cons in Hw as [Ha Hw]. simpl in Hmn, Hfuel.
    destruct (IH fuel (pred mn) (step x a (w ++ rest)) rest Hw ltac:(lia) ltac:(lia) eq_refl)
      as (y & Hy & Hay & Hcy).
    exists y. split; [|done].
    assert (Hmore : In y (flat_map
              (fun z => if (mn =? 0) && (length (after z) =? length (after x)) then []
                        else rep (rmatches ic (CharSet p)) greedy fuel (pred mn) None z)
              (rmatches ic (CharSet p) x))).
    { apply in_flat_map. exists (step x a (w ++ rest)). split.
      - cbn [rmatches]. rewrite Hx. simpl. rewrite Ha. by left.
      - assert (Hlen : (length (after (step x a (w ++ rest))) =? length (after x)) = false).
        { apply Nat.eqb_neq. rewrite Hx. simpl. lia. }
        rewrite Hlen, andb_false_r. exact Hy. }
    cbn [rep]. destruct (mn =? 0); simpl; [|done].
    destruct greedy; [apply in_or_app; by left|by right].
Qed.

Lemma in_plus_charset x y :
  In y (rmatches ic (plus (CharSet p)) x) ->
  exists w, w <> [] /\ Forall (fun c => p c = true) w /\ after x = w ++ after y.
Proof.
  unfold plus. cbn [rmatches]. intros (w & Hw & Hlen & Ha & _)%rep_charset_sound.
  exists w. split; [|done]. intros ->. simpl in Hlen. lia.
Qed.

Lemma plus_charset_takes x w rest :
  w <> [] -> Forall (fun c => p c = true) w -> after x = w ++ rest ->
  exists y, In y (rmatches ic (plus (CharSet p)) x) /\ after y = rest.
Proof.
  intros Hne Hw Hx. unfold plus. cbn [rmatches].
  destruct (rep_charset_complete true w (S (1 + length (after x))) 1 x rest)
    as (y & Hy & Hay & _); [done| | |done|by exists y].
  - destruct w; [done|simpl; lia].
  - rewrite Hx, length_app. lia.
Qed.
End charset.

(** An optional piece can always be left out. *)
Lemma opt_skips ic r x : In x (rmatches ic (opt r) x).
Proof.
  unfold opt. cbn [rmatches rep]. simpl. apply in_or_app. right. by left.
Qed.

End MatcherFacts.

Module RateLimitFacts.
Import Js RateLimit Samples.
Local Open Scope Z_scope.

(** A call for one address leaves the record of every other address. *)
Lemma checkRateLimit_other (now : Z) (ip ip' : list N) (m : gmap (list N) RateRecord) :
  ip <> ip' -> (checkRateLimit now ip m).1 !! ip' = m !! ip'.
Proof.
  intros Hne. unfold checkRateLimit. cbv zeta.
  destruct (m !! ip) as [record|]; cbn [fst].
  - destruct (now >? resetAtMs record); cbn [fst]; [by rewrite lookup_insert_ne|].
    destruct (count record >=? RATE_LIMIT_MAX); cbn [fst]; [done|].
    by rewrite lookup_insert_ne.
  - by rewrite lookup_insert_ne.
Qed.

(** The answer, and the record left, depend on the record of the address
    only. *)
Lemma checkRateLimit_local (now : Z) (ip : list N) (m m' : gmap (list N) RateRecord) :
  m !! ip = m' !! ip ->
  (checkRateLimit now ip m).2 = (checkRateLimit now ip m').2
  /\ (checkRateLimit now ip m).1 !! ip = (checkRateLimit now ip m').1 !! ip.
Proof.
  intros H. unfold checkRateLimit. cbv zeta. rewrite <- H.
  destruct (m !! ip) as [record|] eqn:E; cbn [fst snd].
  - destruct (now >? resetAtMs record); cbn [fst snd]; [by rewrite !lookup_insert_eq|].
    destruct (count record >=? RATE_LIMIT_MAX); cbn [fst snd]; [by rewrite <- H|].
    by rewrite !lookup_insert_eq.
  - by rewrite !lookup_insert_eq.
Qed.

Lemma run_cons (now : Z) (ip : list N) (calls : list call) (m : gmap (list N) RateRecord) :
  run ((now, ip) :: calls) m
  = ((run calls (checkRateLimit now ip m).1).1,
     (checkRateLimit now ip m).2 :: (run calls (checkRateLimit now ip m).1).2).
Proof.
  cbn [run]. destruct (checkRateLimit now ip m) as [s1 v]. simpl.
  by destruct (run calls s1).
Qed.

Lemma run_length (calls : list call) : forall m : gmap (list N) RateRecord, length (run calls m).2 = length calls.
Proof.
  induction calls as [|[now ip] calls IH]; intros m; [done|].
  rewrite run_cons. simpl. by rewrite IH.
Qed.

Lemma answers_local (ip : list N) (calls : list call) : forall (m m' : gmap (list N) RateRecord),
  m !! ip = m' !! ip ->
  answers_to ip calls (run calls m).2
  = (run (filter (fun c => c.2 = ip) calls) m').2.
Proof.
  induction calls as [|[now ip'] calls IH]; intros m m' H; [done|].
  rewrite run_cons. cbn [answers_to snd].
  rewrite filter_cons. simpl. destruct (decide (ip' = ip)) as [->|Hne].
  - rewrite bool_decide_eq_true_2 by done. rewrite run_cons. cbn [snd].
    destruct (checkRateLimit_local now ip m m' H) as [-> Hst].
    f_equal. by apply IH.
  - rewrite bool_decide_eq_false_2 by done. apply IH.
    by rewrite checkRateLimit_other.
Qed.

(** X1.  The answers a client gets are those it would get if it were the
    only one to call: the calls made for other addresses change nothing for
    it. *)
Theorem clients_are_independent (ip : list N) (calls : list call) (m : gmap (list N) RateRecord) :
  answers_to ip calls (run calls m).2
  = (run (filter (fun c => c.2 = ip) calls) m).2.
Proof. by apply answers_local. Qed.

(** Within a window: with the record [(c, r)] and calls that all come no
    later than [r], the calls for the address are let through until the
    count is 4. *)
Lemma window_answers (ip : list N) (calls : list call) :
  forall (m : gmap (list N) RateRecord) (c r : Z),
  m !! ip = Some {| count := c; resetAtMs := r |} ->
  1 <= c <= 4 ->
  Forall (fun cl : call => cl.1 <= r) calls ->
  forall k v, answers_to ip calls (run calls m).2 !! k = Some v ->
    (v = Ok <-> c + Z.of_nat k < 4).
Proof.
  induction calls as [|[now ip'] calls IH]; intros m c r Hm Hc Hall k v Hk; [done|].
  rewrite run_cons in Hk. cbn [answers_to snd] in Hk.
  apply Forall_cons in Hall as [Hnow Hall]. simpl in Hnow.
  destruct (decide (ip' = ip)) as [->|Hne].
  - rewrite bool_decide_eq_true_2 in Hk by done.
    unfold checkRateLimit in Hk. cbv zeta in Hk. rewrite Hm in Hk. cbn [resetAtMs count] in Hk.
    assert (Hgt : (now >? r) = false) by lia. rewrite Hgt in Hk.
    unfold RATE_LIMIT_MAX in Hk.
    destruct (c >=? 4) eqn:E4.
    + assert (c = 4) as -> by lia. cbn [fst snd] in Hk.
      destruct k as [|k]; simpl in Hk.
      * injection Hk as <-. split; [done|lia].
      * rewrite (IH m 4 r Hm Hc Hall k v Hk). lia.
    + cbn [fst snd] in Hk. destruct k as [|k]; simpl in Hk.
      * injection Hk as <-. split; [lia|done].
      * rewrite (IH _ (c + 1) r (lookup_insert_eq _ _ _) ltac:(lia) Hall k v Hk). lia.
  - rewrite bool_decide_eq_false_2 in Hk by done.
    apply (IH _ c r) in Hk; [done| |done|done].
    by rewrite checkRateLimit_other.
Qed.

(** X2.  A window lets four calls through.  When a call for an address
    opens a window (the address has no record, or the time of its record
    is over), then of that call and the calls that follow up to 60000 ms
    later, whatever other addresses call in between, the first four made
    for the address are let through and every further one is refused. *)
Theorem four_calls_per_window (now : Z) (ip : list N) (calls : list call) (m : gmap (list N) RateRecord) :
  (forall record, m !! ip = Some record -> now > resetAtMs record) ->
  Forall (fun cl : call => cl.1 <= now + 60000) calls ->
  forall k v,
    answers_to ip ((now, ip) :: calls) (run ((now, ip) :: calls) m).2 !! k = Some v ->
    (v = Ok <-> (k < 4)%nat).
Proof.
  intros Hopen Hall k v Hk.
  rewrite run_cons in Hk. cbn [answers_to snd] in Hk.
  rewrite bool_decide_eq_true_2 in Hk by done.
  assert (Hstep : checkRateLimit now ip m
                  = (<[ip := {| count := 1; resetAtMs := now + 60000 |}]> m, Ok)).
  { unfold checkRateLimit. cbv zeta. destruct (m !! ip) as [record|] eqn:E; [|done].
    specialize (Hopen record eq_refl).
    assert (Hgt : (now >? resetAtMs record) = true) by lia. by rewrite Hgt. }
  rewrite Hstep in Hk. cbn [fst snd] in Hk.
  destruct k as [|k]; simpl in Hk.
  - injection Hk as <-. split; [lia|done].
  - rewrite (window_answers ip calls _ 1 (now + 60000) (lookup_insert_eq _ _ _)
               ltac:(lia) Hall k v Hk). lia.
Qed.

(** Five calls of one client in a window: the fifth is refused. *)
Lemma four_calls_per_window_example :
  answers_to (str "10.0.0.7") ((0, str "10.0.0.7") :: burst_calls)
    (run ((0, str "10.0.0.7") :: burst_calls) ∅).2 !! 4%nat = Some (Limited 1)
  /\ (Limited 1 = Ok <-> (4 < 4)%nat).
Proof.
  split; [by vm_compute|].
  apply (four_calls_per_window 0 (str "10.0.0.7") burst_calls ∅).
  - intros record H. by rewrite lookup_empty in H.
  - repeat constructor; simpl; lia.
  - by vm_compute.
Defined.

Lemma ceil_div_bounds x : 0 <= x -> x <= 1000 * ceil_div x 1000 < x + 1000.
Proof.
  intros Hx. unfold ceil_div.
  pose proof (Z.div_mod (- x) 1000 ltac:(lia)).
  pose proof (Z.mod_pos_bound (- x) 1000 ltac:(lia)). lia.
Qed.

(** X3.  A refused call changes nothing in the map, and the delay it
    announces is at least one second and long enough: a call for the same
    address made later than that delay after the refusal opens a new window
    and is let through. *)
Theorem refusal_announces_the_reset (now : Z) (ip : list N) (m m' : gmap (list N) RateRecord) (s : Z) :
  checkRateLimit now ip m = (m', Limited s) ->
  m' = m /\ 1 <= s
  /\ forall later, now + 1000 * s < later ->
       checkRateLimit later ip m'
       = (<[ip := {| count := 1; resetAtMs := later + 60000 |}]> m', Ok).
Proof.
  unfold checkRateLimit. cbv zeta.
  destruct (m !! ip) as [record|] eqn:E; [|done].
  destruct (now >? resetAtMs record) eqn:Hgt; [done|].
  destruct (count record >=? RATE_LIMIT_MAX); [|done].
  intros [= <- <-]. split; [done|]. split; [lia|].
  intros later Hlater. rewrite E.
  pose proof (ceil_div_bounds (resetAtMs record - now) ltac:(lia)).
  assert (Hl : (later >? resetAtMs record) = true) by lia.
  by rewrite Hl.
Qed.

(** A refusal 1500 ms before the end of the window announces 2 seconds. *)
Lemma refusal_announces_the_reset_example :
  checkRateLimit 58500 (str "10.0.0.7") used_up = (used_up, Limited 2)
  /\ (used_up = used_up /\ 1 <= 2
      /\ forall later, 58500 + 1000 * 2 < later ->
           checkRateLimit later (str "10.0.0.7") used_up
           = (<[str "10.0.0.7" := {| count := 1; resetAtMs := later + 60000 |}]> used_up, Ok)).
Proof.
  assert (H : checkRateLimit 58500 (str "10.0.0.7") used_up = (used_up, Limited 2)).
  { unfold checkRateLimit, used_up. cbv zeta. by rewrite lookup_singleton_eq. }
  split; [exact H|].
  exact (refusal_announces_the_reset 58500 (str "10.0.0.7") used_up used_up 2 H).
Defined.

Lemma not_ahead_mono (t t' : Z) (m : gmap (list N) RateRecord) : t <= t' -> not_ahead t m -> not_ahead t' m.
Proof. intros Ht H ip record Hm. specialize (H ip record Hm). lia. Qed.

Lemma checkRateLimit_not_ahead (now : Z) (ip : list N) (m : gmap (list N) RateRecord) :
  not_ahead now m -> not_ahead now (checkRateLimit now ip m).1.
Proof.
  intros H ip' record'. unfold checkRateLimit. cbv zeta.
  assert (Hfresh : forall m0 : gmap (list N) RateRecord,
    <[ip := {| count := 1; resetAtMs := now + RATE_LIMIT_WINDOW_MS |}]> m0 !! ip' = Some record' ->
    m0 = m -> resetAtMs record' <= now + 60000).
  { intros m0 Hl ->. destruct (decide (ip = ip')) as [->|Hne].
    - rewrite lookup_insert_eq in Hl. injection Hl as <-. simpl. unfold RATE_LIMIT_WINDOW_MS. lia.
    - rewrite lookup_insert_ne in Hl by done. by eapply H. }
  destruct (m !! ip) as [record|] eqn:E; cbn [fst]; [|by eauto].
  destruct (now >? resetAtMs record); cbn [fst]; [by eauto|].
  destruct (count record >=? RATE_LIMIT_MAX); cbn [fst]; [by apply H|].
  intros Hl. destruct (decide (ip = ip')) as [->|Hne].
  - rewrite lookup_insert_eq in Hl. injection Hl as <-. simpl. by eapply H.
  - rewrite lookup_insert_ne in Hl by done. by eapply H.
Qed.

Lemma retry_in_range_from (calls : list call) : forall (t : Z) (m : gmap (list N) RateRecord),
  not_ahead t m -> clock_from t calls ->
  Forall (fun v => match v with Ok => True | Limited s => 1 <= s <= 60 end)
         (run calls m).2.
Proof.
  induction calls as [|[now ip] calls IH]; intros t m Hm Hclock; [by constructor|].
  destruct Hclock as [Ht Hclock]. rewrite run_cons. cbn [snd].
  apply (not_ahead_mono _ now) in Hm; [|done].
  constructor.
  - unfold checkRateLimit. cbv zeta.
    destruct (m !! ip) as [record|] eqn:E; cbn [snd]; [|done].
    destruct (now >? resetAtMs record) eqn:Hgt; cbn [snd]; [done|].
    destruct (count record >=? RATE_LIMIT_MAX); cbn [snd]; [|done].
    specialize (Hm ip record E).
    pose proof (ceil_div_bounds (resetAtMs record - now) ltac:(lia)). lia.
  - apply (IH now); [|done]. by apply checkRateLimit_not_ahead.
Qed.

(** X4.  With a clock that does not go back, and starting from the empty
    map, every refusal announces a delay of 1 to 60 seconds. *)
Theorem retry_after_in_range (t : Z) (calls : list call) (s : Z) :
  clock_from t calls ->
  Limited s ∈ (run calls ∅).2 ->
  1 <= s <= 60.
Proof.
  intros Hclock Hin.
  pose proof (retry_in_range_from calls t ∅) as H.
  assert (H0 : not_ahead t ∅) by (intros ip record Hl; by rewrite lookup_empty in Hl).
  specialize (H H0 Hclock).
  by apply (proj1 (Forall_forall _ _) H) in Hin.
Qed.

(** A fifth call 1.5 seconds after the first is told to wait 59 seconds. *)
Lemma retry_after_in_range_example :
  clock_from 0 hasty_calls /\ Limited 59 ∈ (run hasty_calls ∅).2 /\ 1 <= 59 <= 60.
Proof.
  assert (Hc : clock_from 0 hasty_calls) by (simpl; lia).
  assert (Hin : Limited 59 ∈ (run hasty_calls ∅).2).
  { replace (run hasty_calls ∅).2 with [Ok; Ok; Ok; Ok; Limited 59] by (by vm_compute).
    apply list_elem_of_In. simpl. tauto. }
  split; [exact Hc|]. split; [exact Hin|].
  exact (retry_after_in_range 0 hasty_calls 59 Hc Hin).
Defined.

(** *** No nine calls within a minute *)

Lemma spaced_cons now A :
  spaced A -> (forall y, A !! 7%nat = Some y -> now - y > 60000) -> spaced (now :: A).
Proof.
  intros HA H7 [|i] x y Hx Hy; simpl in *.
  - injection Hx as <-. by apply H7.
  - by eapply HA.
Qed.

Lemma lookup_app_3 (cur prev older : list Z) (i : nat) y :
  (cur ++ prev ++ older) !! i = Some y ->
  (length cur + length prev <= i)%nat -> y ∈ older.
Proof.
  intros H Hi. rewrite lookup_app_r in H by lia. rewrite lookup_app_r in H by lia.
  by eapply list_elem_of_lookup_2.
Qed.

Lemma lookup_app_2 (cur prev older : list Z) (i : nat) y :
  (cur ++ prev ++ older) !! i = Some y ->
  (length cur <= i)%nat -> y ∈ prev \/ y ∈ older.
Proof.
  intros H Hi. rewrite lookup_app_r in H by lia.
  apply lookup_app_Some in H as [H|[_ H]]; [left|right]; by eapply list_elem_of_lookup_2.
Qed.

(** One call, seen from [ip]. *)
Lemma window_inv_step (ip : list N) (t now : Z) (ip' : list N)
    (m : gmap (list N) RateRecord) (A : list Z) :
  t <= now -> window_inv ip t m A -> spaced A ->
  let A' := match (checkRateLimit now ip' m).2 with
            | Ok => if bool_decide (ip' = ip) then now :: A else A
            | Limited _ => A
            end in
  window_inv ip now (checkRateLimit now ip' m).1 A' /\ spaced A'.
Proof.
  intros Ht Hinv HA. cbv zeta.
  destruct (decide (ip' = ip)) as [->|Hne].
  - rewrite bool_decide_eq_true_2 by done.
    unfold window_inv in *. unfold checkRateLimit. cbv zeta.
    destruct (m !! ip) as [record|] eqn:E.
    + destruct Hinv as (cur & prev & older & -> & Hlen & Hc & Hp & Hs & Hcur & Hprev & Hold).
      destruct (now >? resetAtMs record) eqn:Hgt; cbn [fst snd].
      * rewrite lookup_insert_eq. cbn [count resetAtMs]. unfold RATE_LIMIT_WINDOW_MS. split.
        { exists [now], cur, (prev ++ older). simpl.
          split; [done|]. split; [done|]. split; [lia|]. split; [lia|]. split; [lia|].
          split; [constructor; [lia|done]|].
          split; [eapply Forall_impl; [exact Hcur|]; simpl; intros; lia|].
          apply Forall_app. split; (eapply Forall_impl; [eassumption|]); simpl; intros; lia. }
        apply spaced_cons; [done|]. intros y Hy.
        apply lookup_app_2 in Hy as [Hy|Hy]; [| |lia].
        { apply (proj1 (Forall_forall _ _) Hprev) in Hy. lia. }
        { apply (proj1 (Forall_forall _ _) Hold) in Hy. lia. }
      * unfold RATE_LIMIT_MAX.
        destruct (count record >=? 4) eqn:E4; cbn [fst snd].
        { rewrite E. split; [|done].
          exists cur, prev, older. repeat (split; [done || lia|]). done. }
        rewrite lookup_insert_eq. cbn [count resetAtMs]. split.
        { exists (now :: cur), prev, older. simpl.
          split; [done|]. split; [lia|]. split; [lia|]. split; [done|]. split; [lia|].
          split; [constructor; [lia|done]|]. done. }
        apply spaced_cons; [done|]. intros y Hy.
        apply lookup_app_3 in Hy; [|lia].
        apply (proj1 (Forall_forall _ _) Hold) in Hy. lia.
    + subst A. cbn [fst snd]. rewrite lookup_insert_eq. cbn [count resetAtMs].
      unfold RATE_LIMIT_WINDOW_MS. split.
      * exists [now], [], []. simpl. repeat (split; [done || lia|]).
        split; [constructor; [lia|done]|]. done.
      * apply spaced_cons; [done|]. intros y Hy. done.
  - rewrite bool_decide_eq_false_2 by done.
    assert (HA' : match (checkRateLimit now ip' m).2 with Ok => A | Limited _ => A end = A)
      by (by destruct (checkRateLimit now ip' m).2).
    rewrite HA'. split; [|done].
    unfold window_inv in *. rewrite checkRateLimit_other by done.
    destruct (m !! ip) as [record|]; [|done].
    destruct Hinv as (cur & prev & older & -> & Hlen & Hc & Hp & Hs & Hrest).
    exists cur, prev, older. repeat (split; [done || lia|]). done.
Qed.

Lemma admitted_spaced (ip : list N) (calls : list call) :
  forall (t : Z) (m : gmap (list N) RateRecord) (A : list Z),
    window_inv ip t m A -> spaced A -> clock_from t calls ->
    spaced (reverse (admitted_at ip calls (run calls m).2) ++ A).
Proof.
  induction calls as [|[now ip'] calls IH]; intros t m A Hinv HA Hclock; [done|].
  destruct Hclock as [Ht Hclock].
  destruct (window_inv_step ip t now ip' m A Ht Hinv HA) as [Hinv' HA'].
  rewrite run_cons. cbn [admitted_at snd].
  specialize (IH now (checkRateLimit now ip' m).1 _ Hinv' HA' Hclock).
  destruct (checkRateLimit now ip' m).2; [|done].
  destruct (bool_decide (ip' = ip)); [|done].
  by rewrite reverse_cons, <- app_assoc.
Qed.

(** X5.  With a clock that does not go back, and starting from the empty
    map, any nine calls let through for one address take more than 60000
    ms: the ninth comes more than a window after the first. *)
Theorem nine_admitted_calls_take_a_minute
    (ip : list N) (t : Z) (calls : list call) (i : nat) (t1 t9 : Z) :
  clock_from t calls ->
  admitted_at ip calls (run calls ∅).2 !! i = Some t1 ->
  admitted_at ip calls (run calls ∅).2 !! (i + 8)%nat = Some t9 ->
  t9 - t1 > 60000.
Proof.
  intros Hclock H1 H9.
  assert (Hinv : window_inv ip t ∅ []) by (unfold window_inv; by rewrite lookup_empty).
  assert (H0 : spaced []) by (intros j x y Hx; done).
  pose proof (admitted_spaced ip calls t ∅ [] Hinv H0 Hclock) as Hsp.
  rewrite app_nil_r in Hsp.
  set (adm := admitted_at ip calls (run calls ∅).2) in *.
  pose proof (lookup_lt_Some _ _ _ H9) as Hlt.
  apply (Hsp (length adm - S (i + 8))%nat).
  - rewrite reverse_lookup by lia. rewrite <- H9. f_equal. lia.
  - rewrite reverse_lookup by lia. rewrite <- H1. f_equal. lia.
Qed.

(** Eight calls are let through within 60004 ms, seven of them within 6 ms
    at the end of one window and the start of the next; the ninth is far. *)
Lemma nine_admitted_calls_take_a_minute_example :
  clock_from 0 two_window_calls
  /\ admitted_at (str "a") two_window_calls (run two_window_calls ∅).2 !! 0%nat = Some 0
  /\ admitted_at (str "a") two_window_calls (run two_window_calls ∅).2 !! 7%nat = Some 60004
  /\ admitted_at (str "a") two_window_calls (run two_window_calls ∅).2 !! 8%nat = Some 120002
  /\ 120002 - 0 > 60000.
Proof.
  assert (Hc : clock_from 0 two_window_calls) by (simpl; lia).
  assert (H1 : admitted_at (str "a") two_window_calls (run two_window_calls ∅).2 !! 0%nat
               = Some 0) by (by vm_compute).
  assert (H9 : admitted_at (str "a") two_window_calls (run two_window_calls ∅).2 !! (0 + 8)%nat
               = Some 120002) by (by vm_compute).
  split; [exact Hc|]. split; [exact H1|]. split; [by vm_compute|]. split; [exact H9|].
  exact (nine_admitted_calls_take_a_minute (str "a") 0 two_window_calls 0 0 120002 Hc H1 H9).
Defined.

End RateLimitFacts.

Module EntryFacts.
Import Js Regex AnalyzePrompts Route RateLimit Auth Github Entry Notions Samples.
Import RegexFacts TrimFacts MatcherFacts.

(** *** [getClientIp] *)



(** *** [repoName] *)

Lemma last_segment_no_slash (s : list N) : forall cur,
  47%N ∉ cur -> 47%N ∉ last_segment cur s.
Proof.
  induction s as [|c s IH]; intros cur Hcur; simpl.
  - intros H. apply Hcur. by apply list_elem_of_In, in_rev, list_elem_of_In.
  - destruct (c =? 47)%N eqn:E.
    + apply IH, not_elem_of_nil.
    + apply IH. apply not_elem_of_cons. split; [|done].
      intros <-. by rewrite N.eqb_refl in E.
Qed.

Lemma last_segment_after_slash (a seg : list N) : forall cur,
  last_segment cur (a ++ [47%N] ++ seg) = last_segment [] seg.
Proof.
  induction a as [|c a IH]; intros cur; simpl; [done|].
  destruct (c =? 47)%N; apply IH.
Qed.

Lemma last_segment_app (s w : list N) : forall cur,
  47%N ∉ w -> last_segment cur (s ++ w) = last_segment cur s ++ w.
Proof.
  intros cur Hw. revert cur. induction s as [|c s IH]; intros cur; simpl.
  - revert cur. induction w as [|d w IHw]; intros cur; simpl; [by rewrite app_nil_r|].
    apply not_elem_of_cons in Hw as [Hd Hw].
    destruct (d =? 47)%N eqn:E; [apply N.eqb_eq in E; by subst|].
    rewrite IHw by done. simpl. by rewrite <- app_assoc.
  - destruct (c =? 47)%N; apply IH.
Qed.

Lemma strip_git_suffix_added (name : list N) :
  strip_git_suffix (name ++ str ".git") = name.
Proof.
  unfold strip_git_suffix, ends_with.
  rewrite rev_app_distr. change (rev (str ".git")) with [116; 105; 103; 46]%N.
  simpl. rewrite length_app. simpl.
  replace (length name + 4 - 4) with (length name) by lia.
  by rewrite take_app_length.
Qed.

(** X7.  The name of the clone is one path segment that is not empty: it
    has no slash in it, whatever the address. *)
Theorem repoName_is_one_segment (repoUrl : list N) :
  repoName repoUrl <> [] /\ 47%N ∉ repoName repoUrl.
Proof.
  unfold repoName.
  assert (H : 47%N ∉ strip_git_suffix (last_segment [] repoUrl)).
  { unfold strip_git_suffix. pose proof (last_segment_no_slash repoUrl [] (not_elem_of_nil _)) as H.
    destruct (ends_with _ _); [|done].
    intros Hin. apply H. eapply elem_of_sublist; [exact Hin|apply sublist_take]. }
  destruct (strip_git_suffix (last_segment [] repoUrl)) as [|c name]; [|done].
  split; [done|]. apply (bool_decide_unpack _). by vm_compute.
Qed.

(** X8.  The name of the clone depends on the text after the last slash
    only: two addresses that end with the same segment, whatever stands
    before it (another host, another owner), are cloned into the same
    directory; and so are an address and the same address with [.git]
    added, unless it ended with [.git] already. *)
Theorem repoName_keeps_the_last_segment_only :
  (forall a b seg : list N,
     repoName (a ++ [47%N] ++ seg) = repoName (b ++ [47%N] ++ seg))
  /\ (forall repoUrl : list N,
        ends_with (str ".git") (last_segment [] repoUrl) = false ->
        repoName (repoUrl ++ str ".git") = repoName repoUrl).
Proof.
  split.
  - intros a b seg. unfold repoName. by rewrite !last_segment_after_slash.
  - intros repoUrl Hend. unfold repoName.
    rewrite last_segment_app.
    + rewrite strip_git_suffix_added. unfold strip_git_suffix. by rewrite Hend.
    + apply (bool_decide_unpack _). by vm_compute.
Qed.

(** *** [bodySchema] *)

(** What the first pattern accepts. *)
Lemma git_url_accepts (url : list N) :
  test_at_start git_url url = true
  <-> exists p mid rest,
        (p = str "https://" \/ p = str "git@")
        /\ mid <> [] /\ no_line_terminator mid
        /\ url = p ++ mid ++ [46%N] ++ rest.
Proof.
  unfold test_at_start, git_url. cbn [seq foldr]. split.
  - destruct (rmatches _ _ _) as [|y l] eqn:E; [done|]. intros _.
    assert (Hy : In y (y :: l)) by (by left). rewrite <- E in Hy. clear E l.
    apply in_cat in Hy as (z1 & Hz1 & Hy).
    apply in_cat in Hy as (z2 & Hz2 & Hy).
    apply in_cat in Hy as (z3 & Hz3 & _).
    apply in_group in Hz1 as (z0 & Hz0 & Ha1 & _).
    cbn [rmatches] in Hz0. apply in_app_or in Hz0.
    apply in_plus_charset in Hz2 as (mid & Hne & Hmid & Ha2).
    cbn [rmatches] in Hz3. destruct (after z2) as [|a rest] eqn:E2; [done|].
    unfold char_eq in Hz3. destruct (a =? 46)%N eqn:Ea; [|done].
    apply N.eqb_eq in Ea as ->.
    assert (Hp : exists p, (p = str "https://" \/ p = str "git@")
                           /\ url = p ++ after z0).
    { destruct Hz0 as [H|H]; apply in_lit in H as (H & _); simpl in H; eauto. }
    destruct Hp as (p & Hp & ->).
    exists p, mid, rest. split; [done|]. split; [done|]. split; [done|].
    by rewrite <- Ha1, Ha2.
  - intros (p & mid & rest & Hp & Hne & Hmid & ->).
    set (x := MState [] (p ++ mid ++ [46%N] ++ rest) []).
    assert (H0 : exists z0, In z0 (rmatches false (Or (word "https://") (word "git@")) x)
                            /\ after z0 = mid ++ [46%N] ++ rest).
    { cbn [rmatches]. destruct Hp as [-> | ->].
      - exists (MState (rev (str "https://") ++ []) (mid ++ [46%N] ++ rest) []).
        split; [|done]. apply in_or_app. left. by apply in_lit.
      - exists (MState (rev (str "git@") ++ []) (mid ++ [46%N] ++ rest) []).
        split; [|done]. apply in_or_app. right. by apply in_lit. }
    destruct H0 as (z0 & Hz0 & Ha0).
    set (z1 := MState (before z0) (after z0) ((1, consumed x z0) :: captures z0)).
    destruct (plus_charset_takes false (fun c => negb (is_line_terminator c)) z1 mid
                ([46%N] ++ rest) Hne Hmid Ha0) as (z2 & Hz2 & Ha2).
    set (z3 := step z2 46%N rest).
    assert (Hin : In z3 (rmatches false (Cat (Group 1 (Or (word "https://") (word "git@")))
                    (Cat (plus dot) (Cat (Lit 46) (Cat (opt (Group 2 (word "git"))) Eps)))) x)).
    { apply in_cat. exists z1. split; [apply in_group; by exists z0|].
      apply in_cat. exists z2. split; [exact Hz2|].
      apply in_cat. exists z3. split.
      - cbn [rmatches]. rewrite Ha2. simpl. by left.
      - apply in_cat. exists z3. split; [apply opt_skips|by left]. }
    match goal with |- match ?l with _ => _ end = _ => destruct l end; [destruct Hin|done].
Qed.

(** What the second pattern accepts starts like a match of the first. *)
Lemma github_url_starts (url : list N) :
  test_whole github_url url = true ->
  exists rest, url = str "https://github.com/" ++ rest.
Proof.
  unfold test_whole, github_url. cbn [seq foldr].
  intros (y & Hy & _)%existsb_exists.
  apply in_cat in Hy as (z1 & Hz1 & _).
  apply in_group in Hz1 as (z0 & Hz0 & _).
  apply in_lit in Hz0 as (H & _). simpl in H. by exists (after z0).
Qed.

(** X9.  The check of [repoUrl] accepts exactly the addresses that start
    with [https://] or [git@] (in lower case), go on with at least one
    character and have a dot after that, with no line break before the dot.
    The second pattern adds nothing to the first; no host is asked for and
    nothing is asked of what follows the dot. *)
Theorem repoUrl_refinement_accepts (url : list N) :
  repoUrl_refinement url = true
  <-> exists p mid rest,
        (p = str "https://" \/ p = str "git@")
        /\ mid <> [] /\ no_line_terminator mid
        /\ url = p ++ mid ++ [46%N] ++ rest.
Proof.
  unfold repoUrl_refinement. rewrite orb_true_iff, git_url_accepts. split; [|by left].
  intros [H|H]; [done|].
  apply github_url_starts in H as (rest & ->).
  exists (str "https://"), (str "github"), (str "com/" ++ rest).
  split; [by left|]. split; [done|]. split; [|done].
  repeat constructor.
Qed.

Lemma optional_string_Some lo hi ok v s :
  optional_string lo hi ok v = Some (Some s) ->
  lo <= length s /\ (forall h, hi = Some h -> length s <= h) /\ ok s = true.
Proof.
  unfold optional_string. destruct v as [[]|]; try done.
  destruct (lo <=? length s0) eqn:E1; [|done].
  destruct (match hi with Some h => length s0 <=? h | None => true end) eqn:E2; [|done].
  destruct (ok s0) eqn:E3; [|done]. simpl. intros [= <-].
  split; [by apply Nat.leb_le|]. split; [|done].
  intros h ->. by apply Nat.leb_le.
Qed.

(** X10.  A body that passes the schema names a target: it has a
    [localPath] or a [repoUrl] that is a string with at least one
    character, so that the last branch of the choice of the target
    directory (the answer "Provide repoUrl or localPath") is never taken;
    a [repoUrl] it has passed the check of the address; and its branch has
    1 to 100 characters. *)
Theorem parsed_body_names_a_target (data : json) (body : Body) :
  bodySchema_parse data = Some body ->
  choose_target body <> NoTarget
  /\ (given (repoUrl body) || given (localPath body) = true)
  /\ (forall url, repoUrl body = Some url -> repoUrl_refinement url = true)
  /\ 1 <= length (branch body) <= 100.
Proof.
  unfold bodySchema_parse. destruct data as [| | | | |fields]; try done.
  destruct (optional_string 1 None repoUrl_refinement _) as [ru|] eqn:Eru; [|done].
  destruct (optional_string 1 None (fun _ => true) _) as [lp|] eqn:Elp; [|done].
  destruct (optional_string 1 (Some 100) (fun _ => true) _) as [br|] eqn:Ebr; [|done].
  destruct (optional_boolean _) as [um|]; [|done]. simpl.
  destruct (given ru || given lp) eqn:Egiven; [|done].
  intros [= <-]. simpl.
  split; [|split; [done|split]].
  - unfold choose_target. simpl.
    destruct lp as [[|c p]|]; try done; destruct ru as [[|d u]|]; done.
  - intros url ->. by apply optional_string_Some in Eru as (_ & _ & H).
  - destruct br as [s|]; simpl; [|lia].
    apply optional_string_Some in Ebr as (H1 & H2 & _).
    split; [done|]. by apply H2.
Qed.

(** The body of a request for a clone. *)
Lemma parsed_body_names_a_target_example :
  bodySchema_parse clone_request_body = Some parsed_clone_request
  /\ choose_target parsed_clone_request <> NoTarget
  /\ (given (repoUrl parsed_clone_request) || given (localPath parsed_clone_request) = true)
  /\ (forall url, repoUrl parsed_clone_request = Some url -> repoUrl_refinement url = true)
  /\ 1 <= length (branch parsed_clone_request) <= 100.
Proof.
  assert (H : bodySchema_parse clone_request_body = Some parsed_clone_request)
    by (by vm_compute).
  split; [exact H|].
  exact (parsed_body_names_a_target clone_request_body parsed_clone_request H).
Defined.

(** *** The entry of [POST] *)

Section entry.
Variable payload : Type.
Variable jwt_verify : list N -> list N -> option payload.
Variable JWT_SECRET : option (list N).

(** X11.  The order of the checks.  A request that is refused for its
  token (401) or for the rate (429) leaves the map of the limiter as it
  was, and its body plays no part in the answer.  Every other request
  has been counted by the limiter for its address, also when its body
  is then found invalid (400). *)
Theorem POST_entry_order (now : Z) (req : ScanRequest) (m : gmap (list N) RateRecord) :
let ip := getClientIp (h_x_forwarded_for req) (h_x_real_ip req) in
match (POST_entry payload jwt_verify JWT_SECRET now req m).2 with
| Unauthorized _ | RateLimited _ =>
    (POST_entry payload jwt_verify JWT_SECRET now req m).1 = m
    /\ forall body,
         POST_entry payload jwt_verify JWT_SECRET now
           {| h_authorization := h_authorization req;
              h_x_forwarded_for := h_x_forwarded_for req;
              h_x_real_ip := h_x_real_ip req;
              json_body := body |} m
         = POST_entry payload jwt_verify JWT_SECRET now req m
| InvalidBody | Proceed _ =>
    checkRateLimit now ip m
    = ((POST_entry payload jwt_verify JWT_SECRET now req m).1, Ok)
    /\ exists record,
         (POST_entry payload jwt_verify JWT_SECRET now req m).1 !! ip = Some record
         /\ (forall old, m !! ip = Some old -> (now <= resetAtMs old)%Z ->
               count record = (count old + 1)%Z)
end.
Proof.
cbv zeta. unfold POST_entry. cbn [h_authorization h_x_forwarded_for h_x_real_ip json_body].
destruct (requireJwtFromRequest _ _ _ _) as [p|message]; cbn [fst snd]; [|done].
set (ip := getClientIp _ _).
destruct (checkRateLimit now ip m) as [m' [|s]] eqn:E; cbn [fst snd].
- assert (Hrec : exists record, m' !! ip = Some record
      /\ (forall old, m !! ip = Some old -> (now <= resetAtMs old)%Z ->
            count record = (count old + 1)%Z)).
  { revert E. unfold checkRateLimit. cbv zeta.
    destruct (m !! ip) as [old|] eqn:Eold.
    - destruct (now >? resetAtMs old)%Z eqn:Hgt.
      + intros [= <-]. eexists. rewrite lookup_insert_eq. split; [done|].
        intros ? [= <-] ?. lia.
      + destruct (count old >=? RATE_LIMIT_MAX)%Z eqn:Hc; [done|].
        intros [= <-]. eexists. rewrite lookup_insert_eq. split; [done|].
        by intros ? [= <-] _.
    - intros [= <-]. eexists. rewrite lookup_insert_eq. split; [done|]. done. }
  by destruct (json_body req ≫= bodySchema_parse).
- revert E. unfold checkRateLimit. cbv zeta.
  destruct (m !! ip) as [old|] eqn:Eold; [|done].
  destruct (now >? resetAtMs old)%Z; [done|].
  destruct (count old >=? RATE_LIMIT_MAX)%Z; [|done].
  by intros [= <- <-].
Qed.
End entry.

End EntryFacts.

(** * Facts about [join] of node:path *)
Module PathFacts.
Import Js Fs Route.

Lemma segments_nonempty p : exists seg segs, segments p = seg :: segs.
Proof.
  induction p as [|c p (seg & segs & IH)]; simpl; [by eexists _, _|].
  destruct (c =? 47)%N; [by eexists _, _|]. rewrite IH. by eexists _, _.
Qed.

Lemma segments_app a b : segments (a ++ 47%N :: b) = segments a ++ segments b.
Proof.
  induction a as [|c a IH]; simpl; [done|].
  destruct (c =? 47)%N; [by rewrite IH|].
  rewrite IH. by destruct (segments_nonempty a) as (seg & segs & ->).
Qed.

Lemma segments_plain s : 47%N ∉ s -> segments s = [s].
Proof.
  induction s as [|c s IH]; intros Hs; simpl; [done|].
  apply not_elem_of_cons in Hs as [Hc Hs].
  rewrite (proj2 (N.eqb_neq c 47)) by done. by rewrite IH.
Qed.

Lemma segments_end p : segments (p ++ [47%N]) = segments p ++ [[]].
Proof. apply (segments_app p []). Qed.

Lemma segments_join (l : list (list N)) :
  l <> [] -> Forall (fun s => 47%N ∉ s) l -> segments (join (str "/") l) = l.
Proof.
  induction l as [|s l IH]; [done|]. intros _ [Hs Hl]%Forall_cons.
  destruct l as [|s' l]; [by apply segments_plain|].
  change (join (str "/") (s :: s' :: l)) with (s ++ 47%N :: join (str "/") (s' :: l)).
  rewrite segments_app, segments_plain, IH by done. done.
Qed.

Lemma join_snoc (l : list (list N)) (s : list N) :
  join (str "/") (l ++ [s])
  = match l with [] => s | _ => join (str "/") l ++ 47%N :: s end.
Proof.
  induction l as [|a l IH]; [done|].
  destruct l as [|b l]; [done|].
  change (join (str "/") ((a :: b :: l) ++ [s]))
    with (a ++ 47%N :: join (str "/") ((b :: l) ++ [s])).
  rewrite IH.
  change (join (str "/") (a :: b :: l)) with (a ++ 47%N :: join (str "/") (b :: l)).
  by rewrite <- app_assoc.
Qed.

Lemma is_proper_name_spec name :
  is_proper_name name = true
  <-> name <> [] /\ (47%N ∉ name) /\ name <> str "." /\ name <> str "..".
Proof.
  unfold is_proper_name. rewrite !andb_true_iff, !negb_true_iff, !bool_decide_eq_false.
  tauto.
Qed.

(** A proper name is kept as it is. *)
Lemma normalize_segment_proper allow res name :
  is_proper_name name = true -> normalize_segment allow res name = name :: res.
Proof.
  intros (H0 & _ & H1 & H2)%is_proper_name_spec. unfold normalize_segment.
  by rewrite !bool_decide_eq_false_2 by done.
Qed.

Lemma normalize_segment_empty allow res : normalize_segment allow res [] = res.
Proof. done. Qed.

Lemma foldl_proper allow (l : list (list N)) : forall res,
  Forall (fun s => is_proper_name s = true) l ->
  foldl (normalize_segment allow) res l = rev l ++ res.
Proof.
  induction l as [|s l IH]; intros res Hl; [done|].
  apply Forall_cons in Hl as [Hs Hl]. simpl.
  rewrite normalize_segment_proper, IH by done. by rewrite <- app_assoc.
Qed.

(** *** The segments that are kept *)

(** Proper names, above as many [..] as the path goes above its start. *)
Lemma kept_shape allow (segs : list (list N)) : forall res,
  Forall (fun s => 47%N ∉ s) segs ->
  (exists k c, res = c ++ replicate k (str "..")
               /\ Forall (fun s => is_proper_name s = true) c
               /\ (allow = false -> k = 0)) ->
  exists k c, foldl (normalize_segment allow) res segs = c ++ replicate k (str "..")
              /\ Forall (fun s => is_proper_name s = true) c
              /\ (allow = false -> k = 0).
Proof.
  induction segs as [|seg segs IH]; intros res Hsegs Hres; [done|].
  apply Forall_cons in Hsegs as [Hseg Hsegs]. simpl. apply IH; [done|].
  destruct Hres as (k & c & -> & Hc & Hk).
  unfold normalize_segment.
  destruct (bool_decide (seg = []) || bool_decide (seg = str ".")) eqn:Hskip;
    [by exists k, c|].
  apply orb_false_iff in Hskip as [H0 H1].
  apply bool_decide_eq_false in H0, H1.
  case_bool_decide as Hdd.
  - subst seg. destruct c as [|b c]; simpl.
    + destruct k as [|k]; simpl.
      * destruct allow; [by exists 1, []|by exists 0, []].
      * destruct allow; [|by specialize (Hk eq_refl)].
        by exists (S (S k)), [].
    + apply Forall_cons in Hc as [Hb Hc].
      apply is_proper_name_spec in Hb as Hb'. destruct Hb' as (_ & _ & _ & Hb').
      rewrite bool_decide_eq_false_2 by done. by exists k, c.
  - exists k, (seg :: c). split; [done|]. split; [|done].
    constructor; [|done]. by apply is_proper_name_spec.
Qed.

Lemma segments_no_sep p : Forall (fun s => 47%N ∉ s) (segments p).
Proof.
  induction p as [|c p IH]; simpl; [by repeat constructor; inversion 1|].
  destruct (c =? 47)%N eqn:Hc; [constructor; [by inversion 1|done]|].
  destruct (segments_nonempty p) as (seg & segs & E). rewrite E in *.
  apply Forall_cons in IH as [Hseg Hsegs]. constructor; [|done].
  apply not_elem_of_cons. split; [|done]. apply N.eqb_neq in Hc. congruence.
Qed.

Lemma kept_segments_shape p allow :
  exists k c, kept_segments p allow = c ++ replicate k (str "..")
              /\ Forall (fun s => is_proper_name s = true) c
              /\ (allow = false -> k = 0).
Proof.
  apply kept_shape; [apply segments_no_sep|]. by exists 0, [].
Qed.

(** Going through the kept segments again keeps them all. *)
Lemma foldl_dotdots k : forall j,
  foldl (normalize_segment true) (replicate j (str "..")) (replicate k (str ".."))
  = replicate (k + j) (str "..").
Proof.
  induction k as [|k IH]; intros j; [done|]. cbn [replicate foldl].
  replace (normalize_segment true (replicate j (str "..")) (str ".."))
    with (replicate (S j) (str "..")) by (by destruct j).
  rewrite IH. by rewrite Nat.add_succ_r.
Qed.

Lemma kept_again allow k (c : list (list N)) :
  Forall (fun s => is_proper_name s = true) c -> (allow = false -> k = 0) ->
  foldl (normalize_segment allow) [] (rev (c ++ replicate k (str "..")))
  = c ++ replicate k (str "..").
Proof.
  intros Hc Hk. rewrite rev_app_distr, foldl_app.
  assert (Hdd : foldl (normalize_segment allow) [] (rev (replicate k (str "..")))
                = replicate k (str "..")).
  { replace (rev (replicate k (str ".."))) with (replicate k (str ".."))
      by (rewrite rev_alt; symmetry; apply (reverse_replicate k (str ".."))).
    destruct allow.
    - pose proof (foldl_dotdots k 0) as H. simpl in H. rewrite H. f_equal. lia.
    - by rewrite Hk. }
  rewrite Hdd, foldl_proper by (by apply Forall_rev). by rewrite rev_involutive.
Qed.

(** *** [normalize] *)

Lemma normalize_unfold c0 p :
  let abs := (c0 =? 47)%N in
  let st := kept_segments (c0 :: p) (negb abs) in
  normalize (c0 :: p)
  = match st with
    | [] => if abs then str "/"
            else if bool_decide (last (c0 :: p) = Some 47%N) then str "./" else str "."
    | _ => (if abs then str "/" else []) ++ join (str "/") (rev st)
           ++ (if bool_decide (last (c0 :: p) = Some 47%N) then str "/" else [])
    end.
Proof.
  intros abs st. unfold normalize, normalizeString. fold abs. fold st.
  destruct st as [|s st'] eqn:Hst; [done|].
  destruct (join (str "/") (rev (s :: st'))) as [|a q] eqn:Hj; [|done].
  exfalso. destruct (kept_segments_shape (c0 :: p) (negb abs)) as (k & c & Hshape & Hc & _).
  fold st in Hshape. rewrite Hst in Hshape.
  assert (Hs : s <> []).
  { destruct c as [|b c]; simpl in Hshape.
    - destruct k; simpl in Hshape; [done|]. by injection Hshape as -> _.
    - injection Hshape as -> _. apply Forall_cons in Hc as [Hb _].
      by apply is_proper_name_spec in Hb as (? & _). }
  simpl in Hj. rewrite join_snoc in Hj.
  destruct (rev st'); [done|]. by destruct (join (str "/") (l :: l0)).
Qed.

(** A list of segments that are not empty and have no separator, joined:
    the string starts and ends with a character that is no separator. *)
Lemma join_solid (l : list (list N)) :
  l <> [] -> Forall (fun s => s <> [] /\ (47%N ∉ s)) l ->
  exists h q d, join (str "/") l = h :: q /\ h <> 47%N
                /\ last (join (str "/") l) = Some d /\ d <> 47%N.
Proof.
  induction l as [|s l IH]; [done|]. intros _ [[Hs Hsep] Hl]%Forall_cons.
  destruct s as [|h s]; [done|].
  assert (Hh : h <> 47%N) by (intros ->; apply Hsep; by left).
  destruct l as [|s' l].
  - simpl. destruct (last (h :: s)) as [d|] eqn:Hd; [|by apply last_None in Hd].
    exists h, s, d. split; [done|]. split; [done|]. split; [done|].
    intros ->. apply Hsep. apply last_Some in Hd as (l' & ->).
    apply elem_of_app. right. by left.
  - destruct (IH ltac:(done) Hl) as (h' & q & d & Hj & _ & Hlast & Hd).
    change (join (str "/") ((h :: s) :: s' :: l))
      with ((h :: s) ++ 47%N :: join (str "/") (s' :: l)).
    exists h, (s ++ 47%N :: join (str "/") (s' :: l)), d.
    split; [done|]. split; [done|]. split; [|done].
    rewrite last_app, last_cons, Hlast. done.
Qed.

Lemma kept_solid k (c : list (list N)) :
  Forall (fun s => is_proper_name s = true) c ->
  Forall (fun s => s <> [] /\ (47%N ∉ s)) (rev (c ++ replicate k (str ".."))).
Proof.
  intros Hc. apply Forall_rev, Forall_app. split.
  - eapply Forall_impl; [exact Hc|]. intros s Hs.
    apply is_proper_name_spec in Hs as (? & ? & _). done.
  - apply Forall_replicate. split; [done|].
    apply (bool_decide_unpack _). by vm_compute.
Qed.

(** A path made of kept segments is its own normal form. *)
Lemma normalize_fixed (abs trailing : bool) k (c : list (list N)) :
  Forall (fun s => is_proper_name s = true) c -> (abs = true -> k = 0) ->
  c ++ replicate k (str "..") <> [] ->
  normalize ((if abs then str "/" else [])
             ++ join (str "/") (rev (c ++ replicate k (str "..")))
             ++ (if trailing then str "/" else []))
  = (if abs then str "/" else [])
    ++ join (str "/") (rev (c ++ replicate k (str "..")))
    ++ (if trailing then str "/" else []).
Proof.
  intros Hc Hk Hne. set (st := c ++ replicate k (str "..")) in *.
  assert (Hl : rev st <> []).
  { intros H. apply Hne. by rewrite <- (rev_involutive st), H. }
  pose proof (kept_solid k c Hc) as Hsolid. fold st in Hsolid.
  destruct (join_solid (rev st) Hl Hsolid) as (h & q & d & Hj & Hh & Hlast & Hd).
  assert (Hsegs : segments (join (str "/") (rev st)) = rev st).
  { apply segments_join; [done|]. eapply Forall_impl; [exact Hsolid|]. by intros s [_ ?]. }
  set (core := join (str "/") (rev st)) in *.
  set (r := (if abs then str "/" else []) ++ core ++ (if trailing then str "/" else [])).
  assert (Hr : exists r', r = (if abs then 47%N else h) :: r').
  { unfold r. rewrite Hj. destruct abs; simpl; by eexists. }
  destruct Hr as (r' & Hr).
  assert (Habs : ((if abs then 47%N else h) =? 47)%N = abs).
  { destruct abs; [done|]. by apply N.eqb_neq. }
  assert (Htr : bool_decide (last r = Some 47%N) = trailing).
  { unfold r. destruct trailing.
    - apply bool_decide_eq_true_2. rewrite app_assoc. apply last_snoc.
    - apply bool_decide_eq_false_2. rewrite app_nil_r, last_app, Hlast. congruence. }
  assert (Hsegs_r : segments r
                    = (if abs then [[]] else []) ++ rev st ++ (if trailing then [[]] else [])).
  { unfold r.
    assert (Htail : segments (core ++ (if trailing then str "/" else []))
                    = rev st ++ (if trailing then [[]] else [])).
    { destruct trailing.
      - change (str "/") with [47%N]. by rewrite segments_end, Hsegs.
      - by rewrite !app_nil_r. }
    destruct abs; [|exact Htail].
    change (str "/" ++ core ++ (if trailing then str "/" else []))
      with (47%N :: (core ++ (if trailing then str "/" else []))).
    cbn [segments]. change (47 =? 47)%N with true. cbv iota. by rewrite Htail. }
  assert (Hkept : kept_segments r (negb abs) = st).
  { unfold kept_segments. rewrite Hsegs_r, !foldl_app.
    assert (Hfront : foldl (normalize_segment (negb abs)) [] (if abs then [[]] else []) = [])
      by (by destruct abs).
    rewrite Hfront. unfold st.
    rewrite kept_again by (done || (destruct abs; [by intros _; apply Hk|done])).
    by destruct trailing. }
  rewrite Hr. rewrite normalize_unfold. rewrite <- Hr. rewrite Habs, Hkept, Htr.
  destruct st as [|s st'] eqn:Hst; [done|]. done.
Qed.

Lemma normalize_idem p : normalize (normalize p) = normalize p.
Proof.
  destruct p as [|c0 p]; [done|].
  rewrite normalize_unfold. cbv zeta.
  destruct (kept_segments_shape (c0 :: p) (negb (c0 =? 47)%N)) as (k & c & Hshape & Hc & Hk).
  destruct (kept_segments (c0 :: p) (negb (c0 =? 47)%N)) as [|s st] eqn:Hst.
  - destruct (c0 =? 47)%N; [done|]. by destruct (bool_decide _).
  - rewrite Hshape. apply normalize_fixed; [done| |by rewrite <- Hshape].
    intros Habs. apply Hk. by rewrite Habs.
Qed.

(** *** [join] with the name of an entry *)

Lemma last_proper name d : is_proper_name name = true -> last name = Some d -> d <> 47%N.
Proof.
  intros (_ & Hsep & _)%is_proper_name_spec Hd ->. apply Hsep.
  apply last_Some in Hd as (l & ->). apply elem_of_app. right. by left.
Qed.

Lemma path_join_unfold d0 dir name :
  is_proper_name name = true ->
  let abs := (d0 =? 47)%N in
  let st := kept_segments (d0 :: dir) (negb abs) in
  path_join (d0 :: dir) name
  = (if abs then str "/" else [])
    ++ match rev st with
       | [] => name
       | _ => join (str "/") (rev st) ++ 47%N :: name
       end.
Proof.
  intros Hname abs st.
  apply is_proper_name_spec in Hname as Hname'. destruct Hname' as (Hne & Hsep & _).
  destruct name as [|n0 name']; [done|]. set (name := n0 :: name') in *.
  change (path_join (d0 :: dir) name) with (normalize (d0 :: (dir ++ 47%N :: name))).
  rewrite normalize_unfold. cbv zeta. fold abs.
  assert (Hkept : kept_segments (d0 :: dir ++ 47%N :: name) (negb abs) = name :: st).
  { unfold kept_segments.
    change (d0 :: dir ++ 47%N :: name) with ((d0 :: dir) ++ 47%N :: name).
    rewrite segments_app, (segments_plain name) by done.
    rewrite foldl_app. simpl foldl at 1. by rewrite normalize_segment_proper. }
  rewrite Hkept.
  assert (Htr : bool_decide (last (d0 :: dir ++ 47%N :: name) = Some 47%N) = false).
  { apply bool_decide_eq_false_2.
    assert (d0 :: dir ++ 47%N :: name = ((d0 :: dir) ++ [47%N]) ++ name) as ->
      by (by rewrite <- app_assoc).
    rewrite last_app. destruct (last name) as [d|] eqn:Hd; [|by apply last_None in Hd].
    intros [= ->]. by eapply last_proper. }
  rewrite Htr, app_nil_r. f_equal. simpl rev. by rewrite join_snoc.
Qed.

(** The path of an entry ends with its name, after a separator if anything
    stands before it. *)
Lemma path_join_proper dir name :
  is_proper_name name = true ->
  exists pre, path_join dir name = pre ++ name /\ (pre = [] \/ exists q, pre = q ++ [47%N]).
Proof.
  intros Hname. destruct dir as [|d0 dir].
  - exists []. split; [|by left].
    apply is_proper_name_spec in Hname as Hname'. destruct Hname' as (Hne & Hsep & _).
    destruct name as [|n0 name']; [done|]. set (name := n0 :: name') in *.
    change (path_join [] name) with (normalize name).
    pose proof (normalize_fixed false false 0 [name] ltac:(by constructor) ltac:(done)
                  ltac:(done)) as H.
    simpl in H. by rewrite app_nil_r in H.
  - rewrite path_join_unfold by done. cbv zeta.
    destruct (rev (kept_segments (d0 :: dir) (negb (d0 =? 47)%N))) as [|s l].
    + exists (if (d0 =? 47)%N then str "/" else []). split; [done|].
      destruct (d0 =? 47)%N; [right; by exists []|by left].
    + exists ((if (d0 =? 47)%N then str "/" else []) ++ join (str "/") (s :: l) ++ [47%N]).
      split; [by rewrite <- !app_assoc|]. right. eexists. by rewrite app_assoc.
Qed.

(** The result of [join] is in normal form. *)
Lemma path_join_normalized dir name : normalize (path_join dir name) = path_join dir name.
Proof.
  unfold path_join. destruct dir, name; try done; apply normalize_idem.
Qed.

(** From a directory path in normal form, [join] goes on with the name. *)
Lemma path_join_extends dir name :
  normalize dir = dir -> dir <> str "." -> dir <> str "./" ->
  is_proper_name name = true ->
  exists s, path_join dir name = dir ++ s.
Proof.
  intros Hnorm Hdot Hdots Hname. destruct dir as [|d0 dir]; [done|].
  rewrite path_join_unfold by done. cbv zeta.
  rewrite normalize_unfold in Hnorm. cbv zeta in Hnorm.
  destruct (kept_segments (d0 :: dir) (negb (d0 =? 47)%N)) as [|s st] eqn:Hst.
  - cbn [rev]. destruct (d0 =? 47)%N.
    + exists name. by rewrite <- Hnorm.
    + destruct (bool_decide _); by rewrite <- Hnorm in *.
  - destruct (rev (s :: st)) as [|s' l] eqn:Hrev.
    { apply (f_equal (@length (list N))) in Hrev. rewrite length_rev in Hrev. done. }
    destruct (bool_decide (last (d0 :: dir) = Some 47%N)).
    + exists name. rewrite <- Hnorm. by rewrite <- !app_assoc.
    + exists (47%N :: name). rewrite <- Hnorm. by rewrite app_nil_r, <- !app_assoc.
Qed.

(** *** The name of a directory node *)

Lemma last_segment_of_name s : forall cur, 47%N ∉ s -> last_segment cur s = rev cur ++ s.
Proof.
  induction s as [|c s IH]; intros cur Hs; simpl; [by rewrite app_nil_r|].
  apply not_elem_of_cons in Hs as [Hc Hs].
  rewrite (proj2 (N.eqb_neq c 47)) by done. rewrite IH by done. simpl.
  by rewrite <- app_assoc.
Qed.

Lemma last_segment_past_sep q s : forall cur,
  last_segment cur (q ++ 47%N :: s) = last_segment [] s.
Proof.
  induction q as [|c q IH]; intros cur; simpl; [done|].
  destruct (c =? 47)%N; apply IH.
Qed.

(** The node of a directory has the name of its entry. *)
Lemma dir_name_path_join dir name :
  is_proper_name name = true -> dir_name (path_join dir name) = name.
Proof.
  intros Hname. destruct (path_join_proper dir name Hname) as (pre & -> & Hpre).
  apply is_proper_name_spec in Hname as (Hne & Hsep & _).
  unfold dir_name.
  assert (Hlast : last_segment [] (pre ++ name) = name).
  { destruct Hpre as [->|(q & ->)].
    - by rewrite last_segment_of_name.
    - rewrite <- app_assoc. simpl. rewrite last_segment_past_sep. by rewrite last_segment_of_name. }
  rewrite Hlast. by destruct name.
Qed.

End PathFacts.

Module WalkFacts.
Import Js Fs Extractor AnalyzePrompts Route Notions Examples.
Import FsFacts RouteFacts ScanRunFacts PathFacts.

(** *** [listAllFiles] lists the files below the root *)

Lemma path_of_cons dir name names :
  path_of dir (name :: names) = path_of (path_join dir name) names.
Proof. done. Qed.

Lemma listed_from_file entries dir name child :
  (name, child) ∈ entries -> (name ∉ ignore) -> isFile child = true ->
  listed_from (Dir true entries) dir (path_join dir name, child).
Proof.
  intros Hin Hign Hfile. exists [name]. split; [done|]. split; [done|].
  split; [by eapply reach_down; [|apply reach_here]|]. split; [done|].
  by repeat constructor.
Qed.

Lemma listed_from_below entries dir name child e :
  (name, child) ∈ entries -> (name ∉ ignore) ->
  listed_from child (path_join dir name) e ->
  listed_from (Dir true entries) dir e.
Proof.
  intros Hin Hign (names & Hne & Hp & Hr & Hf & Hall).
  exists (name :: names). split; [done|]. split; [done|].
  split; [by eapply reach_down|]. split; [done|]. by constructor.
Qed.

(** A file listed from a directory is an entry of it, or is listed from a
    directory that is an entry of it. *)
Lemma listed_from_inv entries dir e :
  listed_from (Dir true entries) dir e ->
  exists name child,
    (name, child) ∈ entries /\ (name ∉ ignore)
    /\ (e = (path_join dir name, child) /\ isFile child = true
        \/ isDirectory child = true /\ listed_from child (path_join dir name) e).
Proof.
  intros (names & Hne & Hp & Hr & Hf & Hall).
  destruct names as [|name rest]; [done|].
  inversion Hr as [|? ? child ? ? Hin Hrest]; subst.
  apply Forall_cons in Hall as [Hign Hall].
  exists name, child. split; [done|]. split; [done|].
  destruct rest as [|name2 rest].
  - left. inversion Hrest; subst. split; [|done]. destruct e as [p f]. simpl in *. by subst.
  - right. split; [by inversion Hrest|].
    exists (name2 :: rest). done.
Qed.

Lemma list_loop_exact maxFiles dir (es : list (list N * fsnode * lister)) :
  Forall (fun e => exact_lister maxFiles e.1.2 e.2) es ->
  forall out out', list_loop maxFiles dir es out = Some out' ->
    exists added,
      out' = out ++ added
      /\ Forall (fun e => exists name child w,
                   (name, child, w) ∈ es /\ (name ∉ ignore)
                   /\ (e = (path_join dir name, child) /\ isFile child = true
                       \/ isDirectory child = true
                          /\ listed_from child (path_join dir name) e)) added
      /\ ((Z.of_nat (length out') < maxFiles)%Z ->
          forall name child w, (name, child, w) ∈ es -> (name ∉ ignore) ->
            (isFile child = true -> (path_join dir name, child) ∈ added)
            /\ (isDirectory child = true ->
                forall e, listed_from child (path_join dir name) e -> e ∈ added)).
Proof.
  induction 1 as [|[[name child] w] es Hw _ IH]; intros out out' H; cbn [list_loop] in H.
  { injection H as <-. exists []. rewrite app_nil_r. split; [done|]. split; [done|].
    intros _ ? ? ? Hin. by apply elem_of_nil in Hin. }
  assert (Hlift : forall (added : list (list N * fsnode)),
    Forall (fun e => exists name child w,
              (name, child, w) ∈ es /\ (name ∉ ignore)
              /\ (e = (path_join dir name, child) /\ isFile child = true
                  \/ isDirectory child = true
                     /\ listed_from child (path_join dir name) e)) added ->
    Forall (fun e => exists name0 child0 w0,
              (name0, child0, w0) ∈ (name, child, w) :: es /\ (name0 ∉ ignore)
              /\ (e = (path_join dir name0, child0) /\ isFile child0 = true
                  \/ isDirectory child0 = true
                     /\ listed_from child0 (path_join dir name0) e)) added).
  { intros added Ha. eapply Forall_impl; [exact Ha|]. intros e (n0 & c0 & w0 & Hin & Hrest).
    exists n0, c0, w0. split; [by right|done]. }
  destruct (Z.of_nat (length out) >=? maxFiles)%Z eqn:Hfull.
  { injection H as <-. exists []. rewrite app_nil_r. split; [done|]. split; [done|].
    intros Hlt. lia. }
  destruct (decide (name ∈ ignore)) as [Hign|Hign].
  { destruct (IH _ _ H) as (added & -> & Hs & Hc). exists added.
    split; [done|]. split; [by apply Hlift|].
    intros Hlt n0 c0 w0 [[= -> -> ->]|Hin]%elem_of_cons Hn0; [done|]. by eapply Hc. }
  simpl in Hw.
  destruct (isDirectory child) eqn:Hdir.
  - destruct (w (path_join dir name) out) as [out1|] eqn:Hw1; [|done].
    destruct (Hw _ _ _ Hw1) as (a1 & -> & Hs1 & Hc1).
    destruct (IH _ _ H) as (a2 & -> & Hs2 & Hc2).
    exists (a1 ++ a2). split; [by rewrite app_assoc|]. split.
    + apply Forall_app. split; [|by apply Hlift].
      eapply Forall_impl; [exact Hs1|]. intros e He.
      exists name, child, w. split; [by left|]. split; [done|]. by right.
    + intros Hlt n0 c0 w0 [[= -> -> ->]|Hin]%elem_of_cons Hn0.
      * split; [by destruct child|]. intros _ e He.
        apply elem_of_app. left. apply Hc1; [|done].
        rewrite !length_app in *. lia.
      * destruct (Hc2 Hlt n0 c0 w0 Hin Hn0) as [Hf Hd].
        split; [intros ?; apply elem_of_app; right; by apply Hf|].
        intros ? e He. apply elem_of_app. right. by apply Hd.
  - destruct (isFile child) eqn:Hfile.
    + destruct (IH _ _ H) as (a2 & -> & Hs2 & Hc2).
      exists ((path_join dir name, child) :: a2).
      split; [by rewrite <- app_assoc|]. split.
      * constructor; [|by apply Hlift].
        exists name, child, w. split; [by left|]. split; [done|]. by left.
      * intros Hlt n0 c0 w0 [[= -> -> ->]|Hin]%elem_of_cons Hn0.
        { split; [intros _; by left|]. by rewrite Hdir. }
        destruct (Hc2 Hlt n0 c0 w0 Hin Hn0) as [Hf Hd].
        split; [intros ?; right; by apply Hf|].
        intros ? e He. right. by apply Hd.
    + destruct (IH _ _ H) as (added & -> & Hs & Hc). exists added.
      split; [done|]. split; [by apply Hlift|].
      intros Hlt n0 c0 w0 [[= -> -> ->]|Hin]%elem_of_cons Hn0; [|by eapply Hc].
      by rewrite Hfile, Hdir.
Qed.

Lemma list_walk_exact maxFiles n : exact_lister maxFiles n (list_walk maxFiles n).
Proof.
  induction n as [size content|r entries IH|] using fsnode_ind;
    intros dir out out' H; cbn [list_walk] in H; try done.
  destruct r; [|done].
  apply list_loop_exact in H; [|apply Forall_map; exact IH].
  destruct H as (added & -> & Hs & Hc). exists added. split; [done|]. split.
  - eapply Forall_impl; [exact Hs|]. intros e (name & child & w & Hin & Hign & He).
    apply list_elem_of_fmap in Hin as ([n0 c0] & [= -> -> ->] & Hin). simpl in *.
    destruct He as [[-> Hf]|[Hd He]].
    + by apply listed_from_file.
    + by eapply listed_from_below.
  - intros Hlt e He.
    apply listed_from_inv in He as (name & child & Hin & Hign & He).
    assert (Hin' : (name, child, list_walk maxFiles child)
                   ∈ map (fun e => (e.1, e.2, list_walk maxFiles e.2)) entries).
    { apply list_elem_of_fmap. by exists (name, child). }
    destruct (Hc Hlt _ _ _ Hin' Hign) as [Hf Hd].
    destruct He as [[-> Hfile]|[Hdir He]]; [by apply Hf|by apply Hd].
Qed.

Lemma path_of_normalized names root :
  names <> [] -> normalize (path_of root names) = path_of root names.
Proof.
  intros Hne. destruct (exists_last Hne) as (init & name & ->).
  unfold path_of. rewrite foldl_app. apply path_join_normalized.
Qed.

(** X12.  What [listAllFiles] returns.  Every path it lists is the path of
    a file that can be reached from the root through directories, none of
    the names on the way (the name of the file included) being one of the
    ignored names; the path is what [join] makes of the path of the root
    and these names, one after the other, and so is in normal form
    whatever form the path of the root has.  When the list is shorter than
    the budget, it is complete: every such file is listed. *)
Theorem listAllFiles_lists_the_files (fs : fsnode) (root : list N) (maxFiles : Z)
    (paths : list (list N)) :
  listAllFiles fs root maxFiles = Some paths ->
  (forall p, p ∈ paths ->
     exists names f,
       names <> [] /\ p = path_of root names /\ normalize p = p /\ reach fs names f
       /\ isFile f = true /\ Forall (fun name => name ∉ ignore) names)
  /\ ((Z.of_nat (length paths) < maxFiles)%Z ->
      forall names f,
        names <> [] -> reach fs names f -> isFile f = true ->
        Forall (fun name => name ∉ ignore) names ->
        path_of root names ∈ paths).
Proof.
  unfold listAllFiles, list_files.
  destruct (list_walk maxFiles fs root []) as [files|] eqn:E; [|done].
  intros [= <-]. apply list_walk_exact in E as (added & -> & Hs & Hc). simpl in Hc.
  split.
  - intros p ([p' f] & -> & Hin)%list_elem_of_fmap. simpl.
    apply (proj1 (Forall_forall _ _) Hs) in Hin as (names & Hne & Hp & Hr & Hf & Hall).
    simpl in Hp. exists names, f. split; [done|]. split; [done|].
    split; [rewrite Hp; by apply path_of_normalized|done].
  - rewrite length_map. intros Hlt names f Hne Hr Hf Hall.
    apply list_elem_of_fmap. exists (path_of root names, f). split; [done|].
    apply Hc; [done|]. by exists names.
Qed.

(** The one file of [nested_tree], for a root given with a separator at its
    end. *)
Lemma listAllFiles_lists_the_files_example :
  listAllFiles nested_tree (str "/repo/") 3000 = Some [str "/repo/a/f"]
  /\ (forall p, p ∈ [str "/repo/a/f"] ->
        exists names f,
          names <> [] /\ p = path_of (str "/repo/") names /\ normalize p = p
          /\ reach nested_tree names f
          /\ isFile f = true /\ Forall (fun name => name ∉ ignore) names)
  /\ ((Z.of_nat (length [str "/repo/a/f"]) < 3000)%Z ->
      forall names f,
        names <> [] -> reach nested_tree names f -> isFile f = true ->
        Forall (fun name => name ∉ ignore) names ->
        path_of (str "/repo/") names ∈ [str "/repo/a/f"]).
Proof.
  assert (H : listAllFiles nested_tree (str "/repo/") 3000 = Some [str "/repo/a/f"])
    by (by vm_compute).
  split; [exact H|].
  exact (listAllFiles_lists_the_files nested_tree (str "/repo/") 3000 [str "/repo/a/f"] H).
Defined.

(** *** A smaller budget gives the start of the same list *)

Lemma list_walk_extends maxFiles n dir out out' :
  list_walk maxFiles n dir out = Some out' -> exists added, out' = out ++ added.
Proof. intros (added & -> & _)%list_walk_exact. by exists added. Qed.

Lemma list_loop_extends maxFiles dir entries out out' :
  list_loop maxFiles dir (map (fun e => (e.1, e.2, list_walk maxFiles e.2)) entries) out
  = Some out' ->
  exists added, out' = out ++ added.
Proof.
  intros H. apply list_loop_exact in H as (added & -> & _); [by exists added|].
  apply Forall_map, Forall_forall. intros e _. apply list_walk_exact.
Qed.

Lemma take_budget_full (small : Z) (out added : list (list N * fsnode)) :
  (Z.of_nat (length out) >= small)%Z ->
  take (Z.to_nat small) (out ++ added) = take (Z.to_nat small) out
  /\ (Z.of_nat (length (take (Z.to_nat small) out)) >= small)%Z.
Proof.
  intros H. split.
  - rewrite take_app_le by lia. done.
  - rewrite length_take. lia.
Qed.

Lemma list_loop_full maxFiles dir es out :
  (Z.of_nat (length out) >= maxFiles)%Z -> list_loop maxFiles dir es out = Some out.
Proof.
  intros H. destruct es as [|[[name child] w] es]; [done|]. cbn [list_loop].
  assert (Hge : (Z.of_nat (length out) >=? maxFiles)%Z = true) by lia.
  by rewrite Hge.
Qed.

Lemma list_loop_prefix (small large : Z) dir entries :
  (small <= large)%Z ->
  Forall (fun e : list N * fsnode =>
            forall dir out out', list_walk large e.2 dir out = Some out' ->
              list_walk small e.2 dir (take (Z.to_nat small) out)
              = Some (take (Z.to_nat small) out')) entries ->
  forall out out',
    list_loop large dir (map (fun e => (e.1, e.2, list_walk large e.2)) entries) out
    = Some out' ->
    list_loop small dir (map (fun e => (e.1, e.2, list_walk small e.2)) entries)
              (take (Z.to_nat small) out)
    = Some (take (Z.to_nat small) out').
Proof.
  intros Hle. induction 1 as [|[name child] entries Hchild _ IH]; intros out out' H.
  { simpl in *. by injection H as <-. }
  destruct (decide (Z.of_nat (length out) >= small)%Z) as [Hfull|Hroom].
  { destruct (list_loop_extends _ _ _ _ _ H) as (added & ->).
    destruct (take_budget_full small out added Hfull) as [-> Hge].
    by apply list_loop_full. }
  rewrite (take_ge out) by lia.
  cbn [map list_loop fst snd] in *.
  assert (Hs : (Z.of_nat (length out) >=? small)%Z = false) by lia.
  assert (Hl : (Z.of_nat (length out) >=? large)%Z = false) by lia.
  rewrite Hs. rewrite Hl in H.
  destruct (decide (name ∈ ignore)).
  { rewrite <- (take_ge out (Z.to_nat small)) by lia. by apply IH. }
  destruct (isDirectory child).
  - destruct (list_walk large child (path_join dir name) out) as [out1|] eqn:E; [|done].
    apply Hchild in E. simpl in E. rewrite (take_ge out) in E by lia. rewrite E.
    by apply IH.
  - destruct (isFile child).
    + destruct (decide (Z.of_nat (length (out ++ [(path_join dir name, child)])) >= small)%Z)
        as [Hfull1|Hroom1].
      * destruct (list_loop_extends _ _ _ _ _ H) as (added & ->).
        destruct (take_budget_full small _ added Hfull1) as [-> Hge].
        rewrite take_ge by (rewrite length_app in *; simpl in *; lia).
        apply list_loop_full. rewrite length_app in *. simpl in *. lia.
      * apply IH in H. rewrite take_ge in H by lia. done.
    + rewrite <- (take_ge out (Z.to_nat small)) by lia. by apply IH.
Qed.

Lemma list_walk_prefix (small large : Z) n :
  (small <= large)%Z ->
  forall dir out out', list_walk large n dir out = Some out' ->
    list_walk small n dir (take (Z.to_nat small) out) = Some (take (Z.to_nat small) out').
Proof.
  intros Hle. induction n as [size content|r entries IH|] using fsnode_ind;
    intros dir out out' H; cbn [list_walk] in *; try done.
  destruct r; [|done]. by apply (list_loop_prefix small large).
Qed.

(** X13.  The budget of [listAllFiles] only cuts the list short: when the
    listing with a budget succeeds, the listing with a smaller budget
    succeeds too and gives the first entries of the same list. *)
Theorem listAllFiles_smaller_budget (fs : fsnode) (root : list N) (small large : Z)
    (paths : list (list N)) :
  (small <= large)%Z ->
  listAllFiles fs root large = Some paths ->
  listAllFiles fs root small = Some (take (Z.to_nat small) paths).
Proof.
  unfold listAllFiles, list_files. intros Hle.
  destruct (list_walk large fs root []) as [files|] eqn:E; [|done].
  intros [= <-]. apply (list_walk_prefix small large fs Hle) in E.
  rewrite take_nil in E. rewrite E. simpl. f_equal.
  by rewrite fmap_take.
Qed.

(** The 41 files of [many_secrets_tree], and the first of them. *)
Lemma listAllFiles_smaller_budget_example :
  (1 <= 3000)%Z
  /\ listAllFiles many_secrets_tree (str "/r") 3000
     = Some (map (fun i => str "/r/f" ++ number_toString i) (seq 0 41))
  /\ listAllFiles many_secrets_tree (str "/r") 1
     = Some (take (Z.to_nat 1) (map (fun i => str "/r/f" ++ number_toString i) (seq 0 41))).
Proof.
  assert (Hle : (1 <= 3000)%Z) by lia.
  assert (H : listAllFiles many_secrets_tree (str "/r") 3000
              = Some (map (fun i => str "/r/f" ++ number_toString i) (seq 0 41)))
    by (by vm_compute).
  split; [exact Hle|]. split; [exact H|].
  exact (listAllFiles_smaller_budget many_secrets_tree (str "/r") 1 3000 _ Hle H).
Defined.

(** *** Paths that mention prisma *)

Lemma starts_with_app p (a b : list N) :
  starts_with p a = true -> starts_with p (a ++ b) = true.
Proof.
  revert a. induction p as [|c p IH]; intros a; [done|].
  destruct a as [|d a]; [done|]. simpl.
  intros [-> H]%andb_true_iff. simpl. by apply IH.
Qed.

Lemma includes_app (a b p : list N) :
  includes a p = true -> includes (a ++ b) p = true.
Proof.
  induction a as [|c a IH]; simpl.
  - rewrite orb_false_r. intros H. destruct p; [|done].
    destruct b; simpl; done.
  - intros [H|H]%orb_true_iff; apply orb_true_iff.
    + left. by apply (starts_with_app p (c :: a) b).
    + right. by apply IH.
Qed.

Lemma mentions_prisma_app (a b : list N) :
  mentions_prisma a = true -> mentions_prisma (a ++ b) = true.
Proof.
  unfold mentions_prisma, toLowerCase. rewrite map_app. apply includes_app.
Qed.

(** Below a directory whose path is in normal form and mentions prisma,
    the path of every entry mentions prisma. *)
Lemma path_join_prisma dir name :
  normalize dir = dir -> mentions_prisma dir = true -> is_proper_name name = true ->
  mentions_prisma (path_join dir name) = true.
Proof.
  intros Hnorm Hp Hname.
  destruct (path_join_extends dir name Hnorm) as (s & ->); [by intros ->..|done|].
  by apply mentions_prisma_app.
Qed.

Lemma path_of_prisma names : forall root,
  normalize root = root -> mentions_prisma root = true ->
  Forall (fun name => is_proper_name name = true) names ->
  mentions_prisma (path_of root names) = true.
Proof.
  induction names as [|name names IH]; intros root Hnorm Hp Hall; [done|].
  apply Forall_cons in Hall as [Hname Hall]. rewrite path_of_cons.
  apply IH; [apply path_join_normalized|by apply path_join_prisma|done].
Qed.

Lemma proper_names_entry r entries name child :
  proper_names (Dir r entries) = true -> (name, child) ∈ entries ->
  is_proper_name name = true /\ proper_names child = true.
Proof.
  cbn [proper_names]. rewrite forallb_forall. intros H Hin.
  apply list_elem_of_In, H, andb_true_iff in Hin. done.
Qed.

(** The names that lead to an entry of a tree with proper names. *)
Lemma reach_proper fs names n :
  reach fs names n -> proper_names fs = true ->
  Forall (fun name => is_proper_name name = true) names.
Proof.
  induction 1 as [n|entries name child names n Hin _ IH]; intros Hfs; [done|].
  destruct (proper_names_entry _ _ _ _ Hfs Hin) as [Hname Hchild].
  constructor; [done|by apply IH].
Qed.

Lemma file_loop_all_prisma files : forall sf ph,
  Forall (fun f : list N * fsnode => mentions_prisma f.1 = true) files ->
  file_loop files sf ph = (sf, ph).
Proof.
  induction files as [|[file node] files IH]; intros sf ph Hall; [done|].
  apply Forall_cons in Hall as [Hp Hall]. simpl in Hp.
  cbn [file_loop]. rewrite Hp. by apply IH.
Qed.

(** The two lists of the scan, for a target whose path mentions prisma. *)
Lemma file_loop_under_prisma fs root maxFiles files :
  normalize root = root -> mentions_prisma root = true -> proper_names fs = true ->
  list_files fs root maxFiles = Some files ->
  file_loop files [] [] = ([], []).
Proof.
  intros Hnorm Hp Hfs H. apply file_loop_all_prisma.
  unfold list_files in H. apply list_walk_exact in H as (added & -> & Hs & _).
  simpl. eapply Forall_impl; [exact Hs|].
  intros e (names & _ & -> & Hr & _).
  apply path_of_prisma; [done..|]. by eapply reach_proper.
Qed.

End WalkFacts.

Module TreeFacts.
Import Js Fs Extractor AnalyzePrompts Route Notions Examples Samples.
Import FsFacts RouteFacts ScanRunFacts PathFacts WalkFacts.

(** *** The shape of the display tree *)

Lemma height_dir name path children (b : Z) :
  (0 <= b)%Z ->
  Forall (fun c => (Z.of_nat (S (height c)) <= b)%Z) children ->
  (Z.of_nat (height (TreeDir name path children)) <= b)%Z.
Proof.
  intros Hb. cbn [height]. induction 1 as [|c cs Hc _ IH]; simpl; [lia|]. lia.
Qed.

Section tree_shape.
Variable localeCompare : list N -> list N -> Z.
Variables maxDepth maxNodes : Z.

Lemma tree_loop_shape dirPath depth entries :
  (depth <= maxDepth)%Z ->
  Forall (fun e : list N * (fsnode * tree_walker) => tree_walker_shape maxDepth e.2.2)
         entries ->
  forall children nodeCount,
    Forall (fun c => (Z.of_nat (S (height c)) <= maxDepth - depth + 1)%Z) children ->
    Forall (fun c => (Z.of_nat (S (height c)) <= maxDepth - depth + 1)%Z)
           (tree_loop maxNodes dirPath depth entries children nodeCount).1.
Proof.
  intros Hd. induction 1 as [|[name [child w]] entries Hw _ IH];
    intros children nodeCount Hch; cbn [tree_loop]; [done|].
  destruct (nodeCount >=? maxNodes)%Z; [done|].
  destruct (decide (name ∈ ignore)) as [Hign|Hign]; [by apply IH|].
  cbv zeta. destruct (mentions_prisma (path_join dirPath name)) eqn:Hp; [by apply IH|].
  destruct (isDirectory child).
  - simpl in Hw. specialize (Hw (path_join dirPath name) (depth + 1)%Z nodeCount).
    destruct (w _ _ _) as [sub nodeCount1]. simpl in Hw. destruct Hw as (_ & _ & Hh).
    apply IH. apply Forall_app. split; [done|]. constructor; [|done]. lia.
  - destruct (isFile child); [|by apply IH].
    apply IH. apply Forall_app. split; [done|]. constructor; [|done]. simpl. lia.
Qed.

Lemma tree_walk_shape n :
  tree_walker_shape maxDepth (tree_walk localeCompare maxDepth maxNodes n).
Proof.
  induction n as [size content|r entries IH|] using fsnode_ind;
    intros dirPath depth nodeCount; cbn [tree_walk]; cbv zeta.
  1,3: destruct (_ || _); simpl; (split; [done|split; [done|lia]]).
  destruct ((depth >? maxDepth)%Z || (nodeCount >=? maxNodes)%Z) eqn:Hstop.
  { simpl. split; [done|split; [done|lia]]. }
  apply orb_false_iff in Hstop as [Hd _].
  destruct r; [|simpl; split; [done|split; [done|lia]]].
  pose proof (tree_loop_shape dirPath depth
                (sort_entries localeCompare
                   (map (fun e => (e.1, (e.2, tree_walk localeCompare maxDepth maxNodes e.2)))
                        entries))
                ltac:(lia)
                ltac:(apply sort_entries_Forall, Forall_map; exact IH)
                [] nodeCount ltac:(constructor)) as Hloop.
  destruct (tree_loop _ _ _ _ _ _) as [children nodeCount']. simpl in Hloop. simpl fst.
  split; [done|]. split; [done|].
  apply Z.le_trans with (maxDepth - depth + 1)%Z; [|lia].
  apply height_dir; [lia|done].
Qed.

(** X14.  The size of the tree [buildFileTree] returns, whatever the
    directory holds: its root is a node with the path of the target, named
    after the last segment of that path; there are at most [maxDepth]
    levels below the root; and there are at most
    [maxNodes + maxDepth - 1] nodes below the root, the budget of nodes
    being exceeded by one node at most for each level. *)
Theorem buildFileTree_shape (fs : fsnode) (root : list N) :
  node_path (buildFileTree localeCompare maxDepth maxNodes fs root) = root
  /\ node_name (buildFileTree localeCompare maxDepth maxNodes fs root) = dir_name root
  /\ (Z.of_nat (height (buildFileTree localeCompare maxDepth maxNodes fs root))
      <= Z.max 0 maxDepth)%Z
  /\ (Z.of_nat (count_below (buildFileTree localeCompare maxDepth maxNodes fs root))
      <= Z.max 0 (maxNodes + Z.max 0 (maxDepth - 1)))%Z.
Proof.
  split; [|split; [|split; [|apply buildFileTree_size]]]; unfold buildFileTree;
    destruct (tree_walk_shape fs root 1%Z 0%Z) as (H1 & H2 & H3); [done|done|lia].
Qed.

(** A directory whose path is in normal form and mentions prisma gets no
    children. *)
Lemma tree_loop_prisma dirPath depth (entries : list (list N * (fsnode * tree_walker))) :
  normalize dirPath = dirPath -> mentions_prisma dirPath = true ->
  Forall (fun e => is_proper_name e.1 = true) entries ->
  forall children nodeCount,
    tree_loop maxNodes dirPath depth entries children nodeCount = (children, nodeCount).
Proof.
  intros Hnorm Hp. induction 1 as [|[name [child w]] entries Hname _ IH];
    intros children nodeCount; cbn [tree_loop]; [done|].
  destruct (nodeCount >=? maxNodes)%Z; [done|].
  destruct (decide (name ∈ ignore)); [by apply IH|].
  cbv zeta. rewrite (path_join_prisma dirPath name) by done. apply IH.
Qed.

Lemma buildFileTree_prisma fs root :
  normalize root = root -> mentions_prisma root = true -> proper_names fs = true ->
  buildFileTree localeCompare maxDepth maxNodes fs root = TreeDir (dir_name root) root [].
Proof.
  intros Hnorm Hp Hfs. unfold buildFileTree.
  destruct fs as [size content|r entries|]; cbn [tree_walk]; cbv zeta.
  1,3: by destruct (_ || _).
  destruct (_ || _); [done|]. destruct r; [|done].
  rewrite tree_loop_prisma; [done..|].
  apply sort_entries_Forall, Forall_map, Forall_forall. intros [name child] Hin.
  by destruct (proper_names_entry _ _ _ _ Hfs Hin).
Qed.
End tree_shape.

(** *** The scan of a target whose path mentions prisma *)

Lemma scan_fileTree rt targetDir useModel fs :
  fileTree (scan rt targetDir useModel fs).2
  = Some (buildFileTree (rt_localeCompare rt) 8 5000
            (scan rt targetDir useModel fs).1 targetDir).
Proof.
  unfold scan. destruct (extractPythonPrompts _ _ _ _ _ _) as [fs1 e].
  by destruct (match list_files fs1 targetDir 3000 with Some _ => _ | None => _ end).
Qed.

(** X15.  The filter on prisma looks at whole paths.  When the path of the
    target directory is in normal form and itself mentions prisma (in any
    case of the letters), every file and every entry below it is passed
    over by the two walks of the program: the scan reports no secret and
    no keyword hit, and the tree it returns is the root alone, whatever the
    directory holds (the Python script has no such filter).  The entries
    of the directory that is read -- the target as the extraction step
    leaves it -- have names as [readdir] returns them. *)
Theorem scan_of_a_prisma_path (rt : runtime) (targetDir : list N) (useModel : bool)
    (fs : fsnode) :
  normalize targetDir = targetDir ->
  mentions_prisma targetDir = true ->
  proper_names (scan rt targetDir useModel fs).1 = true ->
  secrets (scan rt targetDir useModel fs).2 = []
  /\ prompts_keywords (scan rt targetDir useModel fs).2 = []
  /\ fileTree (scan rt targetDir useModel fs).2
     = Some (TreeDir (dir_name targetDir) targetDir []).
Proof.
  intros Hnorm Hp Hfs.
  pose proof (PipelineFacts.scan_findings rt targetDir useModel fs) as Hf.
  rewrite scan_fileTree, buildFileTree_prisma by done.
  destruct (list_files _ targetDir 3000) as [files|] eqn:E.
  - rewrite (file_loop_under_prisma _ _ _ _ Hnorm Hp Hfs E) in Hf. by injection Hf as -> ->.
  - by injection Hf as -> ->.
Qed.

(** The same directory under three paths: the token in it is reported under
    the first, not under the second, and again under the third, from which
    [join] takes the segment that mentions prisma away. *)
Lemma scan_of_a_prisma_path_example :
  secrets (scan quiet_runtime (str "/srv/demo") false leaky_tree).2 <> []
  /\ secrets (scan quiet_runtime (str "/srv/Prisma-up/../demo") false leaky_tree).2 <> []
  /\ secrets (scan quiet_runtime (str "/srv/Prisma-demo") false leaky_tree).2 = []
  /\ prompts_keywords (scan quiet_runtime (str "/srv/Prisma-demo") false leaky_tree).2 = []
  /\ fileTree (scan quiet_runtime (str "/srv/Prisma-demo") false leaky_tree).2
     = Some (TreeDir (dir_name (str "/srv/Prisma-demo")) (str "/srv/Prisma-demo") []).
Proof.
  split; [by vm_compute|]. split; [by vm_compute|].
  apply (scan_of_a_prisma_path quiet_runtime (str "/srv/Prisma-demo") false leaky_tree).
  - reflexivity.
  - reflexivity.
  - reflexivity.
Defined.

End TreeFacts.

Module AnalyzeFacts.
Import Js Fs Extractor AnalyzePrompts Route Notions.

Section tree_induction.
Variable P : FileTreeNode -> Prop.
Hypothesis HDir : forall name path children, Forall P children -> P (TreeDir name path children).
Hypothesis HFile : forall name path, P (TreeFile name path).

Lemma FileTreeNode_ind : forall n, P n.
Proof using All.
fix IH 1. intros [name path children|name path].
- apply HDir. induction children as [|c children IHc]; constructor; [apply IH|assumption].
- apply HFile.
Qed.
End tree_induction.

(** *** [flattenFileTree] is the start of a depth-first walk *)

Lemma take_full {A} (M : nat) (out rest : list A) :
  M <= length out -> take M (out ++ rest) = take M out.
Proof. intros H. by rewrite take_app_le. Qed.

Lemma flatten_walk_preorder maxDepth maxItems n : forall depth out,
  length out <= Z.to_nat maxItems ->
  flatten_walk maxDepth maxItems n depth out
  = take (Z.to_nat maxItems) (out ++ preorder maxDepth n depth).
Proof.
  induction n as [name path children IH|name path] using FileTreeNode_ind;
    intros depth out Hout; cbn [flatten_walk preorder]; cbv zeta.
  - destruct (Z.of_nat (length out) >=? maxItems)%Z eqn:Hfull.
    { rewrite take_full by lia. rewrite take_ge by lia. done. }
    destruct (depth >=? maxDepth)%Z.
    { rewrite take_ge; [done|]. rewrite length_app. simpl. lia. }
    cbn [node_path].
    assert (Hout1 : length (out ++ [path]) <= Z.to_nat maxItems)
      by (rewrite length_app; simpl; lia).
    replace (out ++ path :: flat_map (fun c => preorder maxDepth c (depth + 1)%Z) children)
      with ((out ++ [path])
            ++ flat_map (fun c => preorder maxDepth c (depth + 1)%Z) children)
      by (by rewrite <- app_assoc).
    revert Hout1. generalize (out ++ [path]). clear Hfull Hout out.
    induction IH as [|c cs Hc _ IHcs]; intros out Hout; simpl.
    + rewrite app_nil_r. by rewrite take_ge by lia.
    + destruct (Z.of_nat (length out) >=? maxItems)%Z eqn:Hfull.
      { rewrite take_full by lia. rewrite take_ge by lia. done. }
      rewrite IHcs.
      * rewrite Hc by done. rewrite app_assoc.
        destruct (decide (Z.to_nat maxItems
                          <= length (out ++ preorder maxDepth c (depth + 1)%Z))) as [Hle|Hgt].
        { rewrite (take_full _ (out ++ _)) by done.
          rewrite take_full; [by rewrite take_take, Nat.min_id|].
          rewrite length_take. lia. }
        { rewrite (take_ge (out ++ _)) by lia. done. }
      * rewrite Hc by done. rewrite length_take. lia.
  - destruct (Z.of_nat (length out) >=? maxItems)%Z eqn:Hfull.
    { rewrite take_full by lia. rewrite take_ge by lia. done. }
    assert (Hlen : length (out ++ [path]) <= Z.to_nat maxItems)
      by (rewrite length_app; simpl; lia).
    destruct (depth >=? maxDepth)%Z; simpl; by rewrite take_ge.
Qed.

(** X16.  [flattenFileTree] gives the paths of the tree in the order of a
    depth-first walk (a directory, then what is below it), down to the
    depth [maxDepth] below the root, cut after [maxItems] paths. *)
Theorem flattenFileTree_is_a_preorder_prefix (root : FileTreeNode) (maxDepth maxItems : Z) :
  flattenFileTree (Some root) maxDepth maxItems
  = take (Z.to_nat maxItems) (preorder maxDepth root 0).
Proof.
  unfold flattenFileTree. rewrite flatten_walk_preorder; [done|simpl; lia].
Qed.

(** *** The size of the request *)

Lemma length_slice (s : list N) (n : nat) : length (slice s 0 n) <= n.
Proof. unfold slice. rewrite length_take. lia. Qed.

Section request.
Variable OPENAI_MODEL : option (list N).

(** X17.  What is sent to the model is bounded whatever the scan found: at
  most 400 paths, the first 200 hits with snippets of at most 400
  characters, and the first 150 artifacts with texts of at most 500
  characters; the places (path, line, label, role) are sent as they
  are. *)
Theorem build_request_is_bounded (apiKey : list N) (input : AnalysisInput) :
let request := build_request OPENAI_MODEL apiKey input in
length (rq_filePaths request) <= 400
/\ length (rq_hits request) = Nat.min 200 (length (in_hits input))
/\ length (rq_python request) = Nat.min 150 (length (in_python input))
/\ (forall i h, rq_hits request !! i = Some h ->
      exists h0, in_hits input !! i = Some h0
        /\ PromptKeywordScan.filePath h = PromptKeywordScan.filePath h0
        /\ PromptKeywordScan.line h = PromptKeywordScan.line h0
        /\ PromptKeywordScan.matchLabel h = PromptKeywordScan.matchLabel h0
        /\ PromptKeywordScan.snippet h = take 400 (PromptKeywordScan.snippet h0)
        /\ length (PromptKeywordScan.snippet h) <= 400)
/\ (forall i p, rq_python request !! i = Some p ->
      exists p0, in_python input !! i = Some p0
        /\ PythonExtractor.role p = PythonExtractor.role p0
        /\ PythonExtractor.filePath p = PythonExtractor.filePath p0
        /\ PythonExtractor.line p = PythonExtractor.line p0
        /\ PythonExtractor.text p = take 500 (PythonExtractor.text p0)
        /\ length (PythonExtractor.text p) <= 500).
Proof.
cbv zeta. unfold build_request. cbn [rq_filePaths rq_hits rq_python].
split.
{ destruct (in_fileTree input) as [root|]; [|simpl; lia].
  unfold flattenFileTree. rewrite flatten_walk_preorder by (simpl; lia).
  rewrite length_take. lia. }
split; [by rewrite length_map, length_take|].
split; [by rewrite length_map, length_take|].
split.
- intros i h Hi. rewrite list_lookup_fmap in Hi.
  destruct (take 200 (in_hits input) !! i) as [h0|] eqn:E; [|done].
  injection Hi as <-. apply lookup_take_Some in E as [E _].
  exists h0. simpl. unfold slice. simpl. rewrite length_take.
  repeat (split; [done|]). lia.
- intros i p Hi. rewrite list_lookup_fmap in Hi.
  destruct (take 150 (in_python input) !! i) as [p0|] eqn:E; [|done].
  injection Hi as <-. apply lookup_take_Some in E as [E _].
  exists p0. simpl. unfold slice. simpl. rewrite length_take.
  repeat (split; [done|]). lia.
Qed.
End request.

End AnalyzeFacts.

Module TextFacts.
Import Js Regex SecretsScan PromptKeywordScan Notions.
Import RegexFacts KeyFacts ScanFacts WhitespaceFacts LineHeuristicFacts TrimFacts.

(** *** [normalizeWhitespace] gives a normal form *)

Lemma single_spaced_collapse s : forall b, single_spaced b (collapse_ws b s) = true.
Proof.
  induction s as [|c s IH]; intros b; [done|]. simpl.
  destruct (is_space c) eqn:Hc.
  - destruct b; [apply IH|]. simpl. by rewrite IH.
  - simpl. rewrite Hc. apply IH.
Qed.

Lemma collapse_single_spaced s : forall b,
  single_spaced b s = true -> collapse_ws b s = s.
Proof.
  induction s as [|c s IH]; intros b H; [done|]. simpl in *.
  destruct (is_space c).
  - apply andb_true_iff in H as [[Hc Hb]%andb_true_iff H].
    apply N.eqb_eq in Hc as ->. destruct b; [done|]. by rewrite IH.
  - by rewrite IH.
Qed.

Lemma single_spaced_weaken s b : single_spaced b s = true -> single_spaced false s = true.
Proof.
  destruct s as [|c s]; [done|]. simpl. destruct (is_space c); [|done].
  intros [[-> _]%andb_true_iff ->]%andb_true_iff. done.
Qed.

Lemma single_spaced_suffix a s : forall b,
  single_spaced b (a ++ s) = true -> single_spaced false s = true.
Proof.
  induction a as [|c a IH]; intros b H; [by eapply single_spaced_weaken|].
  simpl in H. destruct (is_space c).
  - apply andb_true_iff in H as [_ H]. by eapply IH.
  - by eapply IH.
Qed.

Lemma single_spaced_prefix a s : forall b,
  single_spaced b (a ++ s) = true -> single_spaced b a = true.
Proof.
  induction a as [|c a IH]; intros b H; [done|].
  simpl in *. destruct (is_space c).
  - apply andb_true_iff in H as [-> H]. simpl. by eapply IH.
  - by eapply IH.
Qed.

Lemma single_spaced_trim s : single_spaced false s = true -> single_spaced false (trim s) = true.
Proof.
  intros H. destruct (trim_spec s) as (a & b & Hs & _).
  rewrite Hs in H. apply single_spaced_suffix in H. by apply single_spaced_prefix in H.
Qed.

(** X18.  [normalizeWhitespace] gives a normal form: the result has no
    white space at either end, its only white-space characters are single
    spaces, and normalizing it again changes nothing. *)
Theorem normalizeWhitespace_normal_form (value : list N) :
  trimmed (normalizeWhitespace value)
  /\ single_spaced false (normalizeWhitespace value) = true
  /\ normalizeWhitespace (normalizeWhitespace value) = normalizeWhitespace value.
Proof.
  unfold normalizeWhitespace.
  assert (Hs : single_spaced false (trim (collapse_ws false value)) = true)
    by apply single_spaced_trim, single_spaced_collapse.
  destruct (trim_spec (collapse_ws false value)) as (_ & _ & _ & _ & _ & Ht).
  split; [done|]. split; [done|].
  rewrite collapse_single_spaced by done. apply trim_idem.
Qed.

(** *** Line numbers *)

Lemma split_lines_go_other cur c s :
  c <> 10%N -> c <> 13%N -> split_lines_go cur (c :: s) = split_lines_go (c :: cur) s.
Proof.
  intros H10 H13. destruct c as [|p]; [done|].
  do 4 (try (destruct p as [p|p|]; try done)).
Qed.

Lemma split_lines_go_cr cur d s :
  d <> 10%N -> split_lines_go cur (13%N :: d :: s) = split_lines_go (13%N :: cur) (d :: s).
Proof.
  intros H10. destruct d as [|p]; [done|].
  do 4 (try (destruct p as [p|p|]; try done)).
Qed.

(** The text has one line more than it has line feeds. *)
Lemma split_lines_go_length s : forall cur,
  length (split_lines_go cur s) = S (length (filter (fun c => c = 10%N) s)).
Proof.
  remember (length s) as n eqn:Hn. revert s Hn.
  induction n as [n IH] using lt_wf_ind. intros s Hn cur.
  destruct s as [|c s]; [done|]. simpl in Hn.
  destruct (decide (c = 10%N)) as [->|Hc10].
  { rewrite filter_cons_True by done. simpl. f_equal. apply (IH (length s)); [lia|done]. }
  rewrite filter_cons_False by done.
  destruct (decide (c = 13%N)) as [->|Hc13].
  - destruct s as [|d s]; [done|].
    destruct (decide (d = 10%N)) as [->|Hd].
    + rewrite filter_cons_True by done. simpl. f_equal.
      apply (IH (length s)); [simpl in Hn; lia|done].
    + rewrite split_lines_go_cr by done. apply (IH (length (d :: s))); [lia|done].
  - rewrite split_lines_go_other by done. apply (IH (length s)); [lia|done].
Qed.

Lemma lineNumberAtIndex_count text idx :
  lineNumberAtIndex text idx <= S (length (filter (fun c => c = 10%N) text)).
Proof.
  unfold lineNumberAtIndex. destruct (idx <=? 0); [lia|].
  assert (H : forall l n,
    foldl (fun count c => if (c =? 10)%N then count + 1 else count) n l
    = n + length (filter (fun c => c = 10%N) l)).
  { induction l as [|c l IH]; intros n; simpl; [lia|].
    rewrite IH. destruct (c =? 10)%N eqn:E.
    - apply N.eqb_eq in E as ->. rewrite filter_cons_True by done. simpl. lia.
    - apply N.eqb_neq in E. by rewrite filter_cons_False. }
  rewrite H.
  rewrite <- (take_drop idx text) at 2. rewrite filter_app, length_app. lia.
Qed.

(** X19.  Every hit of [scanTextForPromptKeywords] points at a line of the
    text: its line number is between 1 and the number of lines. *)
Theorem hit_lines_are_lines_of_the_text (text filePath : list N) (h : PromptKeywordHit) :
  In h (scanTextForPromptKeywords text filePath) ->
  1 <= line h <= length (split_lines text).
Proof.
  intros Hh. split; [by apply scan_hits_wellformed in Hh as [? _]|].
  unfold split_lines at 1. rewrite split_lines_go_length.
  rewrite scan_phases in Hh. apply in_app_or in Hh as [Hb|Hl].
  - destruct (suppress_duplicates_kept [] (block_candidates text filePath))
      as (kept & Hk & Hsub).
    rewrite Hk in Hb. simpl in Hb.
    apply list_elem_of_In in Hb. apply (fun H => elem_of_sublist _ _ _ H Hsub) in Hb.
    apply list_elem_of_In, in_flat_map in Hb as (bp & Hbp & (m & <- & _)%in_map_iff).
    simpl. apply lineNumberAtIndex_count.
  - apply in_line_candidates_from in Hl as (j & l & km & Hj & Hkm & ->).
    simpl. apply lookup_lt_Some in Hj.
    unfold split_lines in Hj. rewrite split_lines_go_length in Hj. lia.
Qed.

(** A hit on the second of two lines. *)
Lemma hit_lines_are_lines_of_the_text_example :
  In {| filePath := str "a.ts"; line := 2; matchLabel := str "system_prompt_identifier";
        snippet := str "x const systemPrompt = 1" |}
     (scanTextForPromptKeywords (str "x" ++ [10%N] ++ str "const systemPrompt = 1")
                                (str "a.ts"))
  /\ 1 <= 2 <= length (split_lines (str "x" ++ [10%N] ++ str "const systemPrompt = 1")).
Proof.
  assert (H : In {| filePath := str "a.ts"; line := 2;
                    matchLabel := str "system_prompt_identifier";
                    snippet := str "x const systemPrompt = 1" |}
                 (scanTextForPromptKeywords
                    (str "x" ++ [10%N] ++ str "const systemPrompt = 1") (str "a.ts"))).
  { vm_compute. by left. }
  split; [exact H|].
  exact (hit_lines_are_lines_of_the_text _ _ _ H).
Defined.

(** *** The order of the findings *)

(** A list in which the lines never go down. *)
Lemma line_order_app (l1 l2 : list SecretFinding) :
  (forall i j a b, i <= j -> l1 !! i = Some a -> l1 !! j = Some b -> sf_line a <= sf_line b) ->
  (forall i j a b, i <= j -> l2 !! i = Some a -> l2 !! j = Some b -> sf_line a <= sf_line b) ->
  (forall a b, a ∈ l1 -> b ∈ l2 -> sf_line a <= sf_line b) ->
  forall i j a b, i <= j -> (l1 ++ l2) !! i = Some a -> (l1 ++ l2) !! j = Some b ->
    sf_line a <= sf_line b.
Proof.
  intros H1 H2 H12 i j a b Hij Ha Hb.
  apply lookup_app_Some in Ha as [Ha|[Hi Ha]]; apply lookup_app_Some in Hb as [Hb|[Hj Hb]].
  - by eapply H1.
  - apply H12; by eapply list_elem_of_lookup_2.
  - apply lookup_lt_Some in Hb. lia.
  - eapply (H2 (i - length l1) (j - length l1)); [lia|done|done].
Qed.

Lemma imap_scan_line_order fp (lines : list (list N)) : forall k,
  (forall i j a b, i <= j ->
     concat (imap (fun i => scan_line fp (k + i)) lines) !! i = Some a ->
     concat (imap (fun i => scan_line fp (k + i)) lines) !! j = Some b ->
     sf_line a <= sf_line b)
  /\ Forall (fun a => k < sf_line a) (concat (imap (fun i => scan_line fp (k + i)) lines)).
Proof.
  assert (Hline : forall i l, Forall (fun a => sf_line a = i + 1) (scan_line fp i l)).
  { intros i l. apply Forall_forall. intros a Ha. unfold scan_line in Ha.
    apply list_elem_of_In, in_flat_map in Ha as (p & _ & (m & <- & _)%in_map_iff). done. }
  induction lines as [|l lines IH]; intros k; [split; [by intros [|?] ?|constructor]|].
  rewrite imap_cons. cbn [concat].
  destruct (IH (S k)) as [Hs Hf].
  assert (Heq : imap ((fun i => scan_line fp (k + i)) ∘ S) lines
                = imap (fun i => scan_line fp (S k + i)) lines).
  { apply imap_ext. intros i x _. simpl. f_equal. lia. }
  rewrite Heq. rewrite Nat.add_0_r. specialize (Hline k l).
  split.
  - apply line_order_app; [|done|].
    + intros i j a b _ Ha Hb.
      apply list_elem_of_lookup_2, (proj1 (Forall_forall _ _) Hline) in Ha.
      apply list_elem_of_lookup_2, (proj1 (Forall_forall _ _) Hline) in Hb. lia.
    + intros a b Ha Hb.
      apply (proj1 (Forall_forall _ _) Hline) in Ha.
      apply (proj1 (Forall_forall _ _) Hf) in Hb. simpl in Hb. lia.
  - apply Forall_app. split.
    + eapply Forall_impl; [exact Hline|]. intros a Ha. simpl in Ha. lia.
    + eapply Forall_impl; [exact Hf|]. intros a Ha. simpl in Ha. lia.
Qed.

(** X20.  The findings of [scanTextForSecrets] come in the order of the
    lines, so that the five that the scan keeps of a file are those of its
    first lines: no finding left out stands on an earlier line than one
    that is kept. *)
Theorem secrets_come_in_line_order (text filePath : list N) :
  (forall i j a b, i <= j ->
     scanTextForSecrets text filePath !! i = Some a ->
     scanTextForSecrets text filePath !! j = Some b ->
     sf_line a <= sf_line b)
  /\ (forall n kept dropped,
        kept ∈ take n (scanTextForSecrets text filePath) ->
        dropped ∈ drop n (scanTextForSecrets text filePath) ->
        sf_line kept <= sf_line dropped).
Proof.
  assert (Hs : forall i j a b, i <= j ->
     scanTextForSecrets text filePath !! i = Some a ->
     scanTextForSecrets text filePath !! j = Some b ->
     sf_line a <= sf_line b).
  { unfold scanTextForSecrets. exact (proj1 (imap_scan_line_order filePath _ 0)). }
  split; [done|]. intros n kept dropped Hk Hd.
  apply list_elem_of_lookup in Hk as [i Hi]. apply list_elem_of_lookup in Hd as [j Hj].
  apply lookup_take_Some in Hi as [Hi Hin]. rewrite lookup_drop in Hj.
  eapply (Hs i (n + j)); [lia|done|done].
Qed.

End TextFacts.

Module VisitorFacts.
Import Js PythonExtractor Notions Examples Samples PythonExtractorFacts.

Lemma dict_results_origin fp stack ln callee ks vs a :
  In a (dict_results fp stack ln callee ks vs) ->
  filePath a = fp /\ functionName a = last stack
  /\ callSignature a = join (str ".") callee.
Proof.
  unfold dict_results. destruct (_ && _); [|done].
  destruct (dict_scan ks vs) as [r t]. destruct (truthy t); [|done].
  by intros [<-|[]].
Qed.

Lemma call_results_origin fp stack ln f args kws a :
  In a (call_results fp stack ln f args kws) ->
  is_llm_callee (_callee_segments f) = true
  /\ filePath a = fp /\ functionName a = last stack
  /\ callSignature a = join (str ".") (_callee_segments f).
Proof.
  unfold call_results. cbv zeta. destruct (is_llm_callee _); [|done].
  split; [done|]. apply in_app_or in H as [H|H].
  - unfold keyword_results in H. apply in_flat_map in H as (kw & _ & Ha).
    destruct (truthy _); [|done]. by destruct Ha as [<-|[]].
  - unfold arg_results in H. apply in_flat_map in H as (arg & _ & Ha).
    destruct arg; try done; [by eapply dict_results_origin|].
    apply in_flat_map in Ha as (elt & _ & Ha). destruct elt; try done.
    by eapply dict_results_origin.
Qed.

Lemma is_llm_callee_suffix callee :
  is_llm_callee callee = true ->
  exists name, In name LLM_CALLEE_NAMES /\ name `suffix_of` callee.
Proof.
  unfold is_llm_callee. intros (name & Hin & [Hlen Heq]%andb_true_iff)%existsb_exists.
  exists name. split; [done|]. apply bool_decide_eq_true in Heq.
  exists (take (length callee - length name) callee).
  transitivity (take (length callee - length name) callee
                ++ drop (length callee - length name) callee);
    [by rewrite take_drop|by rewrite Heq].
Qed.

(** X21.  Where the artifacts come from.  Every artifact that the visitor
    returns for a file comes from a call that stands in the syntax tree of
    the file and whose dotted callee ends with one of the five known names.
    It carries the path of the file, the line of that call, the name of
    the innermost function definition that the call stands in -- none when
    it stands in no definition -- and the dotted callee. *)
Theorem artifacts_carry_their_origin (file_path : list N) (tree : node)
    (a : PythonPrompt) :
  In a (extract_from_file file_path (Some tree)) ->
  exists names lineno func args keywords,
    inside tree names (Call lineno func args keywords)
    /\ (exists known, In known LLM_CALLEE_NAMES /\ known `suffix_of` _callee_segments func)
    /\ filePath a = file_path
    /\ line a = lineno
    /\ functionName a = last names
    /\ callSignature a = join (str ".") (_callee_segments func).
Proof.
  cbn [extract_from_file].
  intros (names & ln & f & args & kws & Hin & Ha)%visit_inside.
  simpl in Ha. apply call_results_spec in Ha as Hspec. destruct Hspec as [_ Hline].
  apply call_results_origin in Ha as (Hllm & Hfp & Hfn & Hsig).
  exists names, ln, f, args, kws. split; [done|].
  split; [by apply is_llm_callee_suffix|done].
Qed.

(** A call on line 7 of the function [ask] of [bot.py]. *)
Lemma artifacts_carry_their_origin_example :
  exists names lineno func args keywords,
    inside (FunctionDef (str "ask") [Other [positional_call]]) names
           (Call lineno func args keywords)
    /\ (exists known, In known LLM_CALLEE_NAMES /\ known `suffix_of` _callee_segments func)
    /\ str "bot.py" = str "bot.py"
    /\ 7 = lineno
    /\ Some (str "ask") = last names
    /\ str "client.chat.completions.create" = join (str ".") (_callee_segments func).
Proof.
  apply (artifacts_carry_their_origin (str "bot.py")
           (FunctionDef (str "ask") [Other [positional_call]])
           {| role := str "system"; text := str "Be concise."; filePath := str "bot.py";
              line := 7; functionName := Some (str "ask");
              callSignature := str "client.chat.completions.create" |}).
  vm_compute. by left.
Defined.

(** *** Lists of messages *)

Lemma visit_constant fp stack n : constant n = true -> visit fp stack n = [].
Proof. by destruct n. Qed.

Lemma visit_literal_dict fp stack n : literal_dict n = true -> visit fp stack n = [].
Proof.
  destruct n as [| | | | | |ks vs| | | | |]; try done. simpl.
  intros [Hk Hv]%andb_true_iff.
  assert (H1 : flat_map (fun k => match k with Some k => visit fp stack k | None => [] end) ks
               = []).
  { induction ks as [|[k|] ks IH]; simpl in *; try done.
    apply andb_true_iff in Hk as [Hk Hks]. by rewrite visit_constant, IH. }
  assert (H2 : flat_map (visit fp stack) vs = []).
  { induction vs as [|v vs IH]; simpl in *; [done|].
    apply andb_true_iff in Hv as [Hv Hvs]. by rewrite visit_constant, IH. }
  by rewrite H1, H2.
Qed.

(** X22.  A list of messages that is passed by keyword is not read.  For a
    call of a dotted name whose only argument is a keyword (as
    [messages=[...]]) with a list of dictionaries of constants, the
    visitor records nothing: the loop over the keywords keeps strings only,
    and the dictionaries with [role] and [content] are looked for among the
    positional arguments only. *)
Theorem keyword_messages_are_not_read (file_path : list N) (stack : list (list N))
    (lineno : nat) (func : node) (kw : option (list N)) (dicts : list node) :
  is_dotted_name func = true ->
  forallb literal_dict dicts = true ->
  visit file_path stack (Call lineno func [] [(kw, List_ dicts)]) = [].
Proof.
  intros Hf Hd. cbn [visit flat_map snd].
  rewrite (visit_dotted_name _ _ _ Hf).
  assert (H1 : call_results file_path stack lineno func [] [(kw, List_ dicts)] = []).
  { unfold call_results. cbv zeta. by destruct (is_llm_callee _). }
  assert (H2 : flat_map (visit file_path stack) dicts = []).
  { induction dicts as [|d dicts IH]; simpl in *; [done|].
    apply andb_true_iff in Hd as [Hd Hds]. by rewrite visit_literal_dict, IH. }
  by rewrite H1, H2.
Qed.

(** The same list of messages, by keyword and by position. *)
Lemma keyword_messages_are_not_read_example :
  is_dotted_name chat_create = true
  /\ forallb literal_dict [system_message] = true
  /\ visit (str "bot.py") [str "ask"] keyword_call = []
  /\ visit (str "bot.py") [str "ask"] positional_call <> [].
Proof.
  assert (Hf : is_dotted_name chat_create = true) by reflexivity.
  assert (Hd : forallb literal_dict [system_message] = true) by reflexivity.
  split; [exact Hf|]. split; [exact Hd|]. split; [|by vm_compute].
  exact (keyword_messages_are_not_read (str "bot.py") [str "ask"] 7 chat_create
           (Some (str "messages")) [system_message] Hf Hd).
Defined.

(** X23.  A list of messages that is passed by position is read.  For a
    recognized call, every dictionary of such a list that has the two keys
    [role] and [content] with string constants, the content not empty,
    gives an artifact with that content, whose role is the string of the
    dictionary, or [unknown] when that string is empty. *)
Theorem positional_messages_are_read (file_path : list N) (stack : list (list N))
    (lineno : nat) (func : node) (args : list node)
    (keywords : list (option (list N) * node)) (elts : list node) (r t : list N) :
  is_llm_callee (_callee_segments func) = true ->
  In (List_ elts) args ->
  In (Dict [Some (ConstantStr (str "role")); Some (ConstantStr (str "content"))]
           [ConstantStr r; ConstantStr t]) elts ->
  t <> [] ->
  In (result file_path stack lineno (_callee_segments func)
        (match r with [] => str "unknown" | _ => r end) t)
     (visit file_path stack (Call lineno func args keywords)).
Proof.
  intros Hllm Hargs Helts Ht. cbn [visit]. apply in_or_app. left.
  unfold call_results. cbv zeta. rewrite Hllm. apply in_or_app. right.
  unfold arg_results. apply in_flat_map. exists (List_ elts). split; [done|].
  apply in_flat_map. eexists. split; [exact Helts|].
  unfold dict_results.
  assert (Hk : existsb (key_is (str "role"))
                 [Some (ConstantStr (str "role")); Some (ConstantStr (str "content"))]
               && existsb (key_is (str "content"))
                 [Some (ConstantStr (str "role")); Some (ConstantStr (str "content"))]
               = true) by (by vm_compute).
  rewrite Hk.
  assert (Hscan : dict_scan [Some (ConstantStr (str "role")); Some (ConstantStr (str "content"))]
                            [ConstantStr r; ConstantStr t] = (Some r, Some t)).
  { unfold dict_scan. cbn [zip zip_with foldl fst snd].
    replace (key_is (str "role") (Some (ConstantStr (str "role")))) with true by (by vm_compute).
    replace (key_is (str "content") (Some (ConstantStr (str "role")))) with false
      by (by vm_compute).
    replace (key_is (str "role") (Some (ConstantStr (str "content")))) with false
      by (by vm_compute).
    replace (key_is (str "content") (Some (ConstantStr (str "content")))) with true
      by (by vm_compute).
    done. }
  rewrite Hscan. destruct t as [|c t]; [done|]. simpl truthy. cbv iota.
  left. by destruct r.
Qed.

(** The system message of [positional_call]. *)
Lemma positional_messages_are_read_example :
  is_llm_callee (_callee_segments chat_create) = true
  /\ In (result (str "bot.py") [str "ask"] 7 (_callee_segments chat_create)
           (str "system") (str "Be concise."))
        (visit (str "bot.py") [str "ask"] positional_call).
Proof.
  assert (Hllm : is_llm_callee (_callee_segments chat_create) = true) by reflexivity.
  split; [exact Hllm|].
  apply (positional_messages_are_read (str "bot.py") [str "ask"] 7 chat_create
           [List_ [system_message]] [] [system_message] (str "system") (str "Be concise.")
           Hllm).
  - simpl. by left.
  - simpl. by left.
  - done.
Defined.

End VisitorFacts.

Module AuthFacts.
Import Js Auth Notions WhitespaceFacts TrimFacts.

Lemma trim_start_app_ink t w :
  trim_start t <> [] -> trim_start (t ++ w) = trim_start t ++ w.
Proof.
  induction t as [|c t IH]; [done|]. simpl. destruct (is_space c); [apply IH|done].
Qed.

Lemma trim_start_all_space ws : all_space ws -> trim_start ws = [].
Proof. induction 1 as [|c ws Hc _ IH]; [done|]. simpl. by rewrite Hc. Qed.

Lemma trim_start_nil_all_space t : trim_start t = [] -> all_space t.
Proof.
  induction t as [|c t IH]; [constructor|]. simpl.
  destruct (is_space c) eqn:Hc; [|done]. intros H. constructor; [done|by apply IH].
Qed.

(** White space around a string does not change what [trim] gives. *)
Lemma trim_padded ws1 t ws2 :
  all_space ws1 -> all_space ws2 -> trim (ws1 ++ t ++ ws2) = trim t.
Proof.
  intros H1 H2. unfold trim. rewrite trim_start_spaces by done.
  destruct (trim_start t) as [|c u] eqn:E.
  - apply trim_start_nil_all_space in E.
    by rewrite (trim_start_all_space (t ++ ws2)) by (by apply Forall_app).
  - rewrite trim_start_app_ink by (by rewrite E). rewrite E.
    rewrite rev_app_distr. rewrite trim_start_spaces; [done|by apply all_space_rev].
Qed.

Section auth.
Variable payload : Type.
Variable jwt_verify : list N -> list N -> option payload.
Variable JWT_SECRET : option (list N).

(** X26.  What [requireJwtFromRequest] lets through.  It returns a payload
  only for a header that starts with [Bearer ] (in this case of the
  letters), with a secret that is set and not empty, and the payload is
  the one the verification gives for the rest of the header, trimmed,
  and that secret; white space around the token changes nothing. *)
Theorem requireJwtFromRequest_reads_the_token :
(forall authorization p,
   requireJwtFromRequest payload jwt_verify JWT_SECRET authorization = Return p ->
   exists rest secret,
     authorization = Some (str "Bearer " ++ rest)
     /\ JWT_SECRET = Some secret /\ secret <> []
     /\ jwt_verify (trim rest) secret = Some p)
/\ (forall ws1 token ws2,
      all_space ws1 -> all_space ws2 ->
      requireJwtFromRequest payload jwt_verify JWT_SECRET
        (Some (str "Bearer " ++ ws1 ++ token ++ ws2))
      = requireJwtFromRequest payload jwt_verify JWT_SECRET
          (Some (str "Bearer " ++ token))).
Proof.
split.
- intros [h|] p; [|done]. unfold requireJwtFromRequest.
  destruct (starts_with (str "Bearer ") h) eqn:Hs; [|done].
  destruct JWT_SECRET as [[|c secret]|]; try done.
  destruct (jwt_verify _ _) as [p'|] eqn:Hv; [|done].
  intros [= <-]. exists (drop (length (str "Bearer ")) h), (c :: secret).
  split; [|done]. f_equal.
  assert (Hpre : forall pre s : list N,
    starts_with pre s = true -> s = pre ++ drop (length pre) s).
  { induction pre as [|a pre IH]; intros [|b s] H; try done.
    simpl in H. apply andb_true_iff in H as [->%N.eqb_eq H].
    simpl. f_equal. by apply IH. }
  by apply Hpre.
- intros ws1 token ws2 H1 H2. unfold requireJwtFromRequest.
  change (starts_with (str "Bearer ") (str "Bearer " ++ ws1 ++ token ++ ws2)) with true.
  change (starts_with (str "Bearer ") (str "Bearer " ++ token)) with true.
  cbv iota zeta.
  change (drop (length (str "Bearer ")) (str "Bearer " ++ ws1 ++ token ++ ws2))
    with (ws1 ++ token ++ ws2).
  change (drop (length (str "Bearer ")) (str "Bearer " ++ token)) with token.
  by rewrite trim_padded.
Qed.
End auth.

End AuthFacts.

Module SnippetFacts.
Import Js Regex PromptKeywordScan Notions.
Import RegexFacts KeyFacts ScanFacts LineHeuristicFacts.

Lemma within_extends s x y :
  extends x y -> captures y = captures x -> within s x -> within s y.
Proof.
  intros (w & Ha & Hb) Hc [Hs Hcaps]. split; [|by rewrite Hc].
  rewrite Hb, rev_app_distr, rev_involutive, <- app_assoc, <- Ha. done.
Qed.

Lemma match_literal_captures ic w : forall x y,
  match_literal ic w x = Some y -> captures y = captures x.
Proof.
  induction w as [|c w IH]; simpl; intros x y H; [by injection H as <-|].
  destruct (after x) as [|a rest]; [done|]. destruct (char_eq ic a c); [|done].
  by apply IH in H.
Qed.

Section rep.
Context (s : list N) (m : mstate -> list mstate) (greedy : bool).
Hypothesis m_within : forall x y, In y (m x) -> within s x -> within s y.

Lemma rep_within fuel : forall mn mx x y,
In y (rep m greedy fuel mn mx x) -> within s x -> within s y.
Proof using m_within.
induction fuel as [|fuel IH]; simpl; intros mn mx x y Hy Hx; [done|].
assert (Hmore : In y (flat_map
          (fun y0 => if (mn =? 0) && (length (after y0) =? length (after x))
                     then [] else rep m greedy fuel (pred mn) (pred <$> mx) y0)
          (m x)) -> within s y).
{ intros (y0 & Hy0 & Hin)%in_flat_map.
  destruct (_ && _); [done|]. eapply IH; [exact Hin|]. by eapply m_within. }
destruct mx as [[|k]|]; [by destruct Hy as [<-|[]]|..];
  (destruct (negb (mn =? 0)); [by apply Hmore|];
   destruct greedy; [apply in_app_or in Hy as [?|[<-|[]]]; auto|];
   destruct Hy as [<-|?]; auto).
Qed.
End rep.

(** Matching keeps the matcher on its subject, and what a group captures is
    a piece of the subject. *)
Lemma rmatches_within s ic r : forall x y,
  In y (rmatches ic r x) -> within s x -> within s y.
Proof.
  induction r as [|c|p|r1 IH1 r2 IH2|r1 IH1 r2 IH2|mn mx g r IH| |n r IH|n];
    intros x y Hy Hx; cbn [rmatches] in Hy.
  - by destruct Hy as [<-|[]].
  - destruct (after x) as [|a rest] eqn:Ha; [done|].
    destruct (char_eq ic a c); [|done]. destruct Hy as [<-|[]].
    eapply within_extends; [by apply extends_step|done|done].
  - destruct (after x) as [|a rest] eqn:Ha; [done|].
    destruct (p a); [|done]. destruct Hy as [<-|[]].
    eapply within_extends; [by apply extends_step|done|done].
  - apply in_flat_map in Hy as (y0 & Hy0 & Hin). eauto.
  - apply in_app_or in Hy as [?|?]; eauto.
  - eapply (rep_within s (rmatches ic r) g IH); eauto.
  - destruct (xorb _ _); [|done]. by destruct Hy as [<-|[]].
  - apply in_map_iff in Hy as (y0 & <- & Hy0).
    pose proof (rmatches_extends _ _ _ _ Hy0) as (w & Ha & Hb).
    destruct (IH _ _ Hy0 Hx) as [Hs Hcaps]. split; [done|]. simpl.
    constructor; [|done]. simpl.
    rewrite (extends_consumed x y0 w Ha Hb).
    destruct Hx as [Hsx _]. exists (rev (before x)), (after y0).
    by rewrite <- Ha.
  - destruct (capture x n) as [w|].
    + destruct (match_literal ic w x) as [y'|] eqn:E; [|done].
      destruct Hy as [<-|[]].
      eapply within_extends; [by eapply match_literal_extends| |done].
      by eapply match_literal_captures.
    + by destruct Hy as [<-|[]].
Qed.

Lemma exec_from_within s ic r : forall aft bef m y,
  rev bef ++ aft = s ->
  exec_from ic r bef aft = Some (m, y) ->
  within s y /\ m_groups m = captures y.
Proof.
  induction aft as [|a aft IH]; intros bef m y Hs H; simpl in H.
  - destruct (rmatches ic r _) as [|y0 ys] eqn:E; [done|].
    injection H as <- <-. split; [|done].
    eapply rmatches_within; [rewrite E; by left|]. split; [done|constructor].
  - destruct (rmatches ic r _) as [|y0 ys] eqn:E.
    + apply IH in H; [done|]. simpl. by rewrite <- app_assoc.
    + injection H as <- <-. split; [|done].
      eapply rmatches_within; [rewrite E; by left|]. split; [done|constructor].
Qed.

Lemma exec_loop_within s ic r : forall fuel bef aft ms,
  rev bef ++ aft = s ->
  exec_loop fuel ic r bef aft = Some ms ->
  forall m, In m ms -> Forall (fun c : nat * list N => piece_of s c.2) (m_groups m).
Proof.
  induction fuel as [|fuel IH]; intros bef aft ms Hs H m Hm; [done|].
  simpl in H. destruct (exec_from ic r bef aft) as [[m0 y]|] eqn:E.
  - destruct (exec_from_within s ic r aft bef m0 y Hs E) as [[Hy Hcaps] Hg].
    destruct (length (after y) <? length aft); [|done].
    destruct (exec_loop fuel ic r (before y) (after y)) as [ms'|] eqn:E'; [|done].
    injection H as <-. destruct Hm as [<-|Hm]; [by rewrite Hg|].
    by eapply IH.
  - injection H as <-. done.
Qed.

Lemma exec_all_within s ic r m :
  In m (exec_all ic r s) -> forall n w, m_group m n = Some w -> piece_of s w.
Proof.
  unfold exec_all, exec_all_opt.
  destruct (exec_loop (S (length s)) ic r [] s) as [ms|] eqn:E; [|done].
  simpl. intros Hm n w Hw.
  pose proof (exec_loop_within s ic r _ [] s ms eq_refl E m Hm) as Hall.
  unfold m_group in Hw.
  destruct (find (fun p => p.1 =? n) (m_groups m)) as [[n' w']|] eqn:Ef; [|done].
  injection Hw as <-. apply find_some in Ef as [Hin _].
  apply list_elem_of_In in Hin.
  exact (proj1 (Forall_forall _ _) Hall _ Hin).
Qed.

(** X27.  The snippet of a hit of the block extractors is a piece of the
    scanned text as it stands there (nothing in it is normalized or cut),
    the empty piece included. *)
Theorem block_snippets_are_pieces_of_the_text (text filePath : list N)
    (h : PromptKeywordHit) :
  In h (scanTextForPromptKeywords text filePath) ->
  is_block_label (matchLabel h) ->
  piece_of text (snippet h).
Proof.
  intros Hh Hlabel. rewrite scan_phases in Hh. apply in_app_or in Hh as [Hb|Hl].
  - destruct (suppress_duplicates_kept [] (block_candidates text filePath))
      as (kept & Hk & Hsub).
    rewrite Hk in Hb. simpl in Hb.
    apply list_elem_of_In in Hb. apply (fun H => elem_of_sublist _ _ _ H Hsub) in Hb.
    apply list_elem_of_In, in_flat_map in Hb as (bp & Hbp & (m & <- & Hm)%in_map_iff).
    simpl. destruct (m_group m (bp_groupIndex bp)) as [w|] eqn:Hw; simpl.
    + by eapply exec_all_within.
    + exists [], text. done.
  - exfalso. apply in_line_candidates_from in Hl as (j & l & km & Hj & Hkm & ->).
    simpl in Hlabel. eapply labels_disjoint; [exact Hlabel|].
    apply find_some in Hkm as [Hin _].
    apply list_elem_of_In, in_map. exact Hin.
Qed.

(** The body of a template literal. *)
Lemma block_snippets_are_pieces_of_the_text_example :
  In {| filePath := str "p.ts"; line := 1;
        matchLabel := str "js_ts_system_template_literal"; snippet := str "Be brief." |}
     (scanTextForPromptKeywords (str "x = { system: `Be brief.` }") (str "p.ts"))
  /\ is_block_label (str "js_ts_system_template_literal")
  /\ piece_of (str "x = { system: `Be brief.` }") (str "Be brief.").
Proof.
  assert (H : In {| filePath := str "p.ts"; line := 1;
                    matchLabel := str "js_ts_system_template_literal";
                    snippet := str "Be brief." |}
                 (scanTextForPromptKeywords (str "x = { system: `Be brief.` }")
                                            (str "p.ts"))).
  { vm_compute. by left. }
  assert (Hl : is_block_label (str "js_ts_system_template_literal")).
  { unfold is_block_label. apply list_elem_of_In. vm_compute. by left. }
  split; [exact H|]. split; [exact Hl|].
  exact (block_snippets_are_pieces_of_the_text _ _ _ H Hl).
Defined.

End SnippetFacts.

Module TreeOrderFacts.
Import Js Fs Extractor AnalyzePrompts Route Notions Examples Samples.
Import FsFacts RouteFacts PathFacts WalkFacts TreeFacts.



Section tree_order.
Variable localeCompare : list N -> list N -> Z.
Variables maxDepth maxNodes : Z.
Hypothesis localeCompare_trans : forall a b c,
  (localeCompare a b <= 0)%Z -> (localeCompare b c <= 0)%Z -> (localeCompare a c <= 0)%Z.
Hypothesis localeCompare_total : forall a b,
  (localeCompare a b <= 0)%Z \/ (localeCompare b a <= 0)%Z.






End tree_order.


End TreeOrderFacts.

Module TreeContentFacts.
Import Js Fs Extractor AnalyzePrompts Route Notions Examples Samples.
Import FsFacts RouteFacts PathFacts WalkFacts.

Lemma shows_dir name path children fs :
  isDirectory fs = true ->
  Forall (fun c => exists name child entries,
            fs = Dir true entries /\ (name, child) ∈ entries
            /\ (name ∉ ignore)
            /\ node_name c = name
            /\ node_path c = path_join path name
            /\ mentions_prisma (node_path c) = false
            /\ shows c child) children ->
  shows (TreeDir name path children) fs.
Proof.
  intros Hd Hall. cbn [shows]. split; [done|].
  induction Hall as [|c cs Hc _ IH]; simpl; [done|]. by split.
Qed.

Section tree_content.
Variable localeCompare : list N -> list N -> Z.
Variables maxDepth maxNodes : Z.

Lemma tree_loop_shows entries dirPath depth sorted :
  Forall (shown_entry entries) sorted ->
  forall children nodeCount,
    Forall (fun c => exists name child es,
              Dir true entries = Dir true es /\ (name, child) ∈ es
              /\ (name ∉ ignore)
              /\ node_name c = name
              /\ node_path c = path_join dirPath name
              /\ mentions_prisma (node_path c) = false
              /\ shows c child) children ->
    Forall (fun c => exists name child es,
              Dir true entries = Dir true es /\ (name, child) ∈ es
              /\ (name ∉ ignore)
              /\ node_name c = name
              /\ node_path c = path_join dirPath name
              /\ mentions_prisma (node_path c) = false
              /\ shows c child)
           (tree_loop maxNodes dirPath depth sorted children nodeCount).1.
Proof.
  induction 1 as [|[name [child w]] sorted (Hin & Hname & Hw) _ IH];
    intros children nodeCount Hch; cbn [tree_loop]; [done|].
  simpl in Hin, Hname, Hw.
  destruct (nodeCount >=? maxNodes)%Z; [done|].
  destruct (decide (name ∈ ignore)) as [Hign|Hign]; [by apply IH|].
  cbv zeta. destruct (mentions_prisma (path_join dirPath name)) eqn:Hp; [by apply IH|].
  destruct (isDirectory child) eqn:Hdir.
  - specialize (Hw eq_refl (path_join dirPath name) (depth + 1)%Z nodeCount).
    destruct (w _ _ _) as [sub nodeCount1]. simpl in Hw.
    destruct Hw as (Hpath & Hsubname & Hshows).
    apply IH. apply Forall_app. split; [done|]. constructor; [|done].
    exists name, child, entries. rewrite Hpath, Hsubname.
    by rewrite dir_name_path_join.
  - destruct (isFile child) eqn:Hfile; [|by apply IH].
    apply IH. apply Forall_app. split; [done|]. constructor; [|done].
    by exists name, child, entries.
Qed.

Lemma tree_walk_shows n :
  proper_names n = true -> isDirectory n = true ->
  forall dirPath depth nodeCount,
    node_path (tree_walk localeCompare maxDepth maxNodes n dirPath depth nodeCount).1 = dirPath
    /\ node_name (tree_walk localeCompare maxDepth maxNodes n dirPath depth nodeCount).1
       = dir_name dirPath
    /\ shows (tree_walk localeCompare maxDepth maxNodes n dirPath depth nodeCount).1 n.
Proof.
  induction n as [size content|r entries IH|] using fsnode_ind;
    intros Hn Hd dirPath depth nodeCount; cbn [tree_walk]; cbv zeta; try done.
  destruct ((depth >? maxDepth)%Z || (nodeCount >=? maxNodes)%Z); [done|].
  destruct r; [|done].
  set (sorted := sort_entries localeCompare
                   (map (fun e => (e.1, (e.2, tree_walk localeCompare maxDepth maxNodes e.2)))
                        entries)).
  assert (Hsorted : Forall (shown_entry entries) sorted).
  { apply sort_entries_Forall, Forall_map. apply Forall_forall.
    intros [name child] Hin.
    destruct (proper_names_entry _ _ _ _ Hn Hin) as [Hname Hchild].
    split; [done|]. split; [done|]. simpl. intros Hdir.
    exact (proj1 (Forall_forall _ _) IH _ Hin Hchild Hdir). }
  pose proof (tree_loop_shows entries dirPath depth sorted Hsorted [] nodeCount
                ltac:(constructor)) as Hloop.
  destruct (tree_loop _ _ _ _ _ _) as [children nodeCount']. simpl in Hloop. simpl fst.
  split; [done|]. split; [done|]. by apply shows_dir.
Qed.

(** X29.  The tree shows only what is there.  For a target that is a
    directory, with entries named as [readdir] names them, every node of
    the tree [buildFileTree] returns stands for an entry found in the
    directory at the place of the node: a file node for a regular file, a
    directory node for a directory.  Each child has the name of its entry,
    which is not an ignored name, and the path that [join] makes of the
    path of its parent and that name, which does not mention prisma. *)
Theorem buildFileTree_shows_the_directory (fs : fsnode) (root : list N) :
  proper_names fs = true -> isDirectory fs = true ->
  shows (buildFileTree localeCompare maxDepth maxNodes fs root) fs.
Proof.
  intros Hn Hd. unfold buildFileTree.
  by destruct (tree_walk_shows fs Hn Hd root 1%Z 0%Z) as (_ & _ & H).
Qed.
End tree_content.

(** The tree of [nested_tree], for a root given with a separator at its
    end. *)
Lemma buildFileTree_shows_the_directory_example :
  buildFileTree by_length 8 5000 nested_tree (str "/repo/")
  = TreeDir (str "/repo/") (str "/repo/")
      [TreeDir (str "a") (str "/repo/a") [TreeFile (str "f") (str "/repo/a/f")]]
  /\ shows (buildFileTree by_length 8 5000 nested_tree (str "/repo/")) nested_tree.
Proof.
  split; [by vm_compute|].
  apply (buildFileTree_shows_the_directory by_length 8 5000 nested_tree (str "/repo/")).
  - reflexivity.
  - reflexivity.
Defined.

End TreeContentFacts.
